(** * svelte-simple-markdown: the parsing core, embedded and verified

    A shallow embedding of [src/lib/core]: the rule registry ([RuleList]), the
    parser factory ([createParser] with its [nestedParse] loop and [outerParse]
    entry), the helpers of [utilities.ts], and the reference / definition
    builders of [default-rules.ts].

    Modelling conventions.
    - A JavaScript string is a [string]; [String.length] is [.length] and each
      character stands for one code unit.
    - A JavaScript number is a binary64 [float] (Rocq's primitive floats), so
      [NaN] and [<=] behave as in the engine's quality comparison.
    - JavaScript values that parse state and nodes carry are [Value]s.  AST
      nodes are mutable objects shared between the output arrays and the
      tables of the parse state, so they live in a heap ([heap] of [Store]) and
      are referred to by location ([VNode l]).  Plain records and arrays that
      are only reached through one owner are values ([VObj], [VArr]).
    - One parse call threads one state object.  [Store] holds that object's
      properties ([state]) next to the node heap; a rule's [parse] receives the
      recursive parser as a function of the source only, standing for
      [parse(source, state)] with the state object it was given.
    - Code that may throw returns an [Outcome]; loops that may not terminate
      (an empty capture never advances the cursor, a rule named ["undefined"]
      keeps the rule walk going past the end of the rule list) take fuel.
    - The modules are ES modules, so the code runs in strict mode.
    - A plain object inherits from [Object.prototype].  Where the code reads
      a property under a name it computes ([rules[...]], [state._refs[...]],
      [state._defs[...]]) the inherited properties are part of the model;
      the properties it reads under fixed names ([inline], [type],
      [content], ...) are none of the inherited ones. *)

From Stdlib Require Import ZArith String Ascii List Floats.
From stdpp Require Import gmap strings list fin_maps pretty.

Set Warnings "-register-all,-inexact-float".
Local Open Scope string_scope.
Local Open Scope list_scope.

(** ** JavaScript values *)

(** Heap location of a node object. *)
Abbreviation loc := nat.

(** The result of a recognizer: an array of groups ([capture[0]] is the whole
    match, an unmatched group is [undefined]) with the optional [index]
    property of a [RegExpMatchArray]. *)
Record Capture := mkCapture {
  groups : list (option string);
  index : option float
}.

(** The number [n]. *)
Definition number (n : Z) : float := SF2Prim (binary_normalize prec emax n 0 false).

Inductive Value :=
| VUndefined
| VNull
| VBool (b : bool)
| VNum (x : float)
| VStr (s : string)
| VArr (vs : list Value)
| VObj (fields : gmap string Value)
| VNode (l : loc)
| VCapture (c : Capture).

(** [capture[i]] *)
Definition group (c : Capture) (i : nat) : option string :=
  match groups c !! i with
  | Some g => g
  | None => None
  end.

(** [o[k]] on a plain object: a missing property reads as [undefined]. *)
Definition get (o : gmap string Value) (k : string) : Value :=
  match o !! k with
  | Some v => v
  | None => VUndefined
  end.

(** ToBoolean *)
Definition truthy (v : Value) : bool :=
  match v with
  | VUndefined | VNull => false
  | VBool b => b
  | VNum x => negb (PrimFloat.eqb x 0 || PrimFloat.is_nan x)
  | VStr s => negb (String.eqb s "")
  | VArr _ | VObj _ | VNode _ | VCapture _ => true
  end.

(** Number::toString, for the doubles whose decimal form is a plain integer
    literal (and NaN, the infinities); other doubles are outside the model. *)
Definition number_toString (x : float) : option string :=
  match Prim2SF x with
  | S754_nan => Some "NaN"
  | S754_infinity s => Some (if s then "-Infinity" else "Infinity")
  | S754_zero _ => Some "0"
  | S754_finite s m e =>
      let z := if (0 <=? e)%Z then Some (Z.pos m * 2 ^ e)%Z
               else if (Z.pos m mod 2 ^ (- e) =? 0)%Z then Some (Z.pos m / 2 ^ (- e))%Z
               else None in
      match z with
      | Some z => if (z <? 10 ^ 21)%Z then Some (pretty (if s then (- z)%Z else z)) else None
      | None => None
      end
  end.

Definition opt_string (o : option string) : string :=
  match o with
  | Some s => s
  | None => ""
  end.

(** [Array.prototype.join(",")] on already converted elements. *)
Fixpoint join_comma (l : list string) : string :=
  match l with
  | [] => ""
  | [s] => s
  | s :: l' => s +:+ "," +:+ join_comma l'
  end.

(** ToString.  An array joins its elements with commas, [undefined] and [null]
    elements giving the empty string; an object is ["[object Object]"]. *)
Fixpoint toString (v : Value) : option string :=
  match v with
  | VUndefined => Some "undefined"
  | VNull => Some "null"
  | VBool b => Some (if b then "true" else "false")
  | VNum x => number_toString x
  | VStr s => Some s
  | VArr vs =>
      (fix elems (l : list Value) (acc : list string) : option string :=
         match l with
         | [] => Some (join_comma (rev acc))
         | v :: l' =>
             match (match v with
                    | VUndefined | VNull => Some ""
                    | _ => toString v
                    end) with
             | Some s => elems l' (s :: acc)
             | None => None
             end
         end) vs []
  | VObj _ | VNode _ => Some "[object Object]"
  | VCapture c => Some (join_comma (map opt_string (groups c)))
  end.

(** ToNumber on the primitives that reach the numeric branch of [+]. *)
Definition toNumber (v : Value) : float :=
  match v with
  | VNull => 0%float
  | VBool b => if b then 1%float else 0%float
  | VNum x => x
  | _ => nan
  end.

Definition to_primitive_is_string (v : Value) : bool :=
  match v with
  | VStr _ | VArr _ | VObj _ | VNode _ | VCapture _ => true
  | _ => false
  end.

(** The binary [+]: string concatenation as soon as one operand is (or
    converts to) a string, numeric addition otherwise.  [None] only where
    [number_toString] is. *)
Definition js_add (a b : Value) : option Value :=
  if to_primitive_is_string a || to_primitive_is_string b then
    match toString a, toString b with
    | Some sa, Some sb => Some (VStr (sa +:+ sb))
    | _, _ => None
    end
  else Some (VNum (toNumber a + toNumber b)%float).

(** [s.substring(n)] *)
Fixpoint substring_from (n : nat) (s : string) : string :=
  match n, s with
  | O, _ => s
  | S n', String _ s' => substring_from n' s'
  | S _, EmptyString => EmptyString
  end.

(** ** Parse state, node heap and the outcome of a computation *)

(** An AST node object is the map of its own properties ([type], [content],
    ...), and so is the parse state object ([ParserState]). *)
Record Store := mkStore {
  state : gmap string Value;
  heap : list (gmap string Value)
}.

Inductive Error :=
| NoMatchingRule (lastRule : option string) (source : string)
| UnanchoredCapture
| TypeError
| SyntaxError
| RuleNotFound (rule : string).

Inductive Outcome (A : Type) :=
| Done (a : A) (st : Store)
| Throw (e : Error)
| Unmodelled
| OutOfFuel.
Arguments Done {A} a st.
Arguments Throw {A} e.
Arguments Unmodelled {A}.
Arguments OutOfFuel {A}.

(** A computation on the store that may throw. *)
Definition M (A : Type) : Type := Store -> Outcome A.

Definition ret {A} (a : A) : M A := fun st => Done a st.

Definition bind {A B} (m : M A) (k : A -> M B) : M B :=
  fun st =>
    match m st with
    | Done a st' => k a st'
    | Throw e => Throw e
    | Unmodelled => Unmodelled
    | OutOfFuel => OutOfFuel
    end.

Notation "'let*' x ':=' m 'in' k" := (bind m (fun x => k))
  (at level 10, x name, m at level 100, k at level 200).

Definition throw {A} (e : Error) : M A := fun _ => Throw e.

(** A step the model does not cover. *)
Definition unmodelled {A} : M A := fun _ => Unmodelled.

Definition getState : M (gmap string Value) := fun st => Done (state st) st.

(** [state[k] = v] *)
Definition setState (k : string) (v : Value) : M unit :=
  fun st => Done tt (mkStore (<[k := v]> (state st)) (heap st)).

(** A fresh object literal. *)
Definition alloc (n : gmap string Value) : M loc :=
  fun st => Done (length (heap st)) (mkStore (state st) (heap st ++ [n])).

(** [node[k] = v]; writing through something that is not an object throws. *)
Definition setField (l : loc) (k : string) (v : Value) : M unit :=
  fun st =>
    match heap st !! l with
    | Some n => Done tt (mkStore (state st) (<[l := <[k := v]> n]> (heap st)))
    | None => Throw TypeError
    end.

(** [node[k]] *)
Definition getField (l : loc) (k : string) : M Value :=
  fun st =>
    match heap st !! l with
    | Some n => Done (get n k) st
    | None => Throw TypeError
    end.

(** ** Rules ([type.ts]) *)

(** The recursive parser handed to a rule's [parse] ([Parser]) is a function
    from the source to a computation of the node array. *)
Record ParserRule := mkRule {
  name : string;
  match' : string -> gmap string Value -> option Capture;
  parse : Capture -> (string -> M (list loc)) -> M loc;
  quality : option (Capture -> gmap string Value -> float)
}.

(** ** The rule registry ([rule-list.ts])

    A [RuleList] is an array object; the registry methods mutate it in place.
    [RuleList] is the array's contents, [Registries] the heap of registry
    objects, and each method comes as the change of the contents and as the
    in-place update of the object at a reference. *)

Abbreviation RuleList := (list ParserRule).

(** [this.findIndex((r) => r.name === rule)], with [None] for [-1]. *)
Fixpoint findIndex (rule : string) (l : RuleList) : option nat :=
  match l with
  | [] => None
  | r :: l' =>
      if String.eqb (name r) rule then Some 0
      else match findIndex rule l' with
           | Some i => Some (S i)
           | None => None
           end
  end.

(** [this.splice(start, deleteCount, ...items)] *)
Definition splice (start deleteCount : nat) (items : RuleList) (l : RuleList) : RuleList :=
  take start l ++ items ++ drop (start + deleteCount) l.

Definition insertBefore (rule : string) (newRule : ParserRule) (l : RuleList) : Error + RuleList :=
  match findIndex rule l with
  | None => inl (RuleNotFound rule)
  | Some index => inr (splice index 0 [newRule] l)
  end.

Definition insertAfter (rule : string) (newRule : ParserRule) (l : RuleList) : Error + RuleList :=
  match findIndex rule l with
  | None => inl (RuleNotFound rule)
  | Some index => inr (splice (index + 1) 0 [newRule] l)
  end.

Definition add (rule : ParserRule) (l : RuleList) : RuleList := l ++ [rule].

(** [this.find((r) => r.name === rule)] *)
Definition RuleList_get (rule : string) (l : RuleList) : option ParserRule :=
  List.find (fun r => String.eqb (name r) rule) l.

Definition remove (rule : string) (l : RuleList) : Error + RuleList :=
  match findIndex rule l with
  | None => inl (RuleNotFound rule)
  | Some index => inr (splice index 1 [] l)
  end.

(** The heap of registry objects and references into it. *)
Abbreviation Registries := (list (list ParserRule)).
Abbreviation ref := nat.

(** [new RuleList(input)]: a new array object holding the elements of
    [input] in order. *)
Definition newRuleList (input : RuleList) (h : Registries) : ref * Registries :=
  (length h, h ++ [input]).

(** [r.clone()], which is [new RuleList(this)]. *)
Definition clone (r : ref) (h : Registries) : option (ref * Registries) :=
  match h !! r with
  | Some this => Some (newRuleList this h)
  | None => None
  end.

(** The mutating methods of a registry. *)
Inductive Mutation :=
| Add (rule : ParserRule)
| InsertBefore (rule : string) (newRule : ParserRule)
| InsertAfter (rule : string) (newRule : ParserRule)
| Remove (rule : string).

Definition mutate (m : Mutation) (l : RuleList) : Error + RuleList :=
  match m with
  | Add rule => inr (add rule l)
  | InsertBefore rule newRule => insertBefore rule newRule l
  | InsertAfter rule newRule => insertAfter rule newRule l
  | Remove rule => remove rule l
  end.

(** One method call on the registry object at [r]: the object is updated in
    place, and a call that throws leaves every object as it was. *)
Definition call (r : ref) (m : Mutation) (h : Registries) : Registries :=
  match h !! r with
  | Some this =>
      match mutate m this with
      | inr this' => <[r := this']> h
      | inl _ => h
      end
  | None => h
  end.

(** A sequence of method calls on the object at [r]. *)
Definition calls (r : ref) (ms : list Mutation) (h : Registries) : Registries :=
  fold_left (fun h m => call r m h) ms h.

(** ** The rule object and its key order ([toRuleObject], [Object.keys]) *)

(** A plain object used as a dictionary keeps its properties in creation
    order; assigning to an existing property keeps its place.  The entry
    under ["__proto__"] is not a property of the object's own: assigning an
    object to [o.__proto__] makes it the prototype of [o], and reading
    [o.__proto__] gives it back. *)
Fixpoint setProperty {V} (o : list (string * V)) (k : string) (v : V) : list (string * V) :=
  match o with
  | [] => [(k, v)]
  | (k', v') :: o' =>
      if String.eqb k' k then (k', v) :: o' else (k', v') :: setProperty o' k v
  end.

Fixpoint getProperty {V} (o : list (string * V)) (k : string) : option V :=
  match o with
  | [] => None
  | (k', v') :: o' => if String.eqb k' k then Some v' else getProperty o' k
  end.

Definition toRuleObject (l : RuleList) : list (string * ParserRule) :=
  fold_left (fun result rule => setProperty result (name rule) rule) l [].

Definition is_digit (c : ascii) : bool :=
  (48 <=? N_of_ascii c)%N && (N_of_ascii c <=? 57)%N.

Fixpoint digits_value (s : string) (acc : N) : option N :=
  match s with
  | EmptyString => Some acc
  | String c s' =>
      if is_digit c then digits_value s' (acc * 10 + (N_of_ascii c - 48))%N else None
  end.

(** An array index: the canonical decimal numeral of an integer below
    [2^32 - 1]. *)
Definition array_index (s : string) : option N :=
  match s with
  | EmptyString => None
  | String c s' =>
      if Ascii.eqb c "0" && negb (String.eqb s' "") then None
      else match digits_value s 0 with
           | Some n => if (n <? 2 ^ 32 - 1)%N then Some n else None
           | None => None
           end
  end.

Fixpoint insert_index (k : N * string) (l : list (N * string)) : list (N * string) :=
  match l with
  | [] => [k]
  | k' :: l' => if (fst k <=? fst k')%N then k :: l else k' :: insert_index k l'
  end.

Fixpoint index_keys (ks : list string) : list (N * string) :=
  match ks with
  | [] => []
  | k :: ks' =>
      match array_index k with
      | Some n => insert_index (n, k) (index_keys ks')
      | None => index_keys ks'
      end
  end.

Definition is_array_index (k : string) : bool :=
  match array_index k with
  | Some _ => true
  | None => false
  end.

(** The names of the own properties, in creation order. *)
Definition own_keys {V} (o : list (string * V)) : list string :=
  List.filter (fun k => negb (String.eqb k "__proto__")) (map fst o).

(** [Object.keys(o)]: array indices in ascending numeric order, then the
    other keys in creation order. *)
Definition Object_keys {V} (o : list (string * V)) : list string :=
  map snd (index_keys (own_keys o))
  ++ List.filter (fun k => negb (is_array_index k)) (own_keys o).

(** The properties every plain object inherits from [Object.prototype]. *)
Definition Object_prototype_names : list string :=
  ["constructor"; "__defineGetter__"; "__defineSetter__"; "hasOwnProperty";
   "__lookupGetter__"; "__lookupSetter__"; "isPrototypeOf"; "propertyIsEnumerable";
   "toString"; "valueOf"; "__proto__"; "toLocaleString"].

Definition inherited (k : string) : bool := existsb (String.eqb k) Object_prototype_names.

(** What [rules[k]] is when [rules] holds no rule under [k]: [undefined], or
    a built-in function or object of [Object.prototype] (which has no
    [match] and no [quality]), or, when a rule was assigned to
    [rules.__proto__], whatever that rule object provides under [k], which
    the model does not follow. *)
Inductive Absent :=
| AbsentUndefined
| AbsentBuiltin
| AbsentOther.

Definition absent {V} (rules : list (string * V)) (k : string) : Absent :=
  match getProperty rules "__proto__" with
  | Some _ => AbsentOther
  | None => if inherited k then AbsentBuiltin else AbsentUndefined
  end.

(** ** The parser factory ([createParser]) *)

Definition CR : ascii := "013".
Definition LF : ascii := "010".
Definition FF : ascii := "012".
Definition TAB : ascii := "009".

(** [source.replace(/\r\n?/g, '\n')] *)
Fixpoint replace_CR_NEWLINE (s : string) : string :=
  match s with
  | EmptyString => EmptyString
  | String c s' =>
      if Ascii.eqb c CR then
        match s' with
        | String c' s'' =>
            if Ascii.eqb c' LF then String LF (replace_CR_NEWLINE s'')
            else String LF (replace_CR_NEWLINE s')
        | EmptyString => String LF EmptyString
        end
      else String c (replace_CR_NEWLINE s')
  end.

(** [source.replace(/\f/g, '')] *)
Fixpoint replace_FORMFEED (s : string) : string :=
  match s with
  | EmptyString => EmptyString
  | String c s' =>
      if Ascii.eqb c FF then replace_FORMFEED s' else String c (replace_FORMFEED s')
  end.

(** [source.replace(/\t/g, '    ')] *)
Fixpoint replace_TAB (s : string) : string :=
  match s with
  | EmptyString => EmptyString
  | String c s' =>
      if Ascii.eqb c TAB then "    " +:+ replace_TAB s' else String c (replace_TAB s')
  end.

Definition preprocess (source : string) : string :=
  replace_TAB (replace_FORMFEED (replace_CR_NEWLINE source)).

(** [populateInitialState]: every own property of [defaultState] is assigned
    onto the given state object. *)
Definition populateInitialState (givenState : option (gmap string Value))
    (defaultState : gmap string Value) : gmap string Value :=
  let state := match givenState with
               | Some s => s
               | None => ∅
               end in
  map_fold (fun prop v state => <[prop := v]> state) state defaultState.

(** The best match so far, its rule and its quality (the loop variables
    [ruleType], [rule], [capture] and [quality] of [nestedParse]). *)
Record Best := mkBest {
  ruleType : option string;
  rule : option ParserRule;
  capture : option Capture;
  bestQuality : float
}.

(** [let ruleType = null; let rule = null; let capture = null; let quality = NaN] *)
Definition noBest : Best := mkBest None None None nan.

(** [currRule.quality ? currRule.quality(currCapture, state) : 0] *)
Definition qualityOf (currRule : ParserRule) (currCapture : Capture)
    (state : gmap string Value) : float :=
  match quality currRule with
  | Some q => q currCapture state
  | None => 0%float
  end.

(** The body of the [do] loop for the rule [currRule]: consult its
    recognizer and keep its capture unless [currQuality <= quality].
    [currRuleType] is [ruleList[i]], which is [undefined] ([None]) past the
    end of the list. *)
Definition consult (currRuleType : option string) (currRule : ParserRule)
    (source : string) (state : gmap string Value) (b : Best) : Best :=
  match match' currRule source state with
  | Some currCapture =>
      let currQuality := qualityOf currRule currCapture state in
      if negb (PrimFloat.leb currQuality (bestQuality b))
      then mkBest currRuleType (Some currRule) (Some currCapture) currQuality
      else b
  | None => b
  end.

(** The outcome of the rule walk of one parse position: the best match and
    the final value of [i], or the TypeError of [currRule.match] when
    [currRule] has no such method, or a walk that has not ended when the fuel
    is spent, or one that leaves the model. *)
Inductive Walk :=
| WalkEnds (b : Best) (i : nat)
| WalkTypeError
| WalkUnmodelled
| WalkOutOfFuel.

(** The [do ... while] loop once [i] has passed the end of [ruleList]:
    [ruleList[i]] is [undefined], so [rules[ruleList[i]]] is
    [rules["undefined"]], the rule [currRule] of that name, at every further
    index.  Each iteration spends fuel. *)
Fixpoint undefinedLoop (source : string) (state : gmap string Value)
    (currRule : ParserRule) (fuel : nat) (i : nat) (b : Best) : Walk :=
  match fuel with
  | O => WalkOutOfFuel
  | S fuel' =>
      let b' := consult None currRule source state b in
      match capture b', quality currRule with
      | Some _, None => WalkEnds b' (S i)
      | _, _ => undefinedLoop source state currRule fuel' (S i) b'
      end
  end.

(** The guard of the loop when [i] has just passed the end of [ruleList]. *)
Definition pastEnd (rules : list (string * ParserRule)) (source : string)
    (state : gmap string Value) (fuel : nat) (i : nat) (b : Best) : Walk :=
  match getProperty rules "undefined" with
  | None => WalkEnds b i
  | Some nextRule =>
      match capture b, quality nextRule with
      | Some _, None => WalkEnds b i
      | _, _ => undefinedLoop source state nextRule fuel i b
      end
  end.

(** The guard of the loop when [rules] holds no rule under the next listed
    name: the loop ends when a capture is held (nothing [rules[k]] can be has
    a [quality]) or [rules[k]] is [undefined]; otherwise the next iteration
    calls [match] on a built-in that has none. *)
Definition ruleless (rules : list (string * ParserRule)) (nextRuleType : string)
    (i : nat) (b : Best) : Walk :=
  match capture b with
  | Some _ => WalkEnds b i
  | None =>
      match absent rules nextRuleType with
      | AbsentUndefined => WalkEnds b i
      | AbsentBuiltin => WalkTypeError
      | AbsentOther => WalkUnmodelled
      end
  end.

(** The [do ... while] loop from the rule [currRule] at index [i] on; [rest]
    is [ruleList] from index [i + 1].  It returns the best match and the final
    value of [i], the number of rules consulted. *)
Fixpoint ruleLoop (rules : list (string * ParserRule)) (source : string)
    (state : gmap string Value) (fuel : nat) (currRuleType : string)
    (currRule : ParserRule) (rest : list string) (i : nat) (b : Best) : Walk :=
  let b' := consult (Some currRuleType) currRule source state b in
  match rest with
  | [] => pastEnd rules source state fuel (S i) b'
  | nextRuleType :: rest' =>
      match getProperty rules nextRuleType with
      | None => ruleless rules nextRuleType (S i) b'
      | Some nextRule =>
          match capture b', quality nextRule with
          | Some _, None => WalkEnds b' (S i)
          | _, _ => ruleLoop rules source state fuel nextRuleType nextRule rest' (S i) b'
          end
      end
  end.

(** The rule walk of one parse position.  [ruleList[0]] of an empty list is
    [undefined], and [currRule.match] throws when [currRule] is. *)
Definition selectRule (rules : list (string * ParserRule)) (ruleList : list string)
    (fuel : nat) (source : string) (state : gmap string Value) : Walk :=
  match ruleList with
  | [] =>
      match getProperty rules "undefined" with
      | None => WalkTypeError
      | Some currRule => undefinedLoop source state currRule fuel 0 noBest
      end
  | currRuleType :: rest =>
      match getProperty rules currRuleType with
      | None =>
          match absent rules currRuleType with
          | AbsentOther => WalkUnmodelled
          | _ => WalkTypeError
          end
      | Some currRule => ruleLoop rules source state fuel currRuleType currRule rest 0 noBest
      end
  end.

(** The walk as long as it stays with the rules that [ruleList] names: the
    same loop, left when the guard fails, when a listed name has no rule, or
    when the list is exhausted.  It is the part of the walk that does not
    depend on what [rules] holds under other names. *)
Fixpoint listedLoop (rules : list (string * ParserRule)) (source : string)
    (state : gmap string Value) (currRuleType : string) (currRule : ParserRule)
    (rest : list string) (i : nat) (b : Best) : Best * nat :=
  let b' := consult (Some currRuleType) currRule source state b in
  match rest with
  | [] => (b', S i)
  | nextRuleType :: rest' =>
      match getProperty rules nextRuleType with
      | None => (b', S i)
      | Some nextRule =>
          match capture b', quality nextRule with
          | Some _, None => (b', S i)
          | _, _ => listedLoop rules source state nextRuleType nextRule rest' (S i) b'
          end
      end
  end.

Definition selectListed (rules : list (string * ParserRule)) (ruleList : list string)
    (source : string) (state : gmap string Value) : option (Best * nat) :=
  match ruleList with
  | [] => None
  | currRuleType :: rest =>
      match getProperty rules currRuleType with
      | None => None
      | Some currRule => Some (listedLoop rules source state currRuleType currRule rest 0 noBest)
      end
  end.

(** [!rule || !capture || !ruleType]: the winner, when all three are truthy
    (an empty rule name is not). *)
Definition winner (b : Best) : option (string * ParserRule * Capture) :=
  match rule b, capture b, ruleType b with
  | Some r, Some c, Some t => if String.eqb t "" then None else Some (t, r, c)
  | _, _, _ => None
  end.

(** [if (capture.index)]: the index is there and is truthy, a number other
    than 0 and [NaN]. *)
Definition unanchored (c : Capture) : bool :=
  match index c with
  | Some i => truthy (VNum i)
  | None => false
  end.

(** [v === 'text'] *)
Definition is_text (v : Value) : bool :=
  match v with
  | VStr s => String.eqb s "text"
  | _ => false
  end.

(** [result[result.length - 1]?.type === 'text'] *)
Definition last_is_text (result : list loc) (h : list (gmap string Value)) : bool :=
  match last result with
  | Some l =>
      match h !! l with
      | Some n => is_text (get n "type")
      | None => false
      end
  | None => false
  end.

(** Collapse text nodes: a text node after a text node is merged into it,
    any other node is pushed. *)
Definition collapse (result : list loc) (parsed : loc) : M (list loc) :=
  fun st =>
    match heap st !! parsed with
    | None => Throw TypeError
    | Some n =>
        if is_text (get n "type") && last_is_text result (heap st) then
          match last result with
          | Some l =>
              match heap st !! l with
              | Some prev =>
                  match js_add (get prev "content") (get n "content") with
                  | Some v => Done result (mkStore (state st) (<[l := <["content" := v]> prev]> (heap st)))
                  | None => Unmodelled
                  end
              | None => Throw TypeError
              end
          | None => Throw TypeError
          end
        else Done (result ++ [parsed]) st
    end.

(** [if (!parsed.type) parsed.type = ruleType] *)
Definition defaultType (parsed : loc) (ruleType : string) : M unit :=
  let* t := getField parsed "type" in
  if truthy t then ret tt else setField parsed "type" (VStr ruleType).

(** The rest of an iteration once a rule has won and its capture is anchored:
    build the node, default its type, collapse it into [result], record
    [state.prevCapture] and go on after the capture.  [loop] is the loop
    itself; the recursive parser handed to the builder starts it on an empty
    [result]. *)
Definition applyRule (loop : string -> list loc -> M (list loc))
    (ruleType : string) (rule : ParserRule) (capture : Capture)
    (source : string) (result : list loc) : M (list loc) :=
  let* parsed := parse rule capture (fun source' => loop source' []) in
  let* _ := defaultType parsed ruleType in
  let* result' := collapse result parsed in
  let* _ := setState "prevCapture" (VCapture capture) in
  match group capture 0 with
  | None => fun _ => Throw TypeError
  | Some matched => loop (substring_from (String.length matched) source) result'
  end.

(** The [while (source)] loop of [nestedParse], with [result] the nodes
    appended so far.  Each iteration and each recursive parse spends fuel. *)
Fixpoint nestedParseLoop (rules : list (string * ParserRule)) (ruleList : list string)
    (fuel : nat) (source : string) (result : list loc) {struct fuel} : M (list loc) :=
  fun st =>
    match source with
    | EmptyString => Done result st
    | String _ _ =>
        match fuel with
        | O => OutOfFuel
        | S fuel' =>
            match selectRule rules ruleList fuel' source (state st) with
            | WalkTypeError => Throw TypeError
            | WalkUnmodelled => Unmodelled
            | WalkOutOfFuel => OutOfFuel
            | WalkEnds best _ =>
                match winner best with
                | None => Throw (NoMatchingRule (last ruleList) source)
                | Some (ruleType, rule, capture) =>
                    if unanchored capture then Throw UnanchoredCapture
                    else applyRule (nestedParseLoop rules ruleList fuel')
                           ruleType rule capture source result st
                end
            end
        end
    end.

Definition nestedParse (rules : list (string * ParserRule)) (ruleList : list string)
    (fuel : nat) (source : string) : M (list loc) :=
  nestedParseLoop rules ruleList fuel source [].

(** [outerParse(source, state = { inline: false })], started on the node
    heap [h]. *)
Definition outerParse (rules : list (string * ParserRule)) (ruleList : list string)
    (defaultState : gmap string Value) (fuel : nat) (source : string)
    (state : option (gmap string Value)) (h : list (gmap string Value)) : Outcome (list loc) :=
  let state := match state with
               | Some s => s
               | None => {[ "inline" := VBool false ]}
               end in
  let latestState := populateInitialState (Some state) defaultState in
  let source :=
    if negb (truthy (get latestState "inline"))
       && negb (truthy (get latestState "disableAutoBlockNewlines"))
    then source +:+ String LF (String LF EmptyString)
    else source in
  let latestState := <["prevCapture" := VUndefined]> latestState in
  nestedParse rules ruleList fuel (preprocess source) (mkStore latestState h).

(** [createParser(ruleListInput, defaultState)] returns [outerParse]. *)
Definition createParser (ruleListInput : RuleList) (defaultState : gmap string Value) :=
  let rules := toRuleObject ruleListInput in
  let ruleList := Object_keys rules in
  outerParse rules ruleList defaultState.

(** ** Regular expressions ([RegExp])

    The recognizers of the default rules are JavaScript regular expressions.
    [regex] is their abstract syntax, [RegExp_parse] reads a pattern as it is
    written between the slashes of a literal, and [rmatch] is the backtracking
    matcher of the language specification (continuation passing, leftmost
    alternative first, greedy or lazy repetition with the empty-iteration
    check, captures reset at each iteration). *)

Inductive ClassItem :=
| CRange (lo hi : N)
| CDigit
| CSpace
| CWord
| CNot (item : ClassItem).

Inductive regex :=
| Empty
| Chars (negated : bool) (items : list ClassItem)
| Seq (r1 r2 : regex)
| Alt (r1 r2 : regex)
| Repeat (min : nat) (max : option nat) (greedy : bool) (r : regex)
| Group (i : nat) (r : regex)
| Backref (i : nat)
| Lookahead (negated : bool) (r : regex)
| AssertStart
| AssertEnd
| WordBoundary (negated : bool).

Record RegExp := mkRegExp {
  pattern : regex;
  nGroups : nat;
  global : bool;
  ignoreCase : bool;
  multiline : bool
}.

(** *** Reading a pattern *)

Definition hex_digit (c : ascii) : option N :=
  let n := N_of_ascii c in
  if (48 <=? n)%N && (n <=? 57)%N then Some (n - 48)%N
  else if (97 <=? n)%N && (n <=? 102)%N then Some (n - 87)%N
  else if (65 <=? n)%N && (n <=? 70)%N then Some (n - 55)%N
  else None.

Fixpoint hex_value (k : nat) (s : string) (acc : N) : option (N * string) :=
  match k with
  | O => Some (acc, s)
  | S k' =>
      match s with
      | String c s' =>
          match hex_digit c with
          | Some d => hex_value k' s' (acc * 16 + d)%N
          | None => None
          end
      | EmptyString => None
      end
  end.

Fixpoint decimal_value (s : string) (acc : nat) : nat * string :=
  match s with
  | String c s' =>
      if is_digit c then decimal_value s' (acc * 10 + (nat_of_ascii c - 48)) else (acc, s)
  | EmptyString => (acc, s)
  end.

(** What follows a backslash. *)
Inductive Escape :=
| EChar (code : N)
| EClass (item : ClassItem)
| EBackref (i : nat)
| EBoundary (negated : bool).

Definition parse_escape (in_class : bool) (s : string) : option (Escape * string) :=
  match s with
  | EmptyString => None
  | String c s' =>
      if Ascii.eqb c "d" then Some (EClass CDigit, s')
      else if Ascii.eqb c "D" then Some (EClass (CNot CDigit), s')
      else if Ascii.eqb c "s" then Some (EClass CSpace, s')
      else if Ascii.eqb c "S" then Some (EClass (CNot CSpace), s')
      else if Ascii.eqb c "w" then Some (EClass CWord, s')
      else if Ascii.eqb c "W" then Some (EClass (CNot CWord), s')
      else if Ascii.eqb c "n" then Some (EChar 10, s')
      else if Ascii.eqb c "r" then Some (EChar 13, s')
      else if Ascii.eqb c "t" then Some (EChar 9, s')
      else if Ascii.eqb c "f" then Some (EChar 12, s')
      else if Ascii.eqb c "v" then Some (EChar 11, s')
      else if Ascii.eqb c "0" then Some (EChar 0, s')
      else if Ascii.eqb c "b" then
        Some (if in_class then EChar 8 else EBoundary false, s')
      else if Ascii.eqb c "B" && negb in_class then Some (EBoundary true, s')
      else if Ascii.eqb c "x" then
        match hex_value 2 s' 0 with
        | Some (n, s'') => Some (EChar n, s'')
        | None => Some (EChar (N_of_ascii c), s')
        end
      else if Ascii.eqb c "u" then
        match hex_value 4 s' 0 with
        | Some (n, s'') => Some (EChar n, s'')
        | None => Some (EChar (N_of_ascii c), s')
        end
      else if is_digit c && negb in_class then Some (EBackref (nat_of_ascii c - 48), s')
      else Some (EChar (N_of_ascii c), s')
  end.

(** One atom of a character class. *)
Definition parse_class_atom (s : string) : option (Escape * string) :=
  match s with
  | EmptyString => None
  | String c s' =>
      if Ascii.eqb c "\" then parse_escape true s' else Some (EChar (N_of_ascii c), s')
  end.

(** The items of a class, up to the closing bracket. *)
Fixpoint parse_class_items (fuel : nat) (s : string) : option (list ClassItem * string) :=
  match fuel with
  | O => None
  | S fuel' =>
      match s with
      | EmptyString => None
      | String c s' =>
          if Ascii.eqb c "]" then Some ([], s')
          else
            match parse_class_atom s with
            | Some (EChar lo, String d (String e s2 as s1)) =>
                if Ascii.eqb d "-" && negb (Ascii.eqb e "]") then
                  match parse_class_atom s1 with
                  | Some (EChar hi, s3) =>
                      match parse_class_items fuel' s3 with
                      | Some (items, s4) => Some (CRange lo hi :: items, s4)
                      | None => None
                      end
                  | _ => None
                  end
                else
                  match parse_class_items fuel' (String d s1) with
                  | Some (items, s4) => Some (CRange lo lo :: items, s4)
                  | None => None
                  end
            | Some (EChar lo, s1) =>
                match parse_class_items fuel' s1 with
                | Some (items, s4) => Some (CRange lo lo :: items, s4)
                | None => None
                end
            | Some (EClass item, s1) =>
                match parse_class_items fuel' s1 with
                | Some (items, s4) => Some (item :: items, s4)
                | None => None
                end
            | _ => None
            end
      end
  end.

(** A quantifier after an atom: bounds and greediness. *)
Definition parse_lazy (s : string) : bool * string :=
  match s with
  | String c s' => if Ascii.eqb c "?" then (false, s') else (true, s)
  | EmptyString => (true, s)
  end.

Definition parse_braces (s : string) : option (nat * option nat * string) :=
  match s with
  | String c _ =>
      if is_digit c then
        match decimal_value s 0 with
        | (lo, String d s1) =>
            if Ascii.eqb d "}" then Some (lo, Some lo, s1)
            else if Ascii.eqb d "," then
              match s1 with
              | String e s2 =>
                  if Ascii.eqb e "}" then Some (lo, None, s2)
                  else if is_digit e then
                    match decimal_value s1 0 with
                    | (hi, String f s3) => if Ascii.eqb f "}" then Some (lo, Some hi, s3) else None
                    | _ => None
                    end
                  else None
              | EmptyString => None
              end
            else None
        | _ => None
        end
      else None
  | EmptyString => None
  end.

Definition parse_quantifier (r : regex) (s : string) : regex * string :=
  match s with
  | String c s' =>
      if Ascii.eqb c "*" then
        let '(g, s'') := parse_lazy s' in (Repeat 0 None g r, s'')
      else if Ascii.eqb c "+" then
        let '(g, s'') := parse_lazy s' in (Repeat 1 None g r, s'')
      else if Ascii.eqb c "?" then
        let '(g, s'') := parse_lazy s' in (Repeat 0 (Some 1) g r, s'')
      else if Ascii.eqb c "{" then
        match parse_braces s' with
        | Some (lo, hi, s1) => let '(g, s'') := parse_lazy s1 in (Repeat lo hi g r, s'')
        | None => (r, s)
        end
      else (r, s)
  | EmptyString => (r, s)
  end.

(** [.]: any character but a line terminator. *)
Definition dot : regex := Chars true [CRange 10 10; CRange 13 13; CRange 8232 8233].

(** Disjunction, alternative and term; [g] counts the capturing groups opened
    so far. *)
Fixpoint parse_disjunction (fuel : nat) (s : string) (g : nat) : option (regex * string * nat) :=
  match fuel with
  | O => None
  | S fuel' =>
      match parse_alternative fuel' s g with
      | Some (r1, String c s1, g1) =>
          if Ascii.eqb c "|" then
            match parse_disjunction fuel' s1 g1 with
            | Some (r2, s2, g2) => Some (Alt r1 r2, s2, g2)
            | None => None
            end
          else Some (r1, String c s1, g1)
      | other => other
      end
  end
with parse_alternative (fuel : nat) (s : string) (g : nat) : option (regex * string * nat) :=
  match fuel with
  | O => None
  | S fuel' =>
      match s with
      | EmptyString => Some (Empty, s, g)
      | String c _ =>
          if Ascii.eqb c "|" || Ascii.eqb c ")" then Some (Empty, s, g)
          else
            match parse_term fuel' s g with
            | Some (r1, s1, g1) =>
                match parse_alternative fuel' s1 g1 with
                | Some (Empty, s2, g2) => Some (r1, s2, g2)
                | Some (r2, s2, g2) => Some (Seq r1 r2, s2, g2)
                | None => None
                end
            | None => None
            end
      end
  end
with parse_term (fuel : nat) (s : string) (g : nat) : option (regex * string * nat) :=
  match fuel with
  | O => None
  | S fuel' =>
      match s with
      | EmptyString => None
      | String c s' =>
          if Ascii.eqb c "^" then Some (AssertStart, s', g)
          else if Ascii.eqb c "$" then Some (AssertEnd, s', g)
          else if Ascii.eqb c "." then
            let '(r, s1) := parse_quantifier dot s' in Some (r, s1, g)
          else if Ascii.eqb c "\" then
            match parse_escape false s' with
            | Some (EChar n, s1) =>
                let '(r, s2) := parse_quantifier (Chars false [CRange n n]) s1 in Some (r, s2, g)
            | Some (EClass item, s1) =>
                let '(r, s2) := parse_quantifier (Chars false [item]) s1 in Some (r, s2, g)
            | Some (EBackref i, s1) =>
                let '(r, s2) := parse_quantifier (Backref i) s1 in Some (r, s2, g)
            | Some (EBoundary neg, s1) => Some (WordBoundary neg, s1, g)
            | None => None
            end
          else if Ascii.eqb c "[" then
            let '(neg, s1) := match s' with
                              | String d s1 => if Ascii.eqb d "^" then (true, s1) else (false, s')
                              | EmptyString => (false, s')
                              end in
            match parse_class_items (S (String.length s1)) s1 with
            | Some (items, s2) =>
                let '(r, s3) := parse_quantifier (Chars neg items) s2 in Some (r, s3, g)
            | None => None
            end
          else if Ascii.eqb c "(" then
            match s' with
            | String "?" (String d s1) =>
                if Ascii.eqb d ":" then
                  match parse_disjunction fuel' s1 g with
                  | Some (r, String e s2, g1) =>
                      if Ascii.eqb e ")" then
                        let '(r', s3) := parse_quantifier r s2 in Some (r', s3, g1)
                      else None
                  | _ => None
                  end
                else if Ascii.eqb d "=" || Ascii.eqb d "!" then
                  match parse_disjunction fuel' s1 g with
                  | Some (r, String e s2, g1) =>
                      if Ascii.eqb e ")" then
                        let '(r', s3) := parse_quantifier (Lookahead (Ascii.eqb d "!") r) s2 in
                        Some (r', s3, g1)
                      else None
                  | _ => None
                  end
                else None
            | _ =>
                match parse_disjunction fuel' s' (S g) with
                | Some (r, String e s2, g1) =>
                    if Ascii.eqb e ")" then
                      let '(r', s3) := parse_quantifier (Group (S g) r) s2 in Some (r', s3, g1)
                    else None
                | _ => None
                end
            end
          else
            let '(r, s1) := parse_quantifier (Chars false [CRange (N_of_ascii c) (N_of_ascii c)]) s' in
            Some (r, s1, g)
      end
  end.

(** A pattern that does not parse stands for a regular expression that never
    matches (the patterns of this development all parse). *)
Definition unmatchable : regex := Chars false [].

Definition RegExp_parse (source : string) : regex * nat :=
  match parse_disjunction (3 * String.length source + 3) source 0 with
  | Some (r, EmptyString, g) => (r, g)
  | _ => (unmatchable, 0)
  end.

(** [new RegExp(source, flags)], with [flags] among ["g"], ["i"] and ["m"]. *)
Fixpoint has_flag (f : ascii) (flags : string) : bool :=
  match flags with
  | EmptyString => false
  | String c flags' => Ascii.eqb c f || has_flag f flags'
  end.

Definition newRegExp (source flags : string) : RegExp :=
  let '(r, g) := RegExp_parse source in
  mkRegExp r g (has_flag "g" flags) (has_flag "i" flags) (has_flag "m" flags).

(** *** Matching *)

Definition is_line_terminator (c : ascii) : bool :=
  Ascii.eqb c LF || Ascii.eqb c CR.

Definition is_word_char (c : ascii) : bool :=
  let n := N_of_ascii c in
  ((97 <=? n)%N && (n <=? 122)%N) || ((65 <=? n)%N && (n <=? 90)%N)
  || ((48 <=? n)%N && (n <=? 57)%N) || (n =? 95)%N.

(** White space and line terminators among the first 256 code units. *)
Definition is_space (c : ascii) : bool :=
  let n := N_of_ascii c in
  ((9 <=? n)%N && (n <=? 13)%N) || (n =? 32)%N || (n =? 160)%N.

Fixpoint in_item (item : ClassItem) (c : ascii) : bool :=
  match item with
  | CRange lo hi => (lo <=? N_of_ascii c)%N && (N_of_ascii c <=? hi)%N
  | CDigit => is_digit c
  | CSpace => is_space c
  | CWord => is_word_char c
  | CNot item' => negb (in_item item' c)
  end.

(** The letters among the first 256 code units that have another case
    there: [A-Z] and U+00C0 to U+00DE without the multiplication sign, with
    the lower case 32 code units above. *)
Definition is_upper (n : N) : bool :=
  ((65 <=? n)%N && (n <=? 90)%N)
  || ((192 <=? n)%N && (n <=? 222)%N && negb (n =? 215)%N).

Definition is_lower (n : N) : bool :=
  ((97 <=? n)%N && (n <=? 122)%N)
  || ((224 <=? n)%N && (n <=? 254)%N && negb (n =? 247)%N).

(** The other case of a letter, for the [i] flag. *)
Definition swap_case (c : ascii) : ascii :=
  let n := N_of_ascii c in
  if is_lower n then ascii_of_N (n - 32)
  else if is_upper n then ascii_of_N (n + 32)
  else c.

Definition in_class (ignoreCase : bool) (items : list ClassItem) (c : ascii) : bool :=
  existsb (fun item => in_item item c || (ignoreCase && in_item item (swap_case c))) items.

(** The matcher's state: the character before the position, the input from
    the position on, the position, and the captures so far. *)
Record MatchState := mkMatchState {
  before : option ascii;
  rest : string;
  endIndex : nat;
  captures : list (option string)
}.

(** [s.substring(0, n)] *)
Fixpoint string_take (n : nat) (s : string) : string :=
  match n, s with
  | S n', String c s' => String c (string_take n' s')
  | _, _ => EmptyString
  end.

(** The state after reading the [n] next characters. *)
Fixpoint advance (n : nat) (x : MatchState) : MatchState :=
  match n with
  | O => x
  | S n' =>
      match rest x with
      | String c s' => advance n' (mkMatchState (Some c) s' (S (endIndex x)) (captures x))
      | EmptyString => x
      end
  end.

Fixpoint groups_in (r : regex) : list nat :=
  match r with
  | Seq r1 r2 | Alt r1 r2 => groups_in r1 ++ groups_in r2
  | Repeat _ _ _ r1 | Lookahead _ r1 => groups_in r1
  | Group i r1 => i :: groups_in r1
  | _ => []
  end.

Definition clear_captures (gs : list nat) (x : MatchState) : MatchState :=
  mkMatchState (before x) (rest x) (endIndex x)
    (fold_left (fun caps i => <[i := None]> caps) gs (captures x)).

Definition word_before (x : MatchState) : bool :=
  match before x with
  | Some c => is_word_char c
  | None => false
  end.

Definition word_after (x : MatchState) : bool :=
  match rest x with
  | String c _ => is_word_char c
  | EmptyString => false
  end.

(** The matcher of [r] at [x] with continuation [c].  A repetition runs at
    most as many iterations as it has mandatory ones left plus characters to
    read, since an optional iteration must read at least one. *)
Fixpoint rmatch (ignoreCase multiline : bool) (r : regex) (x : MatchState)
    (c : MatchState -> option MatchState) {struct r} : option MatchState :=
  match r with
  | Empty => c x
  | Chars negated items =>
      match rest x with
      | String ch s' =>
          if xorb negated (in_class ignoreCase items ch)
          then c (mkMatchState (Some ch) s' (S (endIndex x)) (captures x))
          else None
      | EmptyString => None
      end
  | Seq r1 r2 =>
      rmatch ignoreCase multiline r1 x (fun y => rmatch ignoreCase multiline r2 y c)
  | Alt r1 r2 =>
      match rmatch ignoreCase multiline r1 x c with
      | Some z => Some z
      | None => rmatch ignoreCase multiline r2 x c
      end
  | Repeat min max greedy r1 =>
      (fix repeat (n min : nat) (max : option nat) (x : MatchState) {struct n}
         : option MatchState :=
         match n with
         | O => None
         | S n' =>
             match max with
             | Some O => c x
             | _ =>
                 let d := fun y =>
                   if Nat.eqb min 0 && Nat.eqb (endIndex y) (endIndex x) then None
                   else repeat n' (pred min) (option_map pred max) y in
                 let xr := clear_captures (groups_in r1) x in
                 if Nat.ltb 0 min then rmatch ignoreCase multiline r1 xr d
                 else if greedy then
                   match rmatch ignoreCase multiline r1 xr d with
                   | Some z => Some z
                   | None => c x
                   end
                 else
                   match c x with
                   | Some z => Some z
                   | None => rmatch ignoreCase multiline r1 xr d
                   end
             end
         end) (String.length (rest x) + min + 1) min max x
  | Group i r1 =>
      rmatch ignoreCase multiline r1 x
        (fun y => c (mkMatchState (before y) (rest y) (endIndex y)
                       (<[i := Some (string_take (endIndex y - endIndex x) (rest x))]>
                          (captures y))))
  | Backref i =>
      match captures x !! i with
      | Some (Some s) =>
          if String.prefix s (rest x) then c (advance (String.length s) x) else None
      | _ => c x
      end
  | Lookahead negated r1 =>
      match rmatch ignoreCase multiline r1 x Some with
      | Some y =>
          if negated then None
          else c (mkMatchState (before x) (rest x) (endIndex x) (captures y))
      | None => if negated then c x else None
      end
  | AssertStart =>
      match before x with
      | None => c x
      | Some ch => if multiline && is_line_terminator ch then c x else None
      end
  | AssertEnd =>
      match rest x with
      | EmptyString => c x
      | String ch _ => if multiline && is_line_terminator ch then c x else None
      end
  | WordBoundary negated =>
      if xorb negated (xorb (word_before x) (word_after x)) then c x else None
  end.

(** One attempt at the position of [x]: the match array and where it ends. *)
Definition match_at (re : RegExp) (before : option ascii) (s : string) (i : nat)
    : option (Capture * nat) :=
  match rmatch (ignoreCase re) (multiline re) (pattern re)
          (mkMatchState before s i (replicate (S (nGroups re)) None)) Some with
  | Some y =>
      Some (mkCapture (Some (string_take (endIndex y - i) s) :: tail (captures y))
              (Some (number (Z.of_nat i))),
            endIndex y - i)
  | None => None
  end.

(** The search of [exec]: the first position from [i] on where the pattern
    matches. *)
Fixpoint exec_from (re : RegExp) (before : option ascii) (s : string) (i : nat)
    : option Capture :=
  match match_at re before s i with
  | Some (capture, _) => Some capture
  | None =>
      match s with
      | String c s' => exec_from re (Some c) s' (S i)
      | EmptyString => None
      end
  end.

(** [re.exec(s)] for a regular expression whose [lastIndex] is 0 (none of the
    expressions handed to [exec] is global). *)
Definition exec (re : RegExp) (s : string) : option Capture := exec_from re None s 0.

(** [re.test(s)] *)
Definition test (re : RegExp) (s : string) : bool :=
  match exec re s with
  | Some _ => true
  | None => false
  end.

(** The expansion of a replacement text: [$1] to [$9], [$&] and [$$]. *)
Fixpoint substitution (replacement : string) (capture : Capture) : string :=
  match replacement with
  | String c r1 =>
      if Ascii.eqb c "$" then
        match r1 with
        | String d r' =>
            if Ascii.eqb d "$" then String "$" (substitution r' capture)
            else if Ascii.eqb d "&" then opt_string (group capture 0) +:+ substitution r' capture
            else if is_digit d && negb (Ascii.eqb d "0")
                    && Nat.ltb (nat_of_ascii d - 48) (length (groups capture)) then
              opt_string (group capture (nat_of_ascii d - 48)) +:+ substitution r' capture
            else String c (substitution r1 capture)
        | EmptyString => String c EmptyString
        end
      else String c (substitution r1 capture)
  | EmptyString => EmptyString
  end.

(** The scan behind [replace] and [match]: at each position outside a match
    the pattern is tried; a match is handed to [on_match], then skipped (an
    empty match moves on by one character); other characters go to
    [on_char].  [all] is the [g] flag: without it the scan stops trying after
    the first match. *)
Fixpoint scan {A} (re : RegExp) (all : bool) (on_match : Capture -> A -> A)
    (on_char : ascii -> A -> A) (nil : A)
    (before : option ascii) (s : string) (i skip : nat) (trying : bool) : A :=
  match skip with
  | S skip' =>
      match s with
      | String c s' => scan re all on_match on_char nil (Some c) s' (S i) skip' trying
      | EmptyString => nil
      end
  | O =>
      match (if trying then match_at re before s i else None) with
      | Some (capture, len) =>
          on_match capture
            match s with
            | String c s' =>
                match len with
                | O => on_char c (scan re all on_match on_char nil (Some c) s' (S i) 0 all)
                | S len' => scan re all on_match on_char nil (Some c) s' (S i) len' all
                end
            | EmptyString => nil
            end
      | None =>
          match s with
          | String c s' => on_char c (scan re all on_match on_char nil (Some c) s' (S i) 0 trying)
          | EmptyString => nil
          end
      end
  end.

(** [s.replace(re, replacement)] *)
Definition replace (re : RegExp) (replacement : string) (s : string) : string :=
  scan re (global re) (fun capture out => substitution replacement capture +:+ out)
    (fun c out => String c out) EmptyString None s 0 0 true.

(** [s.match(re)] for a global [re]: every matched text, or [null]. *)
Definition match_all (re : RegExp) (s : string) : option (list string) :=
  match scan re true (fun capture out => opt_string (group capture 0) :: out)
          (fun _ out => out) [] None s 0 0 true with
  | [] => None
  | l => Some l
  end.

(** [s.trim()] *)
Fixpoint trim_start (s : string) : string :=
  match s with
  | String c s' => if is_space c then trim_start s' else s
  | EmptyString => EmptyString
  end.

Fixpoint string_rev (s acc : string) : string :=
  match s with
  | String c s' => string_rev s' (String c acc)
  | EmptyString => acc
  end.

Definition trim (s : string) : string :=
  string_rev (trim_start (string_rev (trim_start s) EmptyString)) EmptyString.

(** [s.split(sep)] for a one-character separator. *)
Fixpoint split_on (sep : ascii) (s : string) (cur : string) : list string :=
  match s with
  | String c s' =>
      if Ascii.eqb c sep then string_rev cur EmptyString :: split_on sep s' EmptyString
      else split_on sep s' (String c cur)
  | EmptyString => [string_rev cur EmptyString]
  end.

Definition split (sep : ascii) (s : string) : list string := split_on sep s EmptyString.

(** What [toLowerCase] makes of one code unit. *)
Definition lowerChar (c : ascii) : ascii :=
  let n := N_of_ascii c in
  if is_upper n then ascii_of_N (n + 32) else c.

(** [s.toLowerCase()] *)
Fixpoint toLowerCase (s : string) : string :=
  match s with
  | String c s' => String (lowerChar c) (toLowerCase s')
  | EmptyString => EmptyString
  end.

(** [s.indexOf(t) !== -1] *)
Fixpoint includes (t : string) (s : string) : bool :=
  String.prefix t s
  || match s with
     | String _ s' => includes t s'
     | EmptyString => false
     end.

(** ** Utilities ([utilities.ts]) *)

(** Creates a match function for an inline scoped element from a regex. *)
Definition inlineRegex (regex : RegExp) : string -> gmap string Value -> option Capture :=
  fun source state => if truthy (get state "inline") then exec regex source else None.

(** Creates a match function for a block scoped element from a regex. *)
Definition blockRegex (regex : RegExp) : string -> gmap string Value -> option Capture :=
  fun source state => if truthy (get state "inline") then None else exec regex source.

(** Creates a match function from a regex, ignoring block/inline scope. *)
Definition anyScopeRegex (regex : RegExp) : string -> gmap string Value -> option Capture :=
  fun source _ => exec regex source.

Definition UNESCAPE_URL_R : RegExp := newRegExp "\\([^0-9A-Za-z\s])" "g".

Definition unescapeUrl (rawUrlString : string) : string :=
  replace UNESCAPE_URL_R "$1" rawUrlString.

(** [a || b] *)
Definition js_or (a b : Value) : Value := if truthy a then a else b.

(** [parse(content, state)] where [content] may be [undefined]: the loop
    [while (source)] does not start and the result is an empty array. *)
Definition parseContent (parse : string -> M (list loc)) (content : option string)
    : M (list loc) :=
  match content with
  | Some source => parse source
  | None => ret []
  end.

(** Parse some content with state.inline set to true. *)
Definition parseInline (parse : string -> M (list loc)) (content : option string)
    : M (list loc) :=
  let* state := getState in
  let isCurrentlyInline := js_or (get state "inline") (VBool false) in
  let* _ := setState "inline" (VBool true) in
  let* result := parseContent parse content in
  let* _ := setState "inline" isCurrentlyInline in
  ret result.

Definition parseBlock (parse : string -> M (list loc)) (content : string) : M (list loc) :=
  let* state := getState in
  let isCurrentlyInline := js_or (get state "inline") (VBool false) in
  let* _ := setState "inline" (VBool false) in
  let* result := parse (content +:+ String LF (String LF EmptyString)) in
  let* _ := setState "inline" isCurrentlyInline in
  ret result.

(** The array of the nodes at [ls]. *)
Definition nodes (ls : list loc) : Value := VArr (map VNode ls).

(** A string or [undefined]. *)
Definition str (o : option string) : Value :=
  match o with
  | Some s => VStr s
  | None => VUndefined
  end.

(** An object literal. *)
Definition object (props : list (string * Value)) : gmap string Value := list_to_map props.

Definition parseCaptureInline (capture : Capture) (parse : string -> M (list loc)) : M loc :=
  let* content := parseInline parse (group capture 1) in
  alloc (object [("content", nodes content)]).

Definition ignoreCapture (_ : Capture) (_ : string -> M (list loc)) : M loc :=
  alloc (object []).

(** A value that must be a string to go on ([undefined.length] and the like
    throw). *)
Definition must {A} (o : option A) : M A :=
  match o with
  | Some a => ret a
  | None => throw TypeError
  end.

(** [v.target] and [v.title] on a value that is not [undefined], [null] or a
    node: [k] is one of these two names, which no prototype provides. *)
Definition getProp (v : Value) (k : string) : Value :=
  match v with
  | VObj o => get o k
  | _ => VUndefined
  end.

(** [o[k]] on a plain object, for a computed name [k]: a property of the
    object's own, or one it inherits from [Object.prototype] (a built-in
    function, or under ["__proto__"] the prototype itself), or nothing.  What
    is inherited is truthy, is no array, and has no [target], [title], [push]
    or [forEach]. *)
Inductive Property :=
| Own (v : Value)
| Inherited
| Missing.

Definition property (o : gmap string Value) (k : string) : Property :=
  match o !! k with
  | Some v => Own v
  | None => if inherited k then Inherited else Missing
  end.

(** ** The default rules ([default-rules.ts])

    Patterns are written as in the source, with [\x22] standing for the
    double quote.  Where the source builds a pattern from string literals, a
    line feed inside a literal is written [\n] here. *)

Definition mapM {A B} (f : A -> M B) : list A -> M (list B) :=
  fix go (l : list A) : M (list B) :=
    match l with
    | [] => ret []
    | a :: l' =>
        let* b := f a in
        let* bs := go l' in
        ret (b :: bs)
    end.

(** recognize a `*` `-`, `+`, `1.`, `2.`... list bullet *)
Definition LIST_BULLET : string := "(?:[*+-]|\d+\.)".

(** recognize the start of a list item: leading space plus a bullet plus a
    space *)
Definition LIST_ITEM_PREFIX : string := "( *)(" +:+ LIST_BULLET +:+ ") +".
Definition LIST_ITEM_PREFIX_R : RegExp := newRegExp ("^" +:+ LIST_ITEM_PREFIX) "".

(** recognize an individual list item *)
Definition LIST_ITEM_R : RegExp :=
  newRegExp
    (LIST_ITEM_PREFIX +:+ "[^\n]*(?:\n" +:+ "(?!\1" +:+ LIST_BULLET +:+ " )[^\n]*)*(\n|$)")
    "gm".
Definition BLOCK_END_R : RegExp := newRegExp "\n{2,}$" "".
Definition INLINE_CODE_ESCAPE_BACKTICKS_R : RegExp := newRegExp "^ (?= *`)|(` *) $" "g".

(** recognize the end of a paragraph block inside a list item: two or more
    newlines at end end of the item *)
Definition LIST_BLOCK_END_R : RegExp := BLOCK_END_R.
Definition LIST_ITEM_END_R : RegExp := newRegExp " *\n+$" "".

(** check whether a list item has paragraphs: if it does, we leave the
    newlines at the end *)
Definition LIST_R : RegExp :=
  newRegExp
    ("^( *)(" +:+ LIST_BULLET +:+ ") " +:+ "[\s\S]+?(?:\n{2,}(?! )" +:+ "(?!\1"
     +:+ LIST_BULLET +:+ " )\n*" +:+ "|\s*\n*$)")
    "".
Definition LIST_LOOKBEHIND_R : RegExp := newRegExp "(?:^|\n)( *)$" "".

(** *** Tables *)

Definition TABLE_ROW_SEPARATOR_TRIM : RegExp := newRegExp "^ *\| *| *\| *$" "g".
Definition TABLE_CELL_END_TRIM : RegExp := newRegExp " *$" "".
Definition TABLE_RIGHT_ALIGN : RegExp := newRegExp "^ *-+: *$" "".
Definition TABLE_CENTER_ALIGN : RegExp := newRegExp "^ *:-+: *$" "".
Definition TABLE_LEFT_ALIGN : RegExp := newRegExp "^ *:-+ *$" "".

Definition parseTableAlignCapture (alignCapture : string) : Value :=
  if test TABLE_RIGHT_ALIGN alignCapture then VStr "right"
  else if test TABLE_CENTER_ALIGN alignCapture then VStr "center"
  else if test TABLE_LEFT_ALIGN alignCapture then VStr "left"
  else VNull.

Definition parseTableAlign (source : string) (trimEndSeparators : bool) : Value :=
  let source := if trimEndSeparators then replace TABLE_ROW_SEPARATOR_TRIM "" source
                else source in
  let alignText := split "|" (trim source) in
  VArr (map parseTableAlignCapture alignText).

(** [v === 'tableSeparator'] *)
Definition is_tableSeparator (v : Value) : bool :=
  match v with
  | VStr s => String.eqb s "tableSeparator"
  | _ => false
  end.

(** [cells[cells.length - 1].push(node)] *)
Definition push_last (cells : list (list loc)) (node : loc) : list (list loc) :=
  match last cells with
  | Some cell => take (length cells - 1) cells ++ [cell ++ [node]]
  | None => cells
  end.

(** The [forEach] of [parseTableRow] from index [i] on: [row] is what is
    left of [tableRow], [len] its full length. *)
Fixpoint tableRowCells (trimEndSeparators : bool) (len i : nat) (row : list loc)
    (cells : list (list loc)) : M (list (list loc)) :=
  match row with
  | [] => ret cells
  | node :: row' =>
      let* type := getField node "type" in
      if is_tableSeparator type then
        (* Filter out empty table separators at the start/end: *)
        if negb trimEndSeparators || (negb (Nat.eqb i 0) && negb (Nat.eqb i (len - 1)))
        then tableRowCells trimEndSeparators len (S i) row' (cells ++ [[]])
        else tableRowCells trimEndSeparators len (S i) row' cells
      else
        let* content := getField node "content" in
        let* _ :=
          match content with
          | VStr s =>
              let* atEnd :=
                match row' with
                | [] => ret true
                | next :: _ =>
                    let* nextType := getField next "type" in
                    ret (is_tableSeparator nextType)
                end in
              if atEnd
              then setField node "content" (VStr (replace TABLE_CELL_END_TRIM "" s))
              else ret tt
          | _ => ret tt
          end in
        tableRowCells trimEndSeparators len (S i) row' (push_last cells node)
  end.

Definition parseTableRow (source : string) (parse : string -> M (list loc))
    (trimEndSeparators : bool) : M (list (list loc)) :=
  let* state := getState in
  let prevInTable := get state "inTable" in
  let* _ := setState "inTable" (VBool true) in
  let* tableRow := parse (trim source) in
  let* _ := setState "inTable" prevInTable in
  tableRowCells trimEndSeparators (length tableRow) 0 tableRow [[]].

Definition parseTableCells (source : string) (parse : string -> M (list loc))
    (trimEndSeparators : bool) : M (list (list (list loc))) :=
  let rowsText := split LF (trim source) in
  mapM (fun rowText => parseTableRow rowText parse trimEndSeparators) rowsText.

Definition parseTable (trimEndSeparators : bool) (capture : Capture)
    (parse : string -> M (list loc)) : M loc :=
  let* _ := setState "inline" (VBool true) in
  let* capture1 := must (group capture 1) in
  let* header := parseTableRow capture1 parse trimEndSeparators in
  let* capture2 := must (group capture 2) in
  let align := parseTableAlign capture2 trimEndSeparators in
  let* capture3 := must (group capture 3) in
  let* cells := parseTableCells capture3 parse trimEndSeparators in
  let* _ := setState "inline" (VBool false) in
  alloc (object [("type", VStr "table");
                 ("header", VArr (map nodes header));
                 ("align", align);
                 ("cells", VArr (map (fun row => VArr (map nodes row)) cells))]).

Definition TABLE_REGEX : RegExp :=
  newRegExp "^ *(\|.+)\n *\|( *[-:]+[-| :]*)\n((?: *\|.*(?:\n|$))*)\n*" "".
Definition NPTABLE_REGEX : RegExp :=
  newRegExp "^ *(\S.*\|.*)\n *([-:]+ *\|[-| :]*)\n((?:.*\|.*(?:\n|$))*)\n*" "".

(** *** Links and references *)

Definition LINK_INSIDE : string := "(?:\[[^\]]*\]|[^\[\]]|\](?=[^\[]*\]))*".
Definition LINK_HREF_AND_TITLE : string :=
  "\s*<?((?:\([^)]*\)|[^\s\\]|\\.)*?)>?(?:\s+['\x22]([\s\S]*?)['\x22])?\s*".
Definition AUTOLINK_MAILTO_CHECK_R : RegExp := newRegExp "mailto:" "i".

Definition WHITESPACE_R : RegExp := newRegExp "\s+" "g".

(** [state[table] = state[table] || {}; state[table][key] = v], for an object
    [v].  Assigning to ["__proto__"], unless the table has a property of its
    own under that name, replaces the prototype of the table, and a table
    that is not a plain object is a value of the caller's: the model follows
    neither. *)
Definition setEntry (table key : string) (v : Value) : M unit :=
  let* state := getState in
  match js_or (get state table) (VObj ∅) with
  | VObj o =>
      match property o key with
      | Inherited => if String.eqb key "__proto__" then unmodelled
                     else setState table (VObj (<[key := v]> o))
      | _ => setState table (VObj (<[key := v]> o))
      end
  | _ => unmodelled
  end.

(** [s.replace(/\s+/g, ' ').toLowerCase()]: the name under which references
    and definitions meet. *)
Definition normalizeName (s : string) : string :=
  toLowerCase (replace WHITESPACE_R " " s).

(** [(capture[2] || capture[1]).replace(/\s+/g, ' ').toLowerCase()], when
    one of the two groups is a string. *)
Definition refName (capture : Capture) : option string :=
  option_map normalizeName
    match group capture 2 with
    | Some EmptyString | None => group capture 1
    | Some s => Some s
    end.

(** The first half of [parseRef]: if the def for this reflink/refimage has
    already been seen, we can use its target/source and title here. *)
Definition useDef (ref : string) (refNode : loc) : M unit :=
  let* state := getState in
  match get state "_defs" with
  | VObj defs =>
      match property defs ref with
      | Own def =>
          if truthy def then
            match def with
            | VNode _ => unmodelled
            | _ =>
                let* _ := setField refNode "target" (getProp def "target") in
                setField refNode "title" (getProp def "title")
            end
          else ret tt
      | Inherited =>
          let* _ := setField refNode "target" VUndefined in
          setField refNode "title" VUndefined
      | Missing => ret tt
      end
  | defs => if truthy defs then unmodelled else ret tt
  end.

(** The second half: in case we haven't seen our def yet (or if someone
    overwrites that def later on), we add this node to the list of ref nodes
    for that def.  An inherited [state._refs[ref]] is truthy, so it is kept,
    and calling its [push] throws; so does calling [push] on a value of the
    table's own that is no array. *)
Definition awaitDef (ref : string) (refNode : loc) : M unit :=
  let* state := getState in
  match js_or (get state "_refs") (VObj ∅) with
  | VObj refs =>
      let push (list : list Value) :=
        setState "_refs" (VObj (<[ref := VArr (list ++ [VNode refNode])]> refs)) in
      match property refs ref with
      | Own v =>
          if truthy v then
            match v with
            | VArr list => push list
            | VCapture _ => unmodelled
            | _ => throw TypeError
            end
          else push []
      | Inherited => throw TypeError
      | Missing => push []
      end
  | _ => unmodelled
  end.

Definition parseRef (capture : Capture) (refNode : loc) : M loc :=
  let* ref := must (refName capture) in
  let* _ := useDef ref refNode in
  let* _ := awaitDef ref refNode in
  ret refNode.

(** [state._refs[def].forEach((refNode) => { refNode.target = target;
    refNode.title = title })] *)
Fixpoint patchRefs (refs : list Value) (target title : Value) : M unit :=
  match refs with
  | [] => ret tt
  | VNode refNode :: refs' =>
      let* _ := setField refNode "target" target in
      let* _ := setField refNode "title" title in
      patchRefs refs' target title
  | (VArr _ | VObj _ | VCapture _) :: _ => unmodelled
  | _ :: _ => throw TypeError
  end.

(** [capture[1].replace(/\s+/g, ' ').toLowerCase()] *)
Definition defName (capture : Capture) : option string :=
  option_map normalizeName (group capture 1).

(** Look for previous links/images using this def: if any have already been
    declared, they will have added themselves to the [state._refs[def]] list,
    and we modify those AST nodes with our newly found information now. *)
Definition patchAwaiting (def : string) (target title : Value) : M unit :=
  let* state := getState in
  match get state "_refs" with
  | VObj refs =>
      match property refs def with
      | Own v =>
          if truthy v then
            match v with
            | VArr list => patchRefs list target title
            | VCapture _ => unmodelled
            | _ => throw TypeError
            end
          else ret tt
      | Inherited => throw TypeError
      | Missing => ret tt
      end
  | refs => if truthy refs then unmodelled else ret tt
  end.

Definition parseDef (capture : Capture) (_ : string -> M (list loc)) : M loc :=
  let* def := must (defName capture) in
  let target := str (group capture 2) in
  let title := str (group capture 3) in
  let* _ := patchAwaiting def target title in
  (* Add this def to our map of defs for any future links/images *)
  let* _ := setEntry "_defs" def (VObj (object [("target", target); ("title", title)])) in
  (* return the relevant parsed information for debugging only. *)
  alloc (object [("def", VStr def); ("target", target); ("title", title)]).

(** *** The rules, in the order they are added *)

Definition headingRule : ParserRule :=
  mkRule "heading"
    (blockRegex (newRegExp "^ *(#{1,6})([^\n]+?)#* *(?:\n *)+\n" ""))
    (fun capture parse =>
       let* capture1 := must (group capture 1) in
       let* capture2 := must (group capture 2) in
       let* content := parseInline parse (Some (trim capture2)) in
       alloc (object [("level", VNum (number (Z.of_nat (String.length capture1))));
                      ("content", nodes content)]))
    None.

Definition nptableRule : ParserRule :=
  mkRule "nptable" (blockRegex NPTABLE_REGEX) (parseTable false) None.

Definition lheadingRule : ParserRule :=
  mkRule "lheading"
    (blockRegex (newRegExp "^([^\n]+)\n *(=|-){3,} *(?:\n *)+\n" ""))
    (fun capture parse =>
       let level := match group capture 2 with
                    | Some "=" => 1%float
                    | _ => 2%float
                    end in
       let* content := parseInline parse (group capture 1) in
       alloc (object [("type", VStr "heading");
                      ("level", VNum level);
                      ("content", nodes content)]))
    None.

Definition hrRule : ParserRule :=
  mkRule "hr" (blockRegex (newRegExp "^( *[-*_]){3,} *(?:\n *)+\n" "")) ignoreCapture None.

Definition codeBlockRule : ParserRule :=
  mkRule "codeBlock"
    (blockRegex (newRegExp "^(?: {4}[^\n]+\n*)+(?:\n *)+\n" ""))
    (fun capture _ =>
       let* capture0 := must (group capture 0) in
       let content := replace (newRegExp "\n+$" "") ""
                        (replace (newRegExp "^ {4}" "gm") "" capture0) in
       alloc (object [("lang", VUndefined); ("content", VStr content)]))
    None.

Definition fenceRule : ParserRule :=
  mkRule "fence"
    (blockRegex (newRegExp "^ *(`{3,}|~{3,}) *(?:(\S+) *)?\n([\s\S]+?)\n?\1 *(?:\n *)+\n" ""))
    (fun capture _ =>
       alloc (object [("type", VStr "codeBlock");
                      ("lang", js_or (str (group capture 2)) VUndefined);
                      ("content", str (group capture 3))]))
    None.

Definition blockQuoteRule : ParserRule :=
  mkRule "blockQuote"
    (blockRegex (newRegExp "^( *>[^\n]+(\n[^\n]+)*\n*)+\n{2,}" ""))
    (fun capture parse =>
       let* capture0 := must (group capture 0) in
       let content := replace (newRegExp "^ *> ?" "gm") "" capture0 in
       let* parsed := parse content in
       alloc (object [("content", nodes parsed)]))
    None.

(** [state.prevCapture == null ? '' : state.prevCapture[0]], as the argument
    of [exec]; [prevCapture] is only ever set by the engine. *)
Definition prevCaptureStr (state : gmap string Value) : string :=
  match get state "prevCapture" with
  | VCapture c =>
      match group c 0 with
      | Some s => s
      | None => "undefined"
      end
  | VUndefined | VNull => ""
  | _ => "undefined"
  end.

(** One item of the list, the callback of [items.map]: [i] is its index and
    [lastItemWasAParagraph] the variable the callback shares. *)
Definition listItem (parse : string -> M (list loc)) (nItems i : nat)
    (lastItemWasAParagraph : bool) (item : string) : M (bool * list loc) :=
  (* We need to see how far indented this item is: *)
  let prefixCapture := exec LIST_ITEM_PREFIX_R item in
  let space := match prefixCapture with
               | Some c => String.length (opt_string (group c 0))
               | None => 0
               end in
  (* And then we construct a regex to "unindent" the subsequent lines of the
     items by that amount: *)
  if Nat.ltb space 1 then throw SyntaxError
  else
    let spaceRegex := newRegExp ("^ {1," +:+ pretty space +:+ "}") "gm" in
    let content := replace LIST_ITEM_PREFIX_R "" (replace spaceRegex "" item) in
    let isLastItem := Nat.eqb i (nItems - 1) in
    let containsBlocks := includes (String LF (String LF EmptyString)) content in
    let thisItemIsAParagraph := containsBlocks || (isLastItem && lastItemWasAParagraph) in
    let* state := getState in
    let oldStateInline := get state "inline" in
    let oldStateList := get state "_list" in
    let* _ := setState "_list" (VBool true) in
    let* _ := setState "inline" (VBool (negb thisItemIsAParagraph)) in
    let adjustedContent :=
      if thisItemIsAParagraph
      then replace LIST_ITEM_END_R (String LF (String LF EmptyString)) content
      else replace LIST_ITEM_END_R "" content in
    let* result := parse adjustedContent in
    (* Restore our state before returning *)
    let* _ := setState "inline" oldStateInline in
    let* _ := setState "_list" oldStateList in
    ret (thisItemIsAParagraph, result).

Fixpoint listItems (parse : string -> M (list loc)) (nItems i : nat)
    (lastItemWasAParagraph : bool) (items : list string) : M (list (list loc)) :=
  match items with
  | [] => ret []
  | item :: items' =>
      let* r := listItem parse nItems i lastItemWasAParagraph item in
      let* rs := listItems parse nItems (S i) (fst r) items' in
      ret (snd r :: rs)
  end.

(** [+bullet] for a bullet made of digits and a dot. *)
Definition bulletNumber (bullet : string) : float :=
  number (Z.of_nat (fst (decimal_value bullet 0))).

Definition listRule : ParserRule :=
  mkRule "list"
    (fun source state =>
       (* We only want to break into a list if we are at the start of a
          line. *)
       let isStartOfLineCapture := exec LIST_LOOKBEHIND_R (prevCaptureStr state) in
       let isListBlock :=
         truthy (js_or (get state "_list") (VBool (negb (truthy (get state "inline"))))) in
       match isStartOfLineCapture with
       | Some c =>
           if isListBlock then exec LIST_R (opt_string (group c 1) +:+ source) else None
       | None => None
       end)
    (fun capture parse =>
       let* bullet := must (group capture 2) in
       let ordered := Nat.ltb 1 (String.length bullet) in
       let start := if ordered then VNum (bulletNumber bullet) else VUndefined in
       let* capture0 := must (group capture 0) in
       let* items := must (match_all LIST_ITEM_R
                             (replace LIST_BLOCK_END_R (String LF EmptyString) capture0)) in
       let* itemContent := listItems parse (length items) 0 false items in
       alloc (object [("ordered", VBool ordered);
                      ("start", start);
                      ("content", VArr (map nodes itemContent))]))
    None.

Definition defRule : ParserRule :=
  mkRule "def"
    (blockRegex
       (newRegExp "^ *\[([^\]]+)\]: *<?([^\s>]*)>?(?: +[\x22(]([^\n]+)[\x22)])? *\n(?: *\n)*" ""))
    parseDef
    None.

Definition tableRule : ParserRule :=
  mkRule "table" (blockRegex TABLE_REGEX) (parseTable true) None.

Definition newlineRule : ParserRule :=
  mkRule "newline" (blockRegex (newRegExp "^(?:\n *)*\n" "")) ignoreCapture None.

Definition paragraphRule : ParserRule :=
  mkRule "paragraph"
    (blockRegex (newRegExp "^((?:[^\n]|\n(?! *\n))+)(?:\n *)+\n" ""))
    parseCaptureInline
    None.

Definition escapeRule : ParserRule :=
  mkRule "escape"
    (inlineRegex (newRegExp "^\\([^0-9A-Za-z\s])" ""))
    (fun capture _ =>
       alloc (object [("type", VStr "text"); ("content", str (group capture 1))]))
    None.

Definition tableSeparatorRule : ParserRule :=
  mkRule "tableSeparator"
    (fun source state =>
       if negb (truthy (get state "inTable")) then None
       else exec (newRegExp "^ *\| *" "") source)
    (fun _ _ => alloc (object [("type", VStr "tableSeparator")]))
    None.

(** [[{ type: 'text', content: s }]] *)
Definition textContent (s : Value) : M Value :=
  let* text := alloc (object [("type", VStr "text"); ("content", s)]) in
  ret (nodes [text]).

Definition autolinkRule : ParserRule :=
  mkRule "autolink"
    (inlineRegex (newRegExp "^<([^: >]+:\/[^ >]+)>" ""))
    (fun capture _ =>
       let* content := textContent (str (group capture 1)) in
       alloc (object [("type", VStr "link");
                      ("content", content);
                      ("target", str (group capture 1))]))
    None.

Definition mailtoRule : ParserRule :=
  mkRule "mailto"
    (inlineRegex (newRegExp "^<([^ >]+@[^ >]+)>" ""))
    (fun capture _ =>
       let address := str (group capture 1) in
       (* Check for a `mailto:` already existing in the link: *)
       let target :=
         if test AUTOLINK_MAILTO_CHECK_R (opt_string (toString address))
         then address
         else VStr ("mailto:" +:+ opt_string (toString address)) in
       let* content := textContent address in
       alloc (object [("type", VStr "link"); ("content", content); ("target", target)]))
    None.

Definition urlRule : ParserRule :=
  mkRule "url"
    (inlineRegex (newRegExp "^(https?:\/\/[^\s<]+[^<.,:;\x22')\]\s])" ""))
    (fun capture _ =>
       let* content := textContent (str (group capture 1)) in
       alloc (object [("type", VStr "link");
                      ("content", content);
                      ("target", str (group capture 1));
                      ("title", VUndefined)]))
    None.

Definition linkRule : ParserRule :=
  mkRule "link"
    (inlineRegex
       (newRegExp ("^\[(" +:+ LINK_INSIDE +:+ ")\]\(" +:+ LINK_HREF_AND_TITLE +:+ "\)") ""))
    (fun capture parse =>
       let* content := parseContent parse (group capture 1) in
       let* capture2 := must (group capture 2) in
       alloc (object [("content", nodes content);
                      ("target", VStr (unescapeUrl capture2));
                      ("title", str (group capture 3))]))
    None.

Definition imageRule : ParserRule :=
  mkRule "image"
    (inlineRegex
       (newRegExp ("^!\[(" +:+ LINK_INSIDE +:+ ")\]\(" +:+ LINK_HREF_AND_TITLE +:+ "\)") ""))
    (fun capture _ =>
       let* capture2 := must (group capture 2) in
       alloc (object [("alt", str (group capture 1));
                      ("target", VStr (unescapeUrl capture2));
                      ("title", str (group capture 3))]))
    None.

Definition reflinkRule : ParserRule :=
  mkRule "reflink"
    (inlineRegex
       (newRegExp
          ((* The first [part] of the link *)
           "^\[(" +:+ LINK_INSIDE +:+ ")\]"
           (* The [ref] target of the link *)
           +:+ "\s*\[([^\]]*)\]") ""))
    (fun capture parse =>
       let* content := parseContent parse (group capture 1) in
       let* refNode := alloc (object [("type", VStr "link"); ("content", nodes content)]) in
       parseRef capture refNode)
    None.

Definition refimageRule : ParserRule :=
  mkRule "refimage"
    (inlineRegex
       (newRegExp
          ("^!\[(" +:+ LINK_INSIDE +:+ ")\]" +:+ "\s*\[([^\]]*)\]") ""))
    (fun capture _ =>
       let* refNode := alloc (object [("type", VStr "image"); ("alt", str (group capture 1))]) in
       parseRef capture refNode)
    None.

(** [capture[0].length + d] *)
Definition lengthPlus (d : float) (capture : Capture) (_ : gmap string Value) : float :=
  match group capture 0 with
  | Some s => (number (Z.of_nat (String.length s)) + d)%float
  | None => nan
  end.

Definition emRule : ParserRule :=
  mkRule "em"
    (inlineRegex
       (newRegExp
          ((* only match _s surrounding words. *)
           "^\b_" +:+ "((?:__|\\[\s\S]|[^\\_])+?)_" +:+ "\b"
           (* Or match *s: *)
           +:+ "|"
           (* Only match *s that are followed by a non-space: *)
           +:+ "^\*(?=\S)("
           (* Match at least one of: *)
           +:+ "(?:"
           (*  - `**`: so that bolds inside italics don't close the italics *)
           +:+ "\*\*|"
           (*  - escape sequence: so escaped *s don't close us *)
           +:+ "\\[\s\S]|"
           (*  - whitespace: followed by a non-* *)
           +:+ "\s+(?:\\[\s\S]|[^\s\*\\]|\*\*)|"
           (*  - non-whitespace, non-*, non-backslash characters *)
           +:+ "[^\s\*\\]" +:+ ")+?"
           (* followed by a non-space, non-* then * *)
           +:+ ")\*(?!\*)") ""))
    (fun capture parse =>
       let* content := parseContent parse (match group capture 2 with
                                           | Some EmptyString | None => group capture 1
                                           | Some s => Some s
                                           end) in
       alloc (object [("content", nodes content)]))
    (* precedence by length, `em` wins ties: *)
    (Some (lengthPlus 0.2)).

Definition strongRule : ParserRule :=
  mkRule "strong"
    (inlineRegex (newRegExp "^\*\*((?:\\[\s\S]|[^\\])+?)\*\*(?!\*)" ""))
    parseCaptureInline
    (* precedence by length, wins ties vs `u`: *)
    (Some (lengthPlus 0.1)).

Definition uRule : ParserRule :=
  mkRule "u"
    (inlineRegex (newRegExp "^__((?:\\[\s\S]|[^\\])+?)__(?!_)" ""))
    parseCaptureInline
    (* precedence by length, loses all ties *)
    (Some (lengthPlus 0)).

Definition delRule : ParserRule :=
  mkRule "del"
    (inlineRegex (newRegExp "^~~(?=\S)((?:\\[\s\S]|~(?!~)|[^\s~\\]|\s(?!~~))+?)~~" ""))
    parseCaptureInline
    None.

Definition inlineCodeRule : ParserRule :=
  mkRule "inlineCode"
    (inlineRegex (newRegExp "^(`+)([\s\S]*?[^`])\1(?!`)" ""))
    (fun capture _ =>
       let* capture2 := must (group capture 2) in
       alloc (object [("content",
                       VStr (replace INLINE_CODE_ESCAPE_BACKTICKS_R "$1" capture2))]))
    None.

Definition brRule : ParserRule :=
  mkRule "br" (anyScopeRegex (newRegExp "^ {2,}\n" "")) ignoreCapture None.

Definition textRule : ParserRule :=
  mkRule "text"
    (* Here we look for anything followed by non-symbols, double newlines, or
       double-space-newlines *)
    (anyScopeRegex
       (newRegExp "^[\s\S]+?(?=[^0-9A-Za-z\s\u00c0-\uffff]|\n\n| {2,}\n|\w+:\S|$)" ""))
    (fun capture _ => alloc (object [("content", str (group capture 0))]))
    None.

Definition defaultRules : list ParserRule :=
  [headingRule; nptableRule; lheadingRule; hrRule; codeBlockRule; fenceRule;
   blockQuoteRule; listRule; defRule; tableRule; newlineRule; paragraphRule;
   escapeRule; tableSeparatorRule; autolinkRule; mailtoRule; urlRule; linkRule;
   imageRule; reflinkRule; refimageRule; emRule; strongRule; uRule; delRule;
   inlineCodeRule; brRule; textRule].

(** ** Predicates of the specification *)

(** Whether an optional value is there. *)
Definition isSome {A} (o : option A) : bool :=
  match o with
  | Some _ => true
  | None => false
  end.

(** The rule at index [j] of the priority order recognizes the source:
    [ruleList[j]] is [t], [rules[t]] is [r] and [r.match(source, state)] is
    the capture [c]. *)
Definition matchesAt (rules : list (string * ParserRule)) (ruleList : list string)
    (source : string) (state : gmap string Value)
    (j : nat) (t : string) (r : ParserRule) (c : Capture) : Prop :=
  ruleList !! j = Some t /\ getProperty rules t = Some r /\ match' r source state = Some c.

(** What the walk holds after consulting the first [i] rules: nothing when
    none of them matched, and otherwise the match of some rule [k] whose
    quality is at least that of every match among them and strictly above
    that of every earlier one. *)
Definition bestOf (rules : list (string * ParserRule)) (ruleList : list string)
    (source : string) (state : gmap string Value) (i : nat) (b : Best) : Prop :=
  (b = noBest /\ forall j t r c, j < i -> ~ matchesAt rules ruleList source state j t r c)
  \/ (exists k t' r' c',
        k < i /\ matchesAt rules ruleList source state k t' r' c'
        /\ b = mkBest (Some t') (Some r') (Some c') (qualityOf r' c' state)
        /\ forall j t r c, j < i -> matchesAt rules ruleList source state j t r c ->
             PrimFloat.leb (qualityOf r c state) (qualityOf r' c' state) = true
             /\ (j < k -> PrimFloat.ltb (qualityOf r c state) (qualityOf r' c' state) = true)).

(** The node at [l] has type ["text"]. *)
Definition isTextNode (h : list (gmap string Value)) (l : loc) : bool :=
  match h !! l with
  | Some n => is_text (get n "type")
  | None => false
  end.

(** No two consecutive nodes of [result] both have type ["text"]. *)
Definition noAdjacentText (h : list (gmap string Value)) (result : list loc) : Prop :=
  forall i l1 l2, result !! i = Some l1 -> result !! (S i) = Some l2 ->
    isTextNode h l1 && isTextNode h l2 = false.

(** Every node of [result] is an object with a truthy [type]. *)
Definition typed (h : list (gmap string Value)) (result : list loc) : Prop :=
  forall l, l ∈ result -> exists n, h !! l = Some n /\ truthy (get n "type") = true.

(** From [st] to [st'], every node with a (truthy) type keeps it. *)
Definition typesKept (st st' : Store) : Prop :=
  forall l n, heap st !! l = Some n -> truthy (get n "type") = true ->
    exists n', heap st' !! l = Some n' /\ get n' "type" = get n "type".

Definition keepsTypes {A} (m : M A) : Prop :=
  forall st a st', m st = Done a st' -> typesKept st st'.

(** A builder that leaves the type of the nodes built so far alone, when the
    recursive parser it is handed does. *)
Definition keepsTypesRule (r : ParserRule) : Prop :=
  forall c (p : string -> M (list loc)),
    (forall s, keepsTypes (p s)) -> keepsTypes (parse r c p).

(** A builder of text: whatever it is given, the rule registered under [t]
    only allocates one node, with [capture[0]] as content and with type
    ["text"], either set by the builder or, when the builder sets none, given
    by the rule's name. *)
Definition buildsText (t : string) (r : ParserRule) : Prop :=
  forall c p st,
    exists n,
      parse r c p st = alloc n st
      /\ get n "content" = str (group c 0)
      /\ (get n "type" = VStr "text" \/ (get n "type" = VUndefined /\ t = "text")).

(** A recognizer that captures a prefix of the source: [capture[0]] is a
    string and the source starts with it. *)
Definition capturesPrefix (r : ParserRule) : Prop :=
  forall source state c,
    match' r source state = Some c ->
    exists matched rest, group c 0 = Some matched /\ source = matched +:+ rest.

(** At every position with input left the walk ends with a winner, whose
    capture passes the anchor check and is not empty. *)
Definition alwaysSelects (rules : list (string * ParserRule)) (ruleList : list string) : Prop :=
  forall fuel source state,
    source <> "" ->
    exists best n t r c matched,
      selectRule rules ruleList fuel source state = WalkEnds best n
      /\ winner best = Some (t, r, c) /\ unanchored c = false
      /\ group c 0 = Some matched /\ matched <> "".

(** The collapse step over a run of built nodes, in order. *)
Fixpoint collapseAll (result : list loc) (nodes : list loc) : M (list loc) :=
  match nodes with
  | [] => ret result
  | parsed :: nodes' =>
      let* result' := collapse result parsed in
      collapseAll result' nodes'
  end.

(** [ss.join('')] *)
Fixpoint concat_strings (ss : list string) : string :=
  match ss with
  | [] => ""
  | s :: ss' => s +:+ concat_strings ss'
  end.

(** The target and the title of the link node that is the only child of the
    paragraph node at [p]. *)
Definition paragraphLink (st : Store) (p : loc) : option (Value * Value) :=
  match heap st !! p with
  | Some para =>
      match get para "type", get para "content" with
      | VStr "paragraph", VArr [VNode l] =>
          match heap st !! l with
          | Some link =>
              match get link "type" with
              | VStr "link" => Some (get link "target", get link "title")
              | _ => None
              end
          | None => None
          end
      | _, _ => None
      end
  | None => None
  end.

Definition doubleQuote : string := String "034" EmptyString.
Definition blankLine : string := String LF (String LF EmptyString).

(** [[a][x]\n\n[x]: /url "t"] and [[x]: /url "t"\n\n[a][x]] *)
Definition referenceFirst : string :=
  "[a][x]" +:+ blankLine +:+ "[x]: /url " +:+ doubleQuote +:+ "t" +:+ doubleQuote.
Definition definitionFirst : string :=
  "[x]: /url " +:+ doubleQuote +:+ "t" +:+ doubleQuote +:+ blankLine +:+ "[a][x]".

(** The same two documents with the name [constructor] in place of [x]. *)
Definition constructorReferenceFirst : string :=
  "[a][constructor]" +:+ blankLine +:+ "[constructor]: /url "
  +:+ doubleQuote +:+ "t" +:+ doubleQuote.
Definition constructorDefinitionFirst : string :=
  "[constructor]: /url " +:+ doubleQuote +:+ "t" +:+ doubleQuote +:+ blankLine
  +:+ "[a][constructor]".

(** What the reference and definition rules do to the store, in document
    order: a reference rule has built [refNode] and calls [parseRef]; the
    definition rule calls its builder. *)
Inductive RefEvent :=
| SeeRef (capture : Capture) (refNode : loc)
| SeeDef (capture : Capture).

Definition seeEvent (e : RefEvent) : M unit :=
  match e with
  | SeeRef capture refNode => let* _ := parseRef capture refNode in ret tt
  | SeeDef capture => let* _ := parseDef capture (fun _ => ret []) in ret tt
  end.

Fixpoint seeEvents (es : list RefEvent) : M unit :=
  match es with
  | [] => ret tt
  | e :: es' => let* _ := seeEvent e in seeEvents es'
  end.

(** The name an event is about. *)
Definition eventName (e : RefEvent) : option string :=
  match e with
  | SeeRef capture _ => refName capture
  | SeeDef capture => defName capture
  end.

(** The event is about a name, and [Object.prototype] has no property of
    that name (as it has for ["constructor"] and ["__proto__"]). *)
Definition ordinaryName (e : RefEvent) : Prop :=
  exists x, eventName e = Some x /\ inherited x = false.

(** The nodes of the references among [es]; those to [name]. *)
Fixpoint refNodes (es : list RefEvent) : list loc :=
  match es with
  | [] => []
  | SeeRef _ refNode :: es' => refNode :: refNodes es'
  | SeeDef _ :: es' => refNodes es'
  end.

Fixpoint refNodesOf (name : string) (es : list RefEvent) : list loc :=
  match es with
  | [] => []
  | SeeRef capture refNode :: es' =>
      if decide (refName capture = Some name) then refNode :: refNodesOf name es'
      else refNodesOf name es'
  | SeeDef _ :: es' => refNodesOf name es'
  end.

(** The target and title of the last definition of [name] among [es] ([d]
    when there is none). *)
Fixpoint lastDef (name : string) (es : list RefEvent) (d : option (Value * Value))
    : option (Value * Value) :=
  match es with
  | [] => d
  | SeeDef capture :: es' =>
      lastDef name es'
        (if decide (defName capture = Some name)
         then Some (str (group capture 2), str (group capture 3))
         else d)
  | SeeRef _ _ :: es' => lastDef name es' d
  end.

(** The tables of the forward-reference resolver as the state holds them:
    [state._refs] maps a name to the array of the nodes that refer to it, and
    [state._defs] maps a name to [{ target, title }].  Each is [undefined]
    until first used. *)
Definition refsValue (R : gmap string (list loc)) : Value :=
  VObj ((fun ls => VArr (map VNode ls)) <$> R).

Definition defValue (d : Value * Value) : Value :=
  VObj (object [("target", fst d); ("title", snd d)]).

Definition defsValue (D : gmap string (Value * Value)) : Value :=
  VObj (defValue <$> D).

Definition holdsRefs (st : Store) (R : gmap string (list loc)) : Prop :=
  (get (state st) "_refs" = VUndefined /\ R = ∅) \/ get (state st) "_refs" = refsValue R.

Definition holdsDefs (st : Store) (D : gmap string (Value * Value)) : Prop :=
  (get (state st) "_defs" = VUndefined /\ D = ∅) \/ get (state st) "_defs" = defsValue D.

(** The nodes registered under [x]. *)
Definition refsAt (R : gmap string (list loc)) (x : string) : list loc :=
  match R !! x with
  | Some ls => ls
  | None => []
  end.

(** The node at [l] has the target and title of [d]. *)
Definition resolved (st : Store) (l : loc) (d : Value * Value) : Prop :=
  exists n, heap st !! l = Some n /\ get n "target" = fst d /\ get n "title" = snd d.

(** What holds once the events [pre] have been seen: the tables list the
    references and the last definition of every name, and every reference
    whose name is defined so far has the target and title of that last
    definition. *)
Definition resolvedSoFar (pre : list RefEvent) (st : Store) : Prop :=
  exists R D,
    holdsRefs st R /\ holdsDefs st D
    /\ (forall x, refsAt R x = refNodesOf x pre)
    /\ (forall x, D !! x = lastDef x pre None)
    /\ (forall c l x d, SeeRef c l ∈ pre -> refName c = Some x ->
                        lastDef x pre None = Some d -> resolved st l d).

(** ** What the walk holds *)

(** A walk that holds no capture holds no rule type either. *)
Definition unheld (b : Best) : Prop := capture b = None -> ruleType b = None.

(** What the walk inside the list holds is the capture of a listed rule. *)
Definition heldFrom (rules : list (string * ParserRule)) (source : string)
    (state : gmap string Value) (b : Best) : Prop :=
  forall t r c, ruleType b = Some t -> rule b = Some r -> capture b = Some c ->
    getProperty rules t = Some r /\ match' r source state = Some c.


(** ** Small rule sets, for exercising the engine

    Hand-written recognizers in the style the README allows: a [match]
    function may return any array whose first element is the matched text. *)

(** The first character of the source, as a plain array (no [index]). *)
Definition firstChar (source : string) (_ : gmap string Value) : option Capture :=
  match source with
  | String c _ => Some (mkCapture [Some (String c EmptyString)] None)
  | EmptyString => None
  end.

(** The first two characters of the source. *)
Definition firstTwoChars (source : string) (_ : gmap string Value) : option Capture :=
  match source with
  | String c (String d _) => Some (mkCapture [Some (String c (String d EmptyString))] None)
  | _ => None
  end.

(** A recognizer that never matches. *)
Definition never (source : string) (_ : gmap string Value) : option Capture := None.

(** A recognizer without a start anchor: it finds the third character of the
    source and reports where, as [RegExp.prototype.exec] does. *)
Definition thirdChar (source : string) (_ : gmap string Value) : option Capture :=
  match source with
  | String _ (String _ (String c _)) => Some (mkCapture [Some (String c EmptyString)] (Some 2%float))
  | _ => None
  end.

(** [parse(capture) { return { content: capture[0] } }] *)
Definition contentOfCapture (capture : Capture) (_ : string -> M (list loc)) : M loc :=
  alloc {[ "content" := match group capture 0 with
                        | Some s => VStr s
                        | None => VUndefined
                        end ]}.

(** [quality(capture) { return capture[0].length }] *)
Definition lengthQuality (capture : Capture) (_ : gmap string Value) : float :=
  match group capture 0 with
  | Some s => PrimFloat.of_uint63 (Uint63.of_Z (Z.of_nat (String.length s)))
  | None => nan
  end.

Definition charRule : ParserRule := mkRule "text" firstChar contentOfCapture None.
Definition pairRule : ParserRule := mkRule "pair" firstTwoChars contentOfCapture None.
Definition neverRule : ParserRule := mkRule "never" never contentOfCapture None.
Definition unanchoredRule : ParserRule := mkRule "unanchored" thirdChar contentOfCapture None.
Definition shortRule : ParserRule := mkRule "short" firstChar contentOfCapture (Some lengthQuality).
Definition longRule : ParserRule := mkRule "long" firstTwoChars contentOfCapture (Some lengthQuality).

(** A rule named ["undefined"] whose recognizer never matches. *)
Definition undefinedRule : ParserRule := mkRule "undefined" never contentOfCapture None.

(** Two rules with the same recognizer and the same scorer; the name of the
    second is an array index. *)
Definition bRule : ParserRule := mkRule "b" firstChar contentOfCapture (Some lengthQuality).
Definition zeroScoredRule : ParserRule :=
  mkRule "0" firstChar contentOfCapture (Some lengthQuality).

(** A rule whose scorer returns [NaN]. *)
Definition nanQuality (_ : Capture) (_ : gmap string Value) : float := nan.
Definition nanScoredRule : ParserRule :=
  mkRule "n" firstChar contentOfCapture (Some nanQuality).

(** A recognizer that returns the first character with [NaN] as [index]. *)
Definition firstCharNaN (source : string) (_ : gmap string Value) : option Capture :=
  match source with
  | String c _ => Some (mkCapture [Some (String c EmptyString)] (Some nan))
  | EmptyString => None
  end.

Definition nanRule : ParserRule := mkRule "nan" firstCharNaN contentOfCapture None.

(** A hand-written recognizer without a start anchor: it returns the second
    character of the source as a plain array (no [index]). *)
Definition secondChar (source : string) (_ : gmap string Value) : option Capture :=
  match source with
  | String _ (String c _) => Some (mkCapture [Some (String c EmptyString)] None)
  | _ => None
  end.

Definition midRule : ParserRule := mkRule "mid" secondChar contentOfCapture None.

(** A builder that keeps hold of the first node of the parse and changes its
    type later: on [a] it builds a node of type ["box"], on [c] it retypes
    the node at location 0 to ["text"] and builds another box, and on any
    other character it builds a text node. *)
Definition retype (capture : Capture) (_ : string -> M (list loc)) : M loc :=
  match group capture 0 with
  | Some "a" => alloc (object [("type", VStr "box")])
  | Some "c" =>
      let* _ := setField 0 "type" (VStr "text") in
      alloc (object [("type", VStr "box")])
  | content => alloc (object [("type", VStr "text"); ("content", str content)])
  end.

Definition retypeRule : ParserRule := mkRule "retype" firstChar retype None.

(** [{ inline: true }] *)
Definition inlineState : gmap string Value := {[ "inline" := VBool true ]}.

(** The captures of the reference [[a][x]] and of the definition
    [[x]: /url "t"], and a link node before it is resolved. *)
Definition referenceToX : Capture := mkCapture [Some "[a][x]"; Some "a"; Some "x"] None.
Definition definitionOfX : Capture :=
  mkCapture [Some ("[x]: /url " +:+ doubleQuote +:+ "t" +:+ doubleQuote);
             Some "x"; Some "/url"; Some "t"] None.
Definition linkNode : gmap string Value := object [("type", VStr "link")].

(** ** The order of doubles as a key *)

(** The comparison as a lexicographic key: the class of the number, then its
    exponent and mantissa, both negated below zero. *)
Definition float_key (x : SpecFloat.spec_float) : Z * Z * Z :=
  match x with
  | S754_zero _ => (0, 0, 0)%Z
  | S754_infinity s => (if s then -2 else 2, 0, 0)%Z
  | S754_nan => (0, 0, 0)%Z
  | S754_finite s m e => if s then (-1, - e, - Z.pos m)%Z else (1, e, Z.pos m)%Z
  end.

Definition key_compare (a b : Z * Z * Z) : comparison :=
  match a, b with
  | (a1, a2, a3), (b1, b2, b3) =>
      match (a1 ?= b1)%Z with
      | Eq => match (a2 ?= b2)%Z with
              | Eq => (a3 ?= b3)%Z
              | c => c
              end
      | c => c
      end
  end.

(** * Properties *)

(** ** More example rules *)

(** A second rule named ["text"], a rule whose name is an array index and a
    rule without a name. *)
Definition otherTextRule : ParserRule := mkRule "text" firstTwoChars contentOfCapture None.
Definition zeroRule : ParserRule := mkRule "0" firstChar contentOfCapture None.
Definition namelessRule : ParserRule := mkRule "" firstChar contentOfCapture None.

(** A rule named ["__proto__"]. *)
Definition protoRule : ParserRule := mkRule "__proto__" firstChar contentOfCapture None.

(** ** Shapes of regular expressions *)

(** The repetition loop of [rmatch] on its own: [m] is the matcher of the
    repeated expression, [gs] its groups and [c] the continuation. *)
Definition repeat_loop (m : MatchState -> (MatchState -> option MatchState) -> option MatchState)
    (gs : list nat) (greedy : bool) (c : MatchState -> option MatchState)
    : nat -> nat -> option nat -> MatchState -> option MatchState :=
  fix repeat (n min : nat) (max : option nat) (x : MatchState) {struct n}
    : option MatchState :=
    match n with
    | O => None
    | S n' =>
        match max with
        | Some O => c x
        | _ =>
            let d := fun y =>
              if Nat.eqb min 0 && Nat.eqb (endIndex y) (endIndex x) then None
              else repeat n' (pred min) (option_map pred max) y in
            let xr := clear_captures gs x in
            if Nat.ltb 0 min then m xr d
            else if greedy then
              match m xr d with
              | Some z => Some z
              | None => c x
              end
            else
              match c x with
              | Some z => Some z
              | None => m xr d
              end
        end
    end.

(** The expression starts with [^] on every path. *)
Fixpoint starts_anchored (r : regex) : bool :=
  match r with
  | AssertStart => true
  | Seq r1 _ => starts_anchored r1
  | Alt r1 r2 => starts_anchored r1 && starts_anchored r2
  | Group _ r1 => starts_anchored r1
  | _ => false
  end.

(** The expression has an alternative that is [$] or empty. *)
Fixpoint accepts_end (r : regex) : bool :=
  match r with
  | AssertEnd | Empty => true
  | Alt r1 r2 => accepts_end r1 || accepts_end r2
  | _ => false
  end.

(** [[\s\S]]: the class of every character. *)
Definition anyChar : regex := Chars false [CSpace; CNot CSpace].

(** A number of characters that every match of the expression reads. *)
Fixpoint min_length (r : regex) : nat :=
  match r with
  | Chars _ _ => 1
  | Seq r1 r2 => min_length r1 + min_length r2
  | Alt r1 r2 => Nat.min (min_length r1) (min_length r2)
  | Repeat min max _ r1 =>
      match max with
      | Some max' => if Nat.ltb max' min then 0 else min * min_length r1
      | None => min * min_length r1
      end
  | Group _ r1 => min_length r1
  | _ => 0
  end.

(** Where the continuation [c] of a match from [x] is entered to give [z]:
    at least [k] characters after [x], at a position of the same input. *)
Definition reads (k : nat) (x : MatchState) (c : MatchState -> option MatchState)
    (z : MatchState) : Prop :=
  exists y, c y = Some z /\ endIndex x + k <= endIndex y
            /\ endIndex y + String.length (rest y) = endIndex x + String.length (rest x).

(** ** Character tests on strings *)

(** [s.endsWith(c)] for one character [c]. *)
Fixpoint endsWith (c : ascii) (s : string) : bool :=
  match s with
  | EmptyString => false
  | String a s' =>
      match s' with
      | EmptyString => Ascii.eqb a c
      | String _ _ => endsWith c s'
      end
  end.

(** The class [[0-9A-Za-z\s]] of [UNESCAPE_URL_R]. *)
Definition isAlnumOrSpace (c : ascii) : bool :=
  in_class false [CRange 48 57; CRange 65 90; CRange 97 122; CSpace] c.

(** The scan of [unescapeUrl] from the position [i] on, where [s] is what is
    left of the string and [before] the character in front of it. *)
Definition unescapeFrom (before : option ascii) (s : string) (i : nat) : string :=
  scan UNESCAPE_URL_R true (fun capture out => substitution "$1" capture +:+ out)
    (fun c out => String c out) EmptyString before s i 0 true.

(** ** The regular expressions of [preprocess] *)

Definition CR_NEWLINE_R : RegExp := newRegExp "\r\n?" "g".
Definition TAB_R : RegExp := newRegExp "\t" "g".
Definition FORMFEED_R : RegExp := newRegExp "\f" "g".

(** ** Equal lengths *)

(** The qualities of ["u"], ["strong"] and ["em"] for a capture of length
    [n] are in strictly ascending order. *)
Definition ascendingAt (n : Z) : bool :=
  let x := number n in
  PrimFloat.ltb (x + 0)%float (x + 0.1)%float && PrimFloat.ltb (x + 0.1)%float (x + 0.2)%float.

(** [P 0 && P 1 && ... && P (n - 1)] *)
Definition allBelow (P : Z -> bool) (n : N) : bool :=
  snd (N.iter n (fun p => (fst p + 1, snd p && P (fst p))%Z) (0%Z, true)).

(** The expression can read the character [c] first (an upper bound: [false]
    means that every match from a position in front of [c] is empty). *)
Fixpoint may_consume (ignoreCase : bool) (r : regex) (c : ascii) : bool :=
  match r with
  | Chars negated items => xorb negated (in_class ignoreCase items c)
  | Seq r1 r2 =>
      may_consume ignoreCase r1 c
      || (Nat.eqb (min_length r1) 0 && may_consume ignoreCase r2 c)
  | Alt r1 r2 => may_consume ignoreCase r1 c || may_consume ignoreCase r2 c
  | Repeat _ _ _ r1 | Group _ r1 => may_consume ignoreCase r1 c
  | Backref _ => true
  | _ => false
  end.

(** The characters an inline rule of the default set other than ["text"] can
    start with: backslash, [<], [h] (of a URL), [[], [!], [_], [*], [~], the
    backtick and the space. *)
Definition startsInline (c : ascii) : bool :=
  existsb (Ascii.eqb c) ["\"; "<"; "h"; "["; "!"; "_"; "*"; "~"; "`"; " "]%char.

(** No character outside [startsInline] can be read first by [re]. *)
Definition startsInlineOnly (re : RegExp) : bool :=
  forallb (fun n => startsInline (ascii_of_nat n)
                    || negb (may_consume (ignoreCase re) (pattern re) (ascii_of_nat n)))
          (seq 0 256).

(** ** The two errors of the engine *)

(** The errors the core loop raises itself: no matching rule, and a capture
    that is not anchored. *)
Definition engineError (e : Error) : bool :=
  match e with
  | NoMatchingRule _ _ | UnanchoredCapture => true
  | _ => false
  end.

Definition noEngineError {A} (o : Outcome A) : Prop :=
  match o with
  | Throw e => engineError e = false
  | _ => True
  end.

(** A computation that raises neither, from any store. *)
Definition neverEngineError {A} (m : M A) : Prop := forall st, noEngineError (m st).


(** ** The order of doubles behind [<=]

    The engine compares qualities with [<=] only.  Away from [NaN] this is a
    total preorder; the facts below are read off the specification of the
    primitive comparison ([SFcompare]). *)

Section FloatOrder.

Local Open Scope Z_scope.

Lemma SFcompare_opp (x y : spec_float) :
  SFcompare y x = option_map CompOpp (SFcompare x y).
Proof.
  destruct x as [sx|sx| |sx mx ex], y as [sy|sy| |sy my ey]; simpl; try reflexivity;
    try (destruct sx; reflexivity); try (destruct sy; reflexivity);
    try (destruct sx, sy; reflexivity).
  destruct sx, sy; simpl; try reflexivity;
    rewrite (Z.compare_antisym ex ey); destruct (ex ?= ey) eqn:E; simpl; try reflexivity;
    change (Pos.compare_cont Eq my mx) with (Pos.compare my mx);
    change (Pos.compare_cont Eq mx my) with (Pos.compare mx my);
    rewrite (Pos.compare_antisym mx my); destruct (mx ?= my)%positive; reflexivity.
Qed.

Lemma SFcompare_none (x y : spec_float) :
  SFcompare x y = None -> x = S754_nan \/ y = S754_nan.
Proof.
  destruct x as [sx|sx| |sx mx ex], y as [sy|sy| |sy my ey]; simpl; auto; discriminate.
Qed.

Lemma SFcompare_key (x y : spec_float) :
  x <> S754_nan -> y <> S754_nan ->
  SFcompare x y = Some (key_compare (float_key x) (float_key y)).
Proof.
  intros Hx Hy.
  destruct x as [sx|sx| |sx mx ex], y as [sy|sy| |sy my ey]; try congruence; simpl;
    try (destruct sx; reflexivity); try (destruct sy; reflexivity);
    try (destruct sx, sy; reflexivity).
  change (Pos.compare_cont Eq mx my) with (Pos.compare mx my).
  destruct sx, sy; simpl; try reflexivity.
  rewrite (Z.compare_opp ex ey), (Z.compare_antisym ex ey).
  destruct (ex ?= ey); reflexivity.
Qed.

Lemma key_compare_le_lt a b c :
  key_compare a b <> Gt -> key_compare b c = Lt -> key_compare a c = Lt.
Proof.
  destruct a as [[a1 a2] a3], b as [[b1 b2] b3], c as [[c1 c2] c3]; unfold key_compare.
  destruct (Z.compare_spec a1 b1), (Z.compare_spec b1 c1), (Z.compare_spec a1 c1);
    try lia; try congruence;
    destruct (Z.compare_spec a2 b2), (Z.compare_spec b2 c2), (Z.compare_spec a2 c2);
    try lia; try congruence;
    destruct (Z.compare_spec a3 b3), (Z.compare_spec b3 c3), (Z.compare_spec a3 c3);
    try lia; congruence.
Qed.

End FloatOrder.

Lemma is_nan_spec (x : float) : PrimFloat.is_nan x = false <-> Prim2SF x <> S754_nan.
Proof.
  unfold PrimFloat.is_nan. rewrite FloatAxioms.eqb_spec. unfold SFeqb.
  destruct (Prim2SF x) as [s|s| |s m e] eqn:E; simpl; split; try congruence; try easy.
  - destruct s; easy.
  - intros _. destruct s; rewrite Z.compare_refl;
      change (Pos.compare_cont Eq m m) with (Pos.compare m m);
      rewrite Pos.compare_refl; reflexivity.
Qed.

(** Nothing is below or equal to [NaN]: the first match always replaces the
    initial quality. *)
Lemma leb_nan_r (x : float) : PrimFloat.leb x nan = false.
Proof.
  rewrite FloatAxioms.leb_spec. unfold SFleb.
  change (Prim2SF nan) with S754_nan.
  destruct (Prim2SF x); reflexivity.
Qed.

(** What is not [<=] is strictly above. *)
Lemma not_leb_ltb (x y : float) :
  PrimFloat.is_nan x = false -> PrimFloat.is_nan y = false ->
  PrimFloat.leb x y = false -> PrimFloat.ltb y x = true.
Proof.
  rewrite !is_nan_spec, FloatAxioms.leb_spec, FloatAxioms.ltb_spec. unfold SFleb, SFltb. intros Hx Hy.
  rewrite (SFcompare_opp (Prim2SF x) (Prim2SF y)).
  destruct (SFcompare (Prim2SF x) (Prim2SF y)) as [[]|] eqn:E; simpl; try congruence.
  apply SFcompare_none in E. tauto.
Qed.

Lemma ltb_leb (x y : float) : PrimFloat.ltb x y = true -> PrimFloat.leb x y = true.
Proof.
  rewrite FloatAxioms.leb_spec, FloatAxioms.ltb_spec. unfold SFleb, SFltb.
  destruct (SFcompare (Prim2SF x) (Prim2SF y)) as [[]|]; congruence.
Qed.

Lemma leb_ltb_trans (x y z : float) :
  PrimFloat.leb x y = true -> PrimFloat.ltb y z = true -> PrimFloat.ltb x z = true.
Proof.
  rewrite FloatAxioms.leb_spec, !FloatAxioms.ltb_spec. unfold SFleb, SFltb. intros Hxy Hyz.
  assert (Hx : Prim2SF x <> S754_nan) by (intros E; rewrite E in Hxy; discriminate).
  assert (Hy : Prim2SF y <> S754_nan)
    by (intros E; rewrite E in Hxy; destruct (Prim2SF x); discriminate).
  assert (Hz : Prim2SF z <> S754_nan)
    by (intros E; rewrite E in Hyz; destruct (Prim2SF y); discriminate).
  rewrite SFcompare_key in * by assumption.
  rewrite (key_compare_le_lt (float_key (Prim2SF x)) (float_key (Prim2SF y))); auto.
  - destruct (key_compare (float_key (Prim2SF x)) (float_key (Prim2SF y))); congruence.
  - destruct (key_compare (float_key (Prim2SF y)) (float_key (Prim2SF z))); congruence.
Qed.

Lemma leb_refl (x : float) : PrimFloat.is_nan x = false -> PrimFloat.leb x x = true.
Proof.
  rewrite is_nan_spec, FloatAxioms.leb_spec. unfold SFleb. intros Hx.
  rewrite SFcompare_key by assumption.
  destruct (float_key (Prim2SF x)) as [[a1 a2] a3]. unfold key_compare.
  rewrite !Z.compare_refl. reflexivity.
Qed.

(** ** The rule walk of one parse position, inside the rule list *)

Section Walk.

Variable rules : list (string * ParserRule).
Variable source : string.
Variable state : gmap string Value.

Lemma listedLoop_count rest : forall currRuleType currRule i b0,
  i < snd (listedLoop rules source state currRuleType currRule rest i b0)
  /\ snd (listedLoop rules source state currRuleType currRule rest i b0) <= S i + length rest.
Proof.
  induction rest as [|nextRuleType rest IH]; intros; simpl.
  - lia.
  - destruct (getProperty rules nextRuleType) as [nextRule|]; simpl; [|lia].
    destruct (capture (consult (Some currRuleType) currRule source state b0)), (quality nextRule);
      simpl; try lia;
      match goal with
      | |- context [listedLoop _ _ _ ?t ?r rest ?j ?b] => specialize (IH t r j b)
      end; lia.
Qed.

(** A rule without a scorer, met once a capture is held, ends the walk:
    appending it (and anything after it) to the rules walked changes nothing. *)
Lemma listedLoop_stops rest r post : forall currRuleType currRule i b0,
  is_Some (capture (fst (listedLoop rules source state currRuleType currRule rest i b0))) ->
  (forall nextRule, getProperty rules r = Some nextRule -> quality nextRule = None) ->
  listedLoop rules source state currRuleType currRule (rest ++ r :: post) i b0
  = listedLoop rules source state currRuleType currRule rest i b0.
Proof.
  induction rest as [|nextRuleType rest IH]; intros currRuleType currRule i b0 Hc Hr; simpl in *.
  - destruct (getProperty rules r) as [nextRule|] eqn:E; [|reflexivity].
    rewrite (Hr nextRule eq_refl). destruct Hc as [c Hc]. rewrite Hc. reflexivity.
  - destruct (getProperty rules nextRuleType) as [nextRule|]; [|reflexivity].
    destruct (capture (consult (Some currRuleType) currRule source state b0)), (quality nextRule);
      try reflexivity; apply IH; assumption.
Qed.

(** A rule with a scorer, met after every earlier rule was consulted, is
    consulted too, whatever is held. *)
Lemma listedLoop_continues rest r nextRule q : forall currRuleType currRule i b0,
  snd (listedLoop rules source state currRuleType currRule rest i b0) = S i + length rest ->
  getProperty rules r = Some nextRule -> quality nextRule = Some q ->
  listedLoop rules source state currRuleType currRule (rest ++ [r]) i b0
  = (consult (Some r) nextRule source state
       (fst (listedLoop rules source state currRuleType currRule rest i b0)),
     S (S i + length rest)).
Proof.
  induction rest as [|nextRuleType rest IH]; intros currRuleType currRule i b0 Hn Hr Hq; simpl in *.
  - rewrite Hr, Hq.
    destruct (capture (consult (Some currRuleType) currRule source state b0));
      simpl; f_equal; lia.
  - destruct (getProperty rules nextRuleType) as [nextRule'|]; simpl in Hn; [|lia].
    destruct (capture (consult (Some currRuleType) currRule source state b0)), (quality nextRule');
      simpl in Hn; try lia;
      (rewrite IH; [f_equal; lia | lia | assumption | assumption]).
Qed.

Variable ruleList : list string.

Hypothesis no_NaN : forall j t r c,
  matchesAt rules ruleList source state j t r c ->
  PrimFloat.is_nan (qualityOf r c state) = false.

Lemma matchesAt_same i t r j t0 r0 c0 :
  ruleList !! i = Some t -> getProperty rules t = Some r ->
  matchesAt rules ruleList source state j t0 r0 c0 -> j = i ->
  t0 = t /\ r0 = r /\ match' r source state = Some c0.
Proof.
  intros Ht Hr (Ht' & Hr' & Hm') ->.
  rewrite Ht in Ht'. injection Ht' as <-.
  rewrite Hr in Hr'. injection Hr' as <-. auto.
Qed.

Lemma consult_bestOf i t r b :
  ruleList !! i = Some t -> getProperty rules t = Some r ->
  bestOf rules ruleList source state i b ->
  bestOf rules ruleList source state (S i) (consult (Some t) r source state b).
Proof.
  intros Ht Hr Hb. unfold consult.
  destruct (match' r source state) as [c|] eqn:Hm.
  - assert (Hi : matchesAt rules ruleList source state i t r c) by (repeat split; assumption).
    assert (Hq := no_NaN _ _ _ _ Hi).
    destruct Hb as [[-> Hnone] | (k & t' & r' & c' & Hk & Hmk & -> & Hmax)]; simpl.
    + rewrite leb_nan_r. simpl. right. exists i, t, r, c.
      split; [lia|]. split; [assumption|]. split; [reflexivity|].
      intros j t0 r0 c0 Hj Hmj.
      destruct (decide (j = i)) as [Hji|Hne].
      * destruct (matchesAt_same _ _ _ _ _ _ _ Ht Hr Hmj Hji) as (-> & -> & Hm').
        rewrite Hm in Hm'. injection Hm' as <-.
        split; [apply leb_refl; assumption | lia].
      * exfalso. apply (Hnone j t0 r0 c0); [lia | assumption].
    + assert (Hqk := no_NaN _ _ _ _ Hmk).
      destruct (PrimFloat.leb (qualityOf r c state) (qualityOf r' c' state)) eqn:Hle; simpl.
      * right. exists k, t', r', c'.
        split; [lia|]. split; [assumption|]. split; [reflexivity|].
        intros j t0 r0 c0 Hj Hmj.
        destruct (decide (j = i)) as [Hji|Hne].
        -- destruct (matchesAt_same _ _ _ _ _ _ _ Ht Hr Hmj Hji) as (-> & -> & Hm').
           rewrite Hm in Hm'. injection Hm' as <-.
           split; [assumption | lia].
        -- apply (Hmax j t0 r0 c0); [lia | assumption].
      * apply not_leb_ltb in Hle; try assumption.
        right. exists i, t, r, c.
        split; [lia|]. split; [assumption|]. split; [reflexivity|].
        intros j t0 r0 c0 Hj Hmj.
        destruct (decide (j = i)) as [Hji|Hne].
        -- destruct (matchesAt_same _ _ _ _ _ _ _ Ht Hr Hmj Hji) as (-> & -> & Hm').
           rewrite Hm in Hm'. injection Hm' as <-.
           split; [apply leb_refl; assumption | lia].
        -- assert (Hlt : PrimFloat.ltb (qualityOf r0 c0 state) (qualityOf r c state) = true).
           { apply leb_ltb_trans with (y := qualityOf r' c' state); [|assumption].
             apply (Hmax j t0 r0 c0); [lia | assumption]. }
           split; [apply ltb_leb; assumption | intros _; assumption].
  - destruct Hb as [[-> Hnone] | (k & t' & r' & c' & Hk & Hmk & -> & Hmax)].
    + left. split; [reflexivity|]. intros j t0 r0 c0 Hj Hmj.
      destruct (decide (j = i)) as [Hji|Hne].
      * destruct (matchesAt_same _ _ _ _ _ _ _ Ht Hr Hmj Hji) as (-> & -> & Hm').
        congruence.
      * apply (Hnone j t0 r0 c0); [lia | assumption].
    + right. exists k, t', r', c'.
      split; [lia|]. split; [assumption|]. split; [reflexivity|].
      intros j t0 r0 c0 Hj Hmj.
      destruct (decide (j = i)) as [Hji|Hne].
      * destruct (matchesAt_same _ _ _ _ _ _ _ Ht Hr Hmj Hji) as (-> & -> & Hm').
        congruence.
      * apply (Hmax j t0 r0 c0); [lia | assumption].
Qed.

Lemma listedLoop_bestOf rest : forall done currRuleType currRule b0,
  ruleList = done ++ currRuleType :: rest ->
  getProperty rules currRuleType = Some currRule ->
  bestOf rules ruleList source state (length done) b0 ->
  bestOf rules ruleList source state
    (snd (listedLoop rules source state currRuleType currRule rest (length done) b0))
    (fst (listedLoop rules source state currRuleType currRule rest (length done) b0)).
Proof.
  induction rest as [|nextRuleType rest IH]; intros done currRuleType currRule b0 Hl Hr Hb.
  - simpl. apply consult_bestOf; try assumption.
    rewrite Hl. rewrite lookup_app_r by lia. rewrite Nat.sub_diag. reflexivity.
  - assert (Hstep : bestOf rules ruleList source state (S (length done))
                      (consult (Some currRuleType) currRule source state b0)).
    { apply consult_bestOf; try assumption.
      rewrite Hl. rewrite lookup_app_r by lia. rewrite Nat.sub_diag. reflexivity. }
    simpl. destruct (getProperty rules nextRuleType) as [nextRule|] eqn:Hn; [|exact Hstep].
    specialize (IH (done ++ [currRuleType]) nextRuleType nextRule
                  (consult (Some currRuleType) currRule source state b0)).
    rewrite length_app in IH. simpl in IH. rewrite Nat.add_1_r in IH.
    destruct (capture (consult (Some currRuleType) currRule source state b0)), (quality nextRule);
      try exact Hstep; apply IH; try assumption; rewrite <- app_assoc; exact Hl.
Qed.

End Walk.

(** The walk holds the best of the consulted matches: the general form of
    the selection, over the priority order. *)
Lemma walk_holds_best rules ruleList source state b n :
  selectListed rules ruleList source state = Some (b, n) ->
  (forall j t r c, matchesAt rules ruleList source state j t r c ->
                   PrimFloat.is_nan (qualityOf r c state) = false) ->
  forall j t r c, j < n -> matchesAt rules ruleList source state j t r c ->
  exists k t' r' c',
    k < n /\ matchesAt rules ruleList source state k t' r' c'
    /\ b = mkBest (Some t') (Some r') (Some c') (qualityOf r' c' state)
    /\ PrimFloat.leb (qualityOf r c state) (qualityOf r' c' state) = true
    /\ (j < k -> PrimFloat.ltb (qualityOf r c state) (qualityOf r' c' state) = true).
Proof.
  unfold selectListed. destruct ruleList as [|t0 rest] eqn:El; [discriminate|].
  destruct (getProperty rules t0) as [r0|] eqn:E0; [|discriminate].
  intros [= Hwalk] HNaN j t r c Hj Hm.
  assert (HB := listedLoop_bestOf rules source state (t0 :: rest) HNaN rest [] t0 r0 noBest
                  eq_refl E0).
  simpl in HB. rewrite Hwalk in HB. simpl in HB.
  destruct HB as [[_ Hnone] | (k & t' & r' & c' & Hk & Hmk & Hb & Hmax)].
  - left. split; [reflexivity|]. intros j' t1 r1 c1 Hlt. lia.
  - exfalso. apply (Hnone j t r c Hj Hm).
  - exists k, t', r', c'. destruct (Hmax j t r c Hj Hm) as [Hle Hlt]. auto.
Qed.

(** ** The walk and its part inside the rule list *)

Section WalkPastTheEnd.

Variable rules : list (string * ParserRule).
Variable source : string.
Variable state : gmap string Value.

(** Past the end of the list the walk can only end on a rule without a
    scorer. *)
Lemma undefinedLoop_quality u fuel : forall i b b' n,
  undefinedLoop source state u fuel i b = WalkEnds b' n -> quality u = None.
Proof.
  induction fuel as [|fuel IH]; intros i b b' n H; simpl in H; [discriminate|].
  destruct (capture (consult None u source state b)), (quality u); try reflexivity;
    apply (IH _ _ _ _ H).
Qed.

Lemma consult_None_type u b :
  ruleType b = None -> ruleType (consult None u source state b) = None.
Proof.
  intros H. unfold consult. destruct (match' u source state); [|exact H].
  destruct (negb _); [reflexivity | exact H].
Qed.

(** What the walk picks up past the end has no rule type. *)
Lemma undefinedLoop_type u fuel : forall i b b' n,
  ruleType b = None ->
  undefinedLoop source state u fuel i b = WalkEnds b' n -> ruleType b' = None.
Proof.
  induction fuel as [|fuel IH]; intros i b b' n Hb H; simpl in H; [discriminate|].
  assert (Hc := consult_None_type u b Hb).
  destruct (capture (consult None u source state b)), (quality u);
    try (apply (IH _ _ _ _ Hc H)).
  injection H as <- _. exact Hc.
Qed.

Lemma consult_rule_of t u b r' :
  rule (consult t u source state b) = Some r' -> r' = u \/ rule b = Some r'.
Proof.
  unfold consult. destruct (match' u source state); [|auto].
  destruct (negb _); simpl; [|auto]. intros [= <-]. auto.
Qed.

Lemma undefinedLoop_rule u fuel : forall i b b' n r',
  undefinedLoop source state u fuel i b = WalkEnds b' n ->
  rule b' = Some r' -> r' = u \/ rule b = Some r'.
Proof.
  induction fuel as [|fuel IH]; intros i b b' n r' H Hr; simpl in H; [discriminate|].
  destruct (capture (consult None u source state b)), (quality u);
    try (destruct (IH _ _ _ _ _ H Hr) as [E|E]; [auto | apply consult_rule_of in E; exact E]).
  injection H as <- _. apply consult_rule_of in Hr. exact Hr.
Qed.

Lemma unheld_noBest : unheld noBest.
Proof. intros _. reflexivity. Qed.

Lemma consult_unheld t r b : unheld b -> unheld (consult t r source state b).
Proof.
  intros Hb. unfold consult. destruct (match' r source state); [|exact Hb].
  destruct (negb _); [intros H; discriminate H | exact Hb].
Qed.

Lemma listedLoop_unheld rest : forall t r i b0,
  unheld b0 -> unheld (fst (listedLoop rules source state t r rest i b0)).
Proof.
  induction rest as [|t1 rest IH]; intros t r i b0 Hb; simpl.
  - apply consult_unheld, Hb.
  - destruct (getProperty rules t1) as [r1|]; [|apply consult_unheld, Hb].
    destruct (capture (consult (Some t) r source state b0)) eqn:Hc, (quality r1);
      try (apply IH, consult_unheld, Hb); simpl; apply consult_unheld, Hb.
Qed.

(** The walk, when every listed name is the name of a rule: it is the walk
    inside the list, followed at the end of the list by the guard on
    [rules[undefined]]. *)
Lemma ruleLoop_spec fuel rest : forall t r i b0,
  Forall (fun t' => is_Some (getProperty rules t')) rest ->
  ruleLoop rules source state fuel t r rest i b0
  = (let '(b, n) := listedLoop rules source state t r rest i b0 in
     if Nat.ltb n (S i + length rest) then WalkEnds b n
     else pastEnd rules source state fuel n b).
Proof.
  induction rest as [|t1 rest IH]; intros t r i b0 Hall; simpl.
  - replace (Nat.ltb (S i) (S (i + 0))) with false by (symmetry; apply Nat.ltb_ge; lia). reflexivity.
  - apply Forall_cons in Hall as [[r1 E1] Hall]. rewrite E1.
    assert (Hlt : Nat.ltb (S i) (S (i + S (length rest))) = true) by (apply Nat.ltb_lt; lia).
    destruct (capture (consult (Some t) r source state b0)), (quality r1);
      try (rewrite Hlt; reflexivity);
      (rewrite (IH _ _ _ _ Hall);
       replace (S (S i) + length rest) with (S (i + S (length rest))) by lia; reflexivity).
Qed.

(** A walk that ends either ended inside the list, or went past its end
    without a capture and came back with a match that has no rule type. *)
Lemma ruleLoop_ends fuel rest : forall t r i b0 b n,
  unheld b0 ->
  ruleLoop rules source state fuel t r rest i b0 = WalkEnds b n ->
  listedLoop rules source state t r rest i b0 = (b, n)
  \/ (ruleType b = None
      /\ capture (fst (listedLoop rules source state t r rest i b0)) = None
      /\ snd (listedLoop rules source state t r rest i b0) = S i + length rest).
Proof.
  induction rest as [|t1 rest IH]; intros t r i b0 b n Hb0 H; simpl in *.
  - assert (Hu := consult_unheld (Some t) r b0 Hb0).
    unfold pastEnd in H. destruct (getProperty rules "undefined") as [u|].
    + destruct (capture (consult (Some t) r source state b0)) as [c|] eqn:Hc.
      * destruct (quality u) eqn:Hq.
        -- apply undefinedLoop_quality in H. congruence.
        -- injection H as <- <-. left. reflexivity.
      * right. split; [apply (undefinedLoop_type _ _ _ _ _ _ (Hu Hc) H)|].
        split; [reflexivity | lia].
    + injection H as <- <-. left. reflexivity.
  - assert (Hu := consult_unheld (Some t) r b0 Hb0).
    destruct (getProperty rules t1) as [r1|].
    + destruct (capture (consult (Some t) r source state b0)), (quality r1);
        try (destruct (IH _ _ _ _ _ _ Hu H) as [E|(E1 & E2 & E3)];
             [left; exact E | right; split; [exact E1|]; split; [exact E2|]; rewrite E3; lia]);
        injection H as <- <-; left; reflexivity.
    + unfold ruleless in H.
      destruct (capture (consult (Some t) r source state b0)).
      * injection H as <- <-. left. reflexivity.
      * destruct (absent rules t1); try discriminate H. injection H as <- <-. left. reflexivity.
Qed.

(** The rule the walk returns is a rule of the rule object. *)
Lemma ruleLoop_rule fuel rest : forall t r i b0 b n r',
  getProperty rules t = Some r ->
  ruleLoop rules source state fuel t r rest i b0 = WalkEnds b n ->
  rule b = Some r' ->
  rule b0 = Some r' \/ exists t', getProperty rules t' = Some r'.
Proof.
  induction rest as [|t1 rest IH]; intros t r i b0 b n r' Hr H Hb; simpl in H.
  - unfold pastEnd in H. destruct (getProperty rules "undefined") as [u|] eqn:Eu.
    + destruct (capture (consult (Some t) r source state b0)), (quality u);
        try (apply (undefinedLoop_rule _ _ _ _ _ _ _ H) in Hb as [->|Hb];
             [eauto | apply consult_rule_of in Hb as [->|Hb]; eauto]).
      injection H as <- _. apply consult_rule_of in Hb as [->|Hb]; eauto.
    + injection H as <- _. apply consult_rule_of in Hb as [->|Hb]; eauto.
  - destruct (getProperty rules t1) as [r1|] eqn:E1.
    + destruct (capture (consult (Some t) r source state b0)), (quality r1);
        try (destruct (IH _ _ _ _ _ _ _ E1 H Hb) as [H'|H']; [|auto];
             apply consult_rule_of in H' as [->|H']; eauto).
      injection H as <- _. apply consult_rule_of in Hb as [->|Hb]; eauto.
    + unfold ruleless in H.
      destruct (capture (consult (Some t) r source state b0)).
      * injection H as <- _. apply consult_rule_of in Hb as [->|Hb]; eauto.
      * destruct (absent rules t1); try discriminate H.
        injection H as <- _. apply consult_rule_of in Hb as [->|Hb]; eauto.
Qed.

(** A rule without a scorer (or a name without a rule), met once a capture
    is held, ends the walk there. *)
Lemma ruleLoop_stops fuel rest r post : forall currRuleType currRule i b0,
  is_Some (capture (fst (listedLoop rules source state currRuleType currRule rest i b0))) ->
  (forall nextRule, getProperty rules r = Some nextRule -> quality nextRule = None) ->
  ruleLoop rules source state fuel currRuleType currRule (rest ++ r :: post) i b0
  = WalkEnds (fst (listedLoop rules source state currRuleType currRule rest i b0))
      (snd (listedLoop rules source state currRuleType currRule rest i b0)).
Proof.
  induction rest as [|nextRuleType rest IH]; intros currRuleType currRule i b0 Hc Hr; simpl in *.
  - destruct Hc as [c Hc]. destruct (getProperty rules r) as [nextRule|] eqn:E.
    + rewrite (Hr nextRule eq_refl), Hc. reflexivity.
    + unfold ruleless. rewrite Hc. reflexivity.
  - destruct (getProperty rules nextRuleType) as [nextRule|].
    + destruct (capture (consult (Some currRuleType) currRule source state b0)), (quality nextRule);
        try reflexivity; apply IH; assumption.
    + simpl in Hc. destruct Hc as [c Hc]. unfold ruleless. rewrite Hc. reflexivity.
Qed.

(** A rule with a scorer, met after every earlier rule was consulted, is
    consulted too, whatever is held: the walk goes on with the body of the
    loop for that rule. *)
Lemma ruleLoop_continues fuel rest r nextRule q post : forall currRuleType currRule i b0,
  snd (listedLoop rules source state currRuleType currRule rest i b0) = S i + length rest ->
  getProperty rules r = Some nextRule -> quality nextRule = Some q ->
  ruleLoop rules source state fuel currRuleType currRule (rest ++ r :: post) i b0
  = ruleLoop rules source state fuel r nextRule post (S i + length rest)
      (fst (listedLoop rules source state currRuleType currRule rest i b0)).
Proof.
  induction rest as [|nextRuleType rest IH]; intros currRuleType currRule i b0 Hn Hr Hq; simpl in *.
  - rewrite Hr, Hq, Nat.add_0_r.
    destruct (capture (consult (Some currRuleType) currRule source state b0)); reflexivity.
  - destruct (getProperty rules nextRuleType) as [nextRule'|]; simpl in Hn; [|lia].
    destruct (capture (consult (Some currRuleType) currRule source state b0)), (quality nextRule');
      simpl in Hn; try lia;
      (rewrite IH; [f_equal; lia | lia | assumption | assumption]).
Qed.

End WalkPastTheEnd.

(** With no rule named ["undefined"] and a rule under every listed name, the
    walk is the walk inside the list. *)
Lemma selectRule_listed rules ruleList fuel source state :
  getProperty rules "undefined" = None ->
  Forall (fun t => is_Some (getProperty rules t)) ruleList ->
  ruleList <> [] ->
  exists b n,
    selectListed rules ruleList source state = Some (b, n)
    /\ selectRule rules ruleList fuel source state = WalkEnds b n.
Proof.
  intros Hu Hall Hne. destruct ruleList as [|t rest]; [contradiction|].
  apply Forall_cons in Hall as [[r E] Hall]. unfold selectListed, selectRule. rewrite E.
  rewrite (ruleLoop_spec rules source state fuel rest t r 0 noBest Hall).
  destruct (listedLoop rules source state t r rest 0 noBest) as [b n].
  exists b, n. split; [reflexivity|].
  unfold pastEnd. rewrite Hu. destruct (Nat.ltb n (1 + length rest)); reflexivity.
Qed.

(** A walk that ends either ended inside the list, or consulted every listed
    rule without a match and has no rule type to show. *)
Lemma selectRule_ends rules ruleList fuel source state b n :
  selectRule rules ruleList fuel source state = WalkEnds b n ->
  selectListed rules ruleList source state = Some (b, n)
  \/ (ruleType b = None
      /\ forall b' n', selectListed rules ruleList source state = Some (b', n') ->
                       capture b' = None /\ n' = length ruleList).
Proof.
  unfold selectRule, selectListed. destruct ruleList as [|t rest].
  - destruct (getProperty rules "undefined") as [u|]; [|discriminate].
    intros H. right.
    split; [apply (undefinedLoop_type source state u fuel 0 noBest b n eq_refl H)|].
    intros b' n' H'. discriminate H'.
  - destruct (getProperty rules t) as [r|].
    + intros H. apply ruleLoop_ends in H as [->|(H1 & H2 & H3)];
        [auto | | exact unheld_noBest].
      right. split; [exact H1|]. intros b' n' [= E]. rewrite E in H2, H3. simpl in *. auto.
    + destruct (absent rules t); discriminate.
Qed.

Lemma selectRule_winner rules ruleList fuel source state b n t r c :
  selectRule rules ruleList fuel source state = WalkEnds b n ->
  winner b = Some (t, r, c) ->
  selectListed rules ruleList source state = Some (b, n).
Proof.
  intros H Hw. apply selectRule_ends in H as [H|[H _]]; [exact H|].
  unfold winner in Hw. rewrite H in Hw.
  destruct (rule b), (capture b); discriminate.
Qed.

Lemma selectRule_rule rules ruleList fuel source state b n r :
  selectRule rules ruleList fuel source state = WalkEnds b n ->
  rule b = Some r -> exists t, getProperty rules t = Some r.
Proof.
  unfold selectRule. destruct ruleList as [|t rest].
  - destruct (getProperty rules "undefined") as [u|] eqn:Eu; [|discriminate].
    intros H Hr. apply (undefinedLoop_rule _ _ _ _ _ _ _ _ _ H) in Hr as [->|Hr];
      [eauto | discriminate].
  - destruct (getProperty rules t) as [r0|] eqn:E.
    + intros H Hr.
      destruct (ruleLoop_rule _ _ _ _ _ _ _ _ _ _ _ _ E H Hr) as [Hf|Hf];
        [discriminate | assumption].
    + destruct (absent rules t); discriminate.
Qed.

Lemma consult_heldFrom rules source state t r b :
  getProperty rules t = Some r -> heldFrom rules source state b ->
  heldFrom rules source state (consult (Some t) r source state b).
Proof.
  intros Hr Hb. unfold consult. destruct (match' r source state) as [c|] eqn:Hm; [|exact Hb].
  destruct (negb _); [|exact Hb].
  intros t' r' c' [= <-] [= <-] [= <-]. auto.
Qed.

Lemma listedLoop_heldFrom rules source state rest : forall t r i b0,
  getProperty rules t = Some r -> heldFrom rules source state b0 ->
  heldFrom rules source state (fst (listedLoop rules source state t r rest i b0)).
Proof.
  induction rest as [|t1 rest IH]; intros t r i b0 Hr Hb; simpl.
  - apply consult_heldFrom; assumption.
  - destruct (getProperty rules t1) as [r1|] eqn:E1; [|apply consult_heldFrom; assumption].
    destruct (capture (consult (Some t) r source state b0)), (quality r1);
      try (apply IH; [exact E1 | apply consult_heldFrom; assumption]);
      simpl; apply consult_heldFrom; assumption.
Qed.

(** The winner of a walk is a rule of the rule object under its own name,
    with the capture its recognizer returns. *)
Lemma selectRule_winner_rule rules ruleList fuel source state b n t r c :
  selectRule rules ruleList fuel source state = WalkEnds b n ->
  winner b = Some (t, r, c) ->
  getProperty rules t = Some r /\ match' r source state = Some c.
Proof.
  intros H Hw. assert (Hl := selectRule_winner _ _ _ _ _ _ _ _ _ _ H Hw).
  unfold selectListed in Hl. destruct ruleList as [|t0 rest]; [discriminate|].
  destruct (getProperty rules t0) as [r0|] eqn:E0; [|discriminate].
  injection Hl as Hl.
  assert (H0 : heldFrom rules source state noBest) by (intros ? ? ? H0; discriminate H0).
  assert (Hh := listedLoop_heldFrom rules source state rest t0 r0 0 noBest E0 H0).
  rewrite Hl in Hh. simpl in Hh.
  unfold winner in Hw. destruct (rule b) as [r'|] eqn:Er; [|discriminate].
  destruct (capture b) as [c'|] eqn:Ec; [|discriminate].
  destruct (ruleType b) as [t'|] eqn:Et; [|discriminate].
  destruct (String.eqb t' ""); [discriminate|]. injection Hw as <- <- <-.
  apply Hh; assumption.
Qed.

(** The walk holds the best of the consulted matches, also when it is
    followed to its end past the rule list. *)
Lemma selectRule_holds_best rules ruleList fuel source state b n :
  selectRule rules ruleList fuel source state = WalkEnds b n ->
  (forall j t r c, matchesAt rules ruleList source state j t r c ->
                   PrimFloat.is_nan (qualityOf r c state) = false) ->
  forall j t r c, j < n -> matchesAt rules ruleList source state j t r c ->
  exists k t' r' c',
    k < n /\ matchesAt rules ruleList source state k t' r' c'
    /\ b = mkBest (Some t') (Some r') (Some c') (qualityOf r' c' state)
    /\ PrimFloat.leb (qualityOf r c state) (qualityOf r' c' state) = true
    /\ (j < k -> PrimFloat.ltb (qualityOf r c state) (qualityOf r' c' state) = true).
Proof.
  intros H HNaN j t r c Hj Hm.
  destruct (selectRule_ends _ _ _ _ _ _ _ H) as [Hl | [_ Hl]].
  - exact (walk_holds_best rules ruleList source state b n Hl HNaN j t r c Hj Hm).
  - exfalso.
    assert (Hsome : exists b' n', selectListed rules ruleList source state = Some (b', n')).
    { unfold selectRule in H. unfold selectListed.
      destruct ruleList as [|t0 rest]; [destruct Hm as [Hm _]; discriminate Hm|].
      destruct (getProperty rules t0) as [r0|]; [|destruct (absent rules t0); discriminate].
      destruct (listedLoop rules source state t0 r0 rest 0 noBest) as [b' n']. eauto. }
    destruct Hsome as (b' & n' & Hs). destruct (Hl b' n' Hs) as [Hc ->].
    assert (Hjl : j < length ruleList).
    { destruct Hm as [Hm _]. apply lookup_lt_Some in Hm. exact Hm. }
    destruct (walk_holds_best rules ruleList source state b' (length ruleList) Hs HNaN
                j t r c Hjl Hm) as (k & t' & r' & c' & _ & _ & -> & _).
    discriminate Hc.
Qed.

(** A walk of the listed rules that ends holding a capture is the complete
    walk, when a rule registered as ["undefined"], if there is one, has no
    scorer: past the list the loop reads that rule and stops at once. *)
Lemma selectRule_captured rules ruleList fuel source state b n :
  (forall u, getProperty rules "undefined" = Some u -> quality u = None) ->
  Forall (fun t => is_Some (getProperty rules t)) ruleList ->
  selectListed rules ruleList source state = Some (b, n) ->
  is_Some (capture b) ->
  selectRule rules ruleList fuel source state = WalkEnds b n.
Proof.
  intros Hu Hall Hl [c Hc]. destruct ruleList as [|t rest]; [discriminate|].
  apply Forall_cons in Hall as [[r E] Hall]. unfold selectListed in Hl. unfold selectRule.
  rewrite E in *. injection Hl as Hl.
  rewrite (ruleLoop_spec rules source state fuel rest t r 0 noBest Hall), Hl.
  destruct (Nat.ltb n (1 + length rest)); [reflexivity|].
  unfold pastEnd. destruct (getProperty rules "undefined") as [u|] eqn:Eu; [|reflexivity].
  rewrite Hc, (Hu u eq_refl). reflexivity.
Qed.

(** ** The parse loop *)

Lemma nestedParseLoop_empty rules ruleList fuel result st :
  nestedParseLoop rules ruleList fuel "" result st = Done result st.
Proof. destruct fuel; reflexivity. Qed.

Lemma nestedParseLoop_step rules ruleList fuel a s result st :
  nestedParseLoop rules ruleList (S fuel) (String a s) result st =
  match selectRule rules ruleList fuel (String a s) (state st) with
  | WalkTypeError => Throw TypeError
  | WalkUnmodelled => Unmodelled
  | WalkOutOfFuel => OutOfFuel
  | WalkEnds best _ =>
      match winner best with
      | None => Throw (NoMatchingRule (last ruleList) (String a s))
      | Some (ruleType, rule, capture) =>
          if unanchored capture then Throw UnanchoredCapture
          else applyRule (nestedParseLoop rules ruleList fuel)
                 ruleType rule capture (String a s) result st
      end
  end.
Proof. reflexivity. Qed.

Lemma consult_fail t r source state b :
  match' r source state = None -> consult (Some t) r source state b = b.
Proof. intros H. unfold consult. rewrite H. reflexivity. Qed.

(** When no rule recognizes the source, the walk ends as it began. *)
Lemma listedLoop_all_fail rules source state rest : forall t r i b0,
  match' r source state = None ->
  (forall t' r', t' ∈ rest -> getProperty rules t' = Some r' ->
                 match' r' source state = None) ->
  fst (listedLoop rules source state t r rest i b0) = b0.
Proof.
  induction rest as [|t1 rest IH]; intros t r i b0 Hr Hrest; simpl.
  - apply consult_fail, Hr.
  - rewrite (consult_fail _ _ _ _ _ Hr).
    destruct (getProperty rules t1) as [r1|] eqn:E1; [|reflexivity].
    assert (H1 : match' r1 source state = None)
      by (apply (Hrest t1); [apply list_elem_of_here | assumption]).
    destruct (capture b0), (quality r1); try reflexivity;
      (apply IH; [assumption | intros t' r' Hin; apply Hrest; apply list_elem_of_further, Hin]).
Qed.

(** The rule the walk returns is a rule of the rule object. *)
Lemma consult_rule t r source state b r' :
  rule (consult (Some t) r source state b) = Some r' -> r' = r \/ rule b = Some r'.
Proof.
  unfold consult. destruct (match' r source state); [|auto].
  destruct (negb _); simpl; [|auto]. intros [= <-]. auto.
Qed.

Lemma listedLoop_rule rules source state rest : forall t r i b0 r',
  getProperty rules t = Some r ->
  rule (fst (listedLoop rules source state t r rest i b0)) = Some r' ->
  rule b0 = Some r' \/ exists t', getProperty rules t' = Some r'.
Proof.
  induction rest as [|t1 rest IH]; intros t r i b0 r' Hr H; simpl in H.
  - apply consult_rule in H as [->|H]; eauto.
  - destruct (getProperty rules t1) as [r1|] eqn:E1.
    + destruct (capture (consult (Some t) r source state b0)), (quality r1); simpl in H;
        try (apply consult_rule in H as [->|H]; eauto; fail);
        (destruct (IH _ _ _ _ _ E1 H) as [H'|H']; [|auto];
         apply consult_rule in H' as [->|H']; eauto).
    + apply consult_rule in H as [->|H]; eauto.
Qed.

Lemma selectListed_rule rules ruleList source state b n r :
  selectListed rules ruleList source state = Some (b, n) ->
  rule b = Some r -> exists t, getProperty rules t = Some r.
Proof.
  unfold selectListed. destruct ruleList as [|t rest]; [discriminate|].
  destruct (getProperty rules t) as [r0|] eqn:E; [|discriminate].
  intros [= Hb] Hr.
  assert (Hf : rule (fst (listedLoop rules source state t r0 rest 0 noBest)) = Some r)
    by (rewrite Hb; exact Hr).
  apply listedLoop_rule in Hf as [Hf|Hf]; [discriminate | assumption | assumption].
Qed.

Lemma winner_inv b t r c :
  winner b = Some (t, r, c) ->
  rule b = Some r /\ capture b = Some c /\ ruleType b = Some t /\ t <> "".
Proof.
  unfold winner. destruct (rule b), (capture b), (ruleType b) as [t'|]; try discriminate.
  destruct (String.eqb t' "") eqn:E; [discriminate|].
  intros [= <- <- <-]. repeat split; try reflexivity.
  intros ->. discriminate.
Qed.

(** ** Node types along a parse *)

Lemma typesKept_refl st : typesKept st st.
Proof. intros l n H _. eauto. Qed.

Lemma typesKept_trans st1 st2 st3 :
  typesKept st1 st2 -> typesKept st2 st3 -> typesKept st1 st3.
Proof.
  intros H12 H23 l n Hl Ht.
  destruct (H12 l n Hl Ht) as (n2 & Hl2 & E2).
  destruct (H23 l n2 Hl2) as (n3 & Hl3 & E3); [rewrite E2; exact Ht|].
  exists n3. split; [assumption | congruence].
Qed.

Lemma typesKept_isTextNode st st' l n :
  typesKept st st' -> heap st !! l = Some n -> truthy (get n "type") = true ->
  isTextNode (heap st') l = isTextNode (heap st) l.
Proof.
  intros HK Hl Ht. destruct (HK l n Hl Ht) as (n' & Hl' & E).
  unfold isTextNode. rewrite Hl, Hl', E. reflexivity.
Qed.

Lemma typed_kept st st' result :
  typesKept st st' -> typed (heap st) result -> typed (heap st') result.
Proof.
  intros HK HT l Hin. destruct (HT l Hin) as (n & Hl & Ht).
  destruct (HK l n Hl Ht) as (n' & Hl' & E). exists n'. split; [assumption | congruence].
Qed.

Lemma noAdjacentText_kept st st' result :
  typesKept st st' -> typed (heap st) result ->
  noAdjacentText (heap st) result -> noAdjacentText (heap st') result.
Proof.
  intros HK HT HN i l1 l2 H1 H2.
  destruct (HT l1) as (n1 & Hl1 & Ht1); [eapply list_elem_of_lookup_2; eassumption|].
  destruct (HT l2) as (n2 & Hl2 & Ht2); [eapply list_elem_of_lookup_2; eassumption|].
  rewrite (typesKept_isTextNode st st' l1 n1), (typesKept_isTextNode st st' l2 n2) by assumption.
  eapply HN; eassumption.
Qed.

Lemma typed_nil h : typed h [].
Proof. intros l Hin. apply elem_of_nil in Hin. contradiction. Qed.

Lemma noAdjacentText_nil h : noAdjacentText h [].
Proof. intros i l1 l2 H. discriminate. Qed.

(** [if (!parsed.type) parsed.type = ruleType] gives [parsed] a truthy type
    and changes no type that was one. *)
Lemma defaultType_spec parsed t st st' :
  t <> "" -> defaultType parsed t st = Done tt st' ->
  typesKept st st' /\ state st' = state st
  /\ exists n, heap st' !! parsed = Some n /\ truthy (get n "type") = true.
Proof.
  intros Ht. unfold defaultType, bind, getField, setField, ret.
  destruct (heap st !! parsed) as [n|] eqn:Hn; [|discriminate].
  destruct (truthy (get n "type")) eqn:Hty.
  - intros [= <-]. split; [apply typesKept_refl|]. split; [reflexivity|]. eauto.
  - rewrite Hn. intros [= <-]. simpl. split; [|split; [reflexivity|]].
    + intros l m Hl Hm. destruct (decide (l = parsed)) as [->|Hne].
      * rewrite Hn in Hl. injection Hl as <-. congruence.
      * exists m. simpl. rewrite list_lookup_insert_ne by congruence. auto.
    + exists (<["type" := VStr t]> n). split.
      * apply list_lookup_insert_eq. apply lookup_lt_Some in Hn. exact Hn.
      * unfold get. rewrite lookup_insert_eq. simpl.
        destruct (String.eqb t "") eqn:E; [|reflexivity].
        apply String.eqb_eq in E. contradiction.
Qed.

Lemma get_content_type (n : gmap string Value) v :
  get (<["content" := v]> n) "type" = get n "type".
Proof. unfold get. rewrite lookup_insert_ne by discriminate. reflexivity. Qed.

(** The collapse step changes no type: it either rewrites the content of the
    last node or pushes [parsed]. *)
Lemma collapse_isTextNode result parsed st result' st' l :
  collapse result parsed st = Done result' st' ->
  isTextNode (heap st') l = isTextNode (heap st) l.
Proof.
  unfold collapse. destruct (heap st !! parsed) as [n|]; [|discriminate].
  destruct (is_text (get n "type") && last_is_text result (heap st)).
  - destruct (last result) as [l0|]; [|discriminate].
    destruct (heap st !! l0) as [prev|] eqn:Hp; [|discriminate].
    destruct (js_add _ _); [|discriminate]. intros [= _ <-]. simpl.
    unfold isTextNode. destruct (decide (l = l0)) as [->|Hne].
    + rewrite list_lookup_insert_eq by (apply lookup_lt_Some in Hp; exact Hp).
      rewrite Hp, get_content_type. reflexivity.
    + rewrite list_lookup_insert_ne by congruence. reflexivity.
  - intros [= _ <-]. reflexivity.
Qed.

Lemma collapse_typesKept result parsed st result' st' :
  collapse result parsed st = Done result' st' -> typesKept st st'.
Proof.
  unfold collapse. destruct (heap st !! parsed) as [n|]; [|discriminate].
  destruct (is_text (get n "type") && last_is_text result (heap st)).
  - destruct (last result) as [l0|]; [|discriminate].
    destruct (heap st !! l0) as [prev|] eqn:Hp; [|discriminate].
    destruct (js_add _ _); [|discriminate]. intros [= _ <-]. simpl.
    intros l m Hl Hm. simpl. destruct (decide (l = l0)) as [->|Hne].
    + rewrite list_lookup_insert_eq by (apply lookup_lt_Some in Hp; exact Hp).
      rewrite Hp in Hl. injection Hl as <-.
      eexists. split; [reflexivity | apply get_content_type].
    + rewrite list_lookup_insert_ne by congruence. eauto.
  - intros [= _ <-]. apply typesKept_refl.
Qed.

Lemma last_is_text_spec result h :
  last_is_text result h = match last result with
                          | Some l => isTextNode h l
                          | None => false
                          end.
Proof. reflexivity. Qed.

Lemma collapse_result result parsed st result' st' :
  collapse result parsed st = Done result' st' ->
  (result' = result /\ isTextNode (heap st) parsed = true
   /\ exists l, last result = Some l /\ isTextNode (heap st) l = true)
  \/ (result' = result ++ [parsed]
      /\ isTextNode (heap st) parsed && last_is_text result (heap st) = false).
Proof.
  unfold collapse, isTextNode at 1 3. destruct (heap st !! parsed) as [n|]; [|discriminate].
  destruct (is_text (get n "type") && last_is_text result (heap st)) eqn:E.
  - destruct (last result) as [l0|] eqn:Hl0; [|discriminate].
    destruct (heap st !! l0) as [prev|] eqn:Hp; [|discriminate].
    destruct (js_add _ _); [|discriminate]. intros [= <- _]. left.
    apply andb_true_iff in E as [E1 E2]. split; [reflexivity|]. split; [assumption|].
    exists l0. split; [reflexivity|].
    rewrite last_is_text_spec, Hl0 in E2. exact E2.
  - intros [= <- _]. right. auto.
Qed.

(** Pushing or merging keeps the two invariants of the output sequence. *)
Lemma collapse_invariant result parsed st result' st' :
  collapse result parsed st = Done result' st' ->
  typed (heap st) result -> noAdjacentText (heap st) result ->
  (exists n, heap st !! parsed = Some n /\ truthy (get n "type") = true) ->
  typed (heap st') result' /\ noAdjacentText (heap st') result'.
Proof.
  intros HC HT HN HP.
  assert (HK := collapse_typesKept _ _ _ _ _ HC).
  assert (HI := fun l => collapse_isTextNode _ _ _ _ _ l HC).
  destruct (collapse_result _ _ _ _ _ HC) as [(-> & _) | (-> & E)].
  - split; [eapply typed_kept | eapply noAdjacentText_kept]; eassumption.
  - split.
    + intros l Hin. apply elem_of_app in Hin as [Hin|Hin].
      * eapply typed_kept; eassumption.
      * apply list_elem_of_singleton in Hin as ->.
        destruct HP as (n & Hn & Ht). destruct (HK parsed n Hn Ht) as (n' & Hn' & E').
        exists n'. split; [assumption | congruence].
    + intros i l1 l2 H1 H2. rewrite !HI.
      destruct (decide (S i < length result)) as [Hlt|Hge].
      * rewrite lookup_app_l in H1 by lia. rewrite lookup_app_l in H2 by lia.
        eapply HN; eassumption.
      * assert (Hi : S i = length result).
        { apply lookup_lt_Some in H2. rewrite length_app in H2. simpl in H2. lia. }
        rewrite lookup_app_l in H1 by lia.
        rewrite lookup_app_r in H2 by lia.
        replace (S i - length result) with 0 in H2 by lia. injection H2 as <-.
        assert (Hlast : last result = Some l1).
        { rewrite last_lookup. rewrite <- Hi. simpl. exact H1. }
        rewrite last_is_text_spec, Hlast in E. rewrite andb_comm. exact E.
Qed.

Section Invariant.

Variable rules : list (string * ParserRule).
Variable ruleList : list string.

Hypothesis rules_keep : forall t r, getProperty rules t = Some r -> keepsTypesRule r.

(** The loop keeps the types of the nodes it was given, and its output
    sequence stays typed and free of adjacent text nodes. *)
Lemma nestedParseLoop_invariant fuel : forall source result st res st',
  nestedParseLoop rules ruleList fuel source result st = Done res st' ->
  typed (heap st) result -> noAdjacentText (heap st) result ->
  typesKept st st' /\ typed (heap st') res /\ noAdjacentText (heap st') res.
Proof.
  induction fuel as [|fuel IH]; intros source result st res st' H HT HN.
  - destruct source; [|discriminate]. injection H as <- <-.
    auto using typesKept_refl.
  - destruct source as [|a s].
    { rewrite nestedParseLoop_empty in H. injection H as <- <-.
      auto using typesKept_refl. }
    rewrite nestedParseLoop_step in H.
    destruct (selectRule rules ruleList fuel (String a s) (state st)) as [best n| | |] eqn:Hsel;
      try discriminate.
    destruct (winner best) as [[[t r] c]|] eqn:Hw; [|discriminate].
    destruct (unanchored c); [discriminate|].
    apply winner_inv in Hw as (Hr & _ & _ & Ht).
    destruct (selectRule_rule _ _ _ _ _ _ _ _ Hsel Hr) as (t0 & Hget).
    unfold applyRule, bind in H.
    destruct (parse r c (fun source' => nestedParseLoop rules ruleList fuel source' []) st)
      as [parsed st1| | |] eqn:Hp; try discriminate.
    destruct (defaultType parsed t st1) as [[] st2| | |] eqn:Hd; try discriminate.
    destruct (collapse result parsed st2) as [result' st3| | |] eqn:Hc; try discriminate.
    unfold setState in H.
    destruct (group c 0) as [matched|]; [|discriminate].
    assert (K1 : typesKept st st1).
    { refine (rules_keep t0 r Hget c _ _ st parsed st1 Hp).
      intros s0 st0 a0 st0' H0.
      apply (IH s0 [] st0 a0 st0' H0 (typed_nil _) (noAdjacentText_nil _)). }
    destruct (defaultType_spec _ _ _ _ Ht Hd) as (K2 & _ & HP).
    assert (K12 := typesKept_trans _ _ _ K1 K2).
    assert (K3 := collapse_typesKept _ _ _ _ _ Hc).
    destruct (collapse_invariant _ _ _ _ _ Hc) as (HT3 & HN3);
      [eapply typed_kept; eassumption
      |eapply noAdjacentText_kept; eassumption
      |assumption|].
    apply IH in H as (K4 & HT4 & HN4); [|exact HT3|exact HN3].
    split; [|auto].
    eapply typesKept_trans; [exact K12|].
    eapply typesKept_trans; [exact K3|]. exact K4.
Qed.

End Invariant.

Lemma string_append_nil_r (s : string) : s +:+ "" = s.
Proof.
  induction s as [|a s IH]; [reflexivity|].
  change (String a (s +:+ "") = String a s). rewrite IH. reflexivity.
Qed.

Lemma string_append_assoc (s1 s2 s3 : string) : (s1 +:+ s2) +:+ s3 = s1 +:+ (s2 +:+ s3).
Proof.
  induction s1 as [|a s1 IH]; [reflexivity|].
  change (String a ((s1 +:+ s2) +:+ s3) = String a (s1 +:+ (s2 +:+ s3))).
  rewrite IH. reflexivity.
Qed.

(** Text nodes stay what they are when another node is rewritten. *)
Lemma text_nodes_frame (h : list (gmap string Value)) l0 x nodes : forall contents,
  Forall2 (fun l s => exists n, h !! l = Some n /\ get n "type" = VStr "text"
                                /\ get n "content" = VStr s) nodes contents ->
  l0 ∉ nodes ->
  Forall2 (fun l s => exists n, <[l0 := x]> h !! l = Some n /\ get n "type" = VStr "text"
                                /\ get n "content" = VStr s) nodes contents.
Proof.
  induction nodes as [|l nodes IH]; intros contents HF Hnin;
    inversion HF as [|? s ? contents' Hl HF']; subst; constructor.
  - destruct Hl as (m & Hm & Hmt & Hmc). exists m.
    rewrite list_lookup_insert_ne; [auto|].
    intros ->. apply Hnin, list_elem_of_here.
  - apply IH; [exact HF'|]. intros Hin. apply Hnin, list_elem_of_further, Hin.
Qed.

(** A run of distinct text nodes, collapsed in order onto a sequence that
    ends with a text node [l0], leaves the sequence as it is and appends
    their contents to that of [l0]. *)
Lemma collapseAll_texts nodes : forall contents result l0 s0 st,
  last result = Some l0 -> l0 ∉ nodes -> NoDup nodes ->
  (exists n, heap st !! l0 = Some n /\ get n "type" = VStr "text"
             /\ get n "content" = VStr s0) ->
  Forall2 (fun l s => exists n, heap st !! l = Some n /\ get n "type" = VStr "text"
                                /\ get n "content" = VStr s) nodes contents ->
  exists st', collapseAll result nodes st = Done result st'
    /\ exists n, heap st' !! l0 = Some n /\ get n "type" = VStr "text"
                 /\ get n "content" = VStr (s0 +:+ concat_strings contents).
Proof.
  induction nodes as [|l nodes IH]; intros contents result l0 s0 st Hlast Hnin Hnd H0 HF.
  - inversion HF; subst. exists st. split; [reflexivity|].
    destruct H0 as (n & Hn & Hty & Hc). exists n. simpl.
    rewrite string_append_nil_r. auto.
  - inversion HF as [|? s ? contents' Hl HF']; subst.
    destruct Hl as (nl & Hnl & Htl & Hcl). destruct H0 as (n0 & Hn0 & Ht0 & Hc0).
    assert (Hne : l0 <> l) by (intros ->; apply Hnin, list_elem_of_here).
    apply NoDup_cons in Hnd as [Hlnin Hnd].
    simpl. unfold bind.
    assert (Hcol : collapse result l st
                   = Done result (mkStore (state st)
                       (<[l0 := <["content" := VStr (s0 +:+ s)]> n0]> (heap st)))).
    { unfold collapse, last_is_text. rewrite Hnl, Htl, Hlast, Hn0, Ht0. simpl.
      rewrite Hc0, Hcl. reflexivity. }
    rewrite Hcol.
    destruct (IH contents' result l0 (s0 +:+ s)
                (mkStore (state st) (<[l0 := <["content" := VStr (s0 +:+ s)]> n0]> (heap st))))
      as (st' & Hrun & n' & Hn' & Ht' & Hc'); try assumption.
    + intros Hin. apply Hnin. apply list_elem_of_further, Hin.
    + exists (<["content" := VStr (s0 +:+ s)]> n0). simpl.
      split; [apply list_lookup_insert_eq; apply lookup_lt_Some in Hn0; exact Hn0|].
      split; [rewrite get_content_type; exact Ht0|].
      unfold get. rewrite lookup_insert_eq. reflexivity.
    + apply text_nodes_frame; [exact HF'|].
      intros Hin. apply Hnin. apply list_elem_of_further, Hin.
    + exists st'. split; [exact Hrun|]. exists n'. split; [exact Hn'|]. split; [exact Ht'|].
      rewrite Hc'. simpl. rewrite string_append_assoc. reflexivity.
Qed.

(** ** The forward-reference resolver *)

Lemma get_insert_eq (m : gmap string Value) k v : get (<[k := v]> m) k = v.
Proof. unfold get. rewrite lookup_insert_eq. reflexivity. Qed.

Lemma get_insert_ne (m : gmap string Value) k k' v :
  k <> k' -> get (<[k := v]> m) k' = get m k'.
Proof. intros H. unfold get. rewrite lookup_insert_ne by exact H. reflexivity. Qed.

Lemma setField_run l k v st n :
  heap st !! l = Some n ->
  setField l k v st = Done tt (mkStore (state st) (<[l := <[k := v]> n]> (heap st))).
Proof. intros H. unfold setField. rewrite H. reflexivity. Qed.

Lemma refs_or st R :
  holdsRefs st R -> js_or (get (state st) "_refs") (VObj ∅) = refsValue R.
Proof.
  intros [[-> ->] | ->]; unfold js_or, refsValue; simpl; [|reflexivity].
  rewrite fmap_empty. reflexivity.
Qed.

Lemma defs_or st D :
  holdsDefs st D -> js_or (get (state st) "_defs") (VObj ∅) = defsValue D.
Proof.
  intros [[-> ->] | ->]; unfold js_or, defsValue; simpl; [|reflexivity].
  rewrite fmap_empty. reflexivity.
Qed.

(** The tables under a name that [Object.prototype] does not provide. *)
Lemma refs_property (R : gmap string (list loc)) x :
  inherited x = false ->
  property ((fun ls => VArr (map VNode ls)) <$> R) x
  = match R !! x with
    | Some ls => Own (VArr (map VNode ls))
    | None => Missing
    end.
Proof.
  intros H. unfold property. rewrite lookup_fmap, H. destruct (R !! x); reflexivity.
Qed.

Lemma defs_property (D : gmap string (Value * Value)) x :
  inherited x = false ->
  property (defValue <$> D) x
  = match D !! x with
    | Some d => Own (defValue d)
    | None => Missing
    end.
Proof.
  intros H. unfold property. rewrite lookup_fmap, H. destruct (D !! x); reflexivity.
Qed.

Lemma defValue_target d : getProp (defValue d) "target" = fst d.
Proof. reflexivity. Qed.

Lemma defValue_title d : getProp (defValue d) "title" = snd d.
Proof. reflexivity. Qed.

(** Patching the nodes registered under a name. *)
Lemma patchRefs_run target title ls : forall st,
  (forall l, l ∈ ls -> l < length (heap st)) ->
  exists st',
    patchRefs (map VNode ls) target title st = Done tt st'
    /\ state st' = state st /\ length (heap st') = length (heap st)
    /\ (forall l, l ∈ ls -> resolved st' l (target, title))
    /\ (forall l, l ∉ ls -> heap st' !! l = heap st !! l).
Proof.
  induction ls as [|l0 ls IH]; intros st Hlt.
  - exists st. split; [reflexivity|]. split; [reflexivity|]. split; [reflexivity|].
    split; [|reflexivity]. intros l Hin. apply elem_of_nil in Hin. contradiction.
  - destruct (lookup_lt_is_Some_2 (heap st) l0 (Hlt l0 (list_elem_of_here _ _))) as [n Hn].
    simpl. unfold bind. rewrite (setField_run l0 "target" target st n Hn).
    set (st1 := mkStore (state st) (<[l0 := <["target" := target]> n]> (heap st))).
    assert (Hn1 : heap st1 !! l0 = Some (<["target" := target]> n))
      by (apply list_lookup_insert_eq; apply lookup_lt_Some in Hn; exact Hn).
    rewrite (setField_run l0 "title" title st1 _ Hn1).
    set (st2 := mkStore (state st1)
                  (<[l0 := <["title" := title]> (<["target" := target]> n)]> (heap st1))).
    assert (Hlen : length (heap st2) = length (heap st))
      by (unfold st2, st1; simpl; rewrite !length_insert; reflexivity).
    destruct (IH st2) as (st' & Hrun & Hst & Hl' & Hres & Hother).
    { intros l Hin. rewrite Hlen. apply Hlt. apply list_elem_of_further, Hin. }
    exists st'. split; [exact Hrun|]. split; [rewrite Hst; reflexivity|].
    split; [rewrite Hl'; exact Hlen|]. split.
    + intros l Hin. destruct (decide (l ∈ ls)) as [Hls|Hls]; [apply Hres, Hls|].
      apply elem_of_cons in Hin as [->|Hin]; [|contradiction].
      exists (<["title" := title]> (<["target" := target]> n)).
      split; [|split].
      * rewrite (Hother l0 Hls). unfold st2. simpl.
        apply list_lookup_insert_eq. rewrite length_insert.
        apply lookup_lt_Some in Hn. exact Hn.
      * rewrite get_insert_ne by discriminate. apply get_insert_eq.
      * apply get_insert_eq.
    + intros l Hnin. rewrite Hother.
      * unfold st2, st1. simpl.
        assert (Hne : l0 <> l) by (intros ->; apply Hnin, list_elem_of_here).
        rewrite !list_lookup_insert_ne by exact Hne. reflexivity.
      * intros Hin. apply Hnin, list_elem_of_further, Hin.
Qed.

Lemma setEntry_defs x v st D :
  holdsDefs st D -> inherited x = false ->
  setEntry "_defs" x v st
  = Done tt (mkStore (<["_defs" := VObj (<[x := v]> (defValue <$> D))]> (state st)) (heap st)).
Proof.
  intros H Hx. unfold setEntry, bind, getState. rewrite (defs_or st D H).
  unfold defsValue. rewrite (defs_property D x Hx). destruct (D !! x); reflexivity.
Qed.

Lemma useDef_run x l st D :
  holdsDefs st D -> inherited x = false -> l < length (heap st) ->
  exists h1,
    useDef x l st = Done tt (mkStore (state st) h1)
    /\ length h1 = length (heap st)
    /\ (forall l', l' <> l -> h1 !! l' = heap st !! l')
    /\ (forall d, D !! x = Some d ->
          exists n', h1 !! l = Some n' /\ get n' "target" = fst d /\ get n' "title" = snd d).
Proof.
  intros HD Hx Hl. destruct (lookup_lt_is_Some_2 (heap st) l Hl) as [n Hn].
  unfold useDef, bind. unfold getState at 1.
  destruct HD as [[HD ->] | HD]; rewrite HD.
  - exists (heap st). destruct st. split; [reflexivity|]. split; [reflexivity|].
    split; [reflexivity|]. intros d Hd. rewrite lookup_empty in Hd. discriminate Hd.
  - unfold defsValue. rewrite (defs_property D x Hx).
    destruct (D !! x) as [d|].
    + cbn [truthy defValue]. rewrite defValue_target, defValue_title.
      rewrite (setField_run l "target" (fst d) st n Hn).
      set (st1 := mkStore (state st) (<[l := <["target" := fst d]> n]> (heap st))).
      assert (Hn1 : heap st1 !! l = Some (<["target" := fst d]> n))
        by (apply list_lookup_insert_eq; exact Hl).
      rewrite (setField_run l "title" (snd d) st1 _ Hn1).
      eexists. split; [reflexivity|]. simpl. split; [rewrite !length_insert; reflexivity|].
      split.
      * intros l' Hne. rewrite !list_lookup_insert_ne by congruence. reflexivity.
      * intros d' [= <-]. eexists. split.
        -- apply list_lookup_insert_eq. rewrite length_insert. exact Hl.
        -- split; [rewrite get_insert_ne by discriminate|]; apply get_insert_eq.
    + exists (heap st). destruct st. split; [reflexivity|]. split; [reflexivity|].
      split; [reflexivity|]. intros d Hd. discriminate Hd.
Qed.

Lemma awaitDef_run x l st R :
  holdsRefs st R -> inherited x = false ->
  exists s1,
    awaitDef x l st = Done tt (mkStore s1 (heap st))
    /\ get s1 "_refs" = refsValue (<[x := refsAt R x ++ [l]]> R)
    /\ get s1 "_defs" = get (state st) "_defs".
Proof.
  intros HR Hx. unfold awaitDef, bind. unfold getState at 1.
  rewrite (refs_or st R HR). unfold refsValue at 1. rewrite (refs_property R x Hx).
  unfold refsAt.
  destruct (R !! x) as [ls|]; cbn [truthy]; unfold setState;
    (eexists; split; [reflexivity|]; simpl; split;
     [rewrite get_insert_eq; unfold refsValue; rewrite fmap_insert, ?map_app; reflexivity
     |rewrite !get_insert_ne by discriminate; reflexivity]).
Qed.

Lemma parseRef_run c l x st R D :
  holdsRefs st R -> holdsDefs st D -> refName c = Some x -> inherited x = false ->
  l < length (heap st) ->
  exists st',
    parseRef c l st = Done l st'
    /\ holdsRefs st' (<[x := refsAt R x ++ [l]]> R) /\ holdsDefs st' D
    /\ length (heap st') = length (heap st)
    /\ (forall l', l' <> l -> heap st' !! l' = heap st !! l')
    /\ (forall d, D !! x = Some d -> resolved st' l d).
Proof.
  intros HR HD Hname Hx Hl.
  destruct (useDef_run x l st D HD Hx Hl) as (h1 & Huse & Hlen & Hother & Hres).
  destruct (awaitDef_run x l (mkStore (state st) h1) R HR Hx) as (s1 & Hawait & Hrefs & Hdefs).
  unfold parseRef, bind, must. rewrite Hname. unfold ret at 1.
  rewrite Huse, Hawait. eexists. split; [reflexivity|]. simpl.
  split; [right; exact Hrefs|]. split.
  { destruct HD as [[HD ->] | HD]; [left | right]; simpl in *; rewrite Hdefs; auto. }
  split; [exact Hlen|]. split; [exact Hother|].
  intros d Hd. destruct (Hres d Hd) as (n' & Hn' & Ht & Hti). exists n'. auto.
Qed.

Lemma patchAwaiting_run x target title st R :
  holdsRefs st R -> inherited x = false ->
  (forall l, l ∈ refsAt R x -> l < length (heap st)) ->
  exists st',
    patchAwaiting x target title st = Done tt st'
    /\ state st' = state st /\ length (heap st') = length (heap st)
    /\ (forall l, l ∈ refsAt R x -> resolved st' l (target, title))
    /\ (forall l, l ∉ refsAt R x -> heap st' !! l = heap st !! l).
Proof.
  intros HR Hx Hlt. unfold patchAwaiting, bind. unfold getState at 1.
  assert (Hnone : forall ls : list loc, ls = [] ->
            (forall l, l ∈ ls -> l < length (heap st)) ->
            exists st', Done tt st = Done tt st'
              /\ state st' = state st /\ length (heap st') = length (heap st)
              /\ (forall l, l ∈ ls -> resolved st' l (target, title))
              /\ (forall l, l ∉ ls -> heap st' !! l = heap st !! l)).
  { intros ls -> _. exists st. split; [reflexivity|]. split; [reflexivity|].
    split; [reflexivity|]. split; [|reflexivity].
    intros l Hin. apply elem_of_nil in Hin. contradiction. }
  unfold refsAt in *.
  destruct HR as [[HR ->] | HR]; rewrite HR.
  - rewrite lookup_empty in *. apply Hnone; [reflexivity | exact Hlt].
  - unfold refsValue. rewrite (refs_property R x Hx).
    destruct (R !! x) as [ls|]; cbn [truthy].
    + apply patchRefs_run. exact Hlt.
    + apply Hnone; [reflexivity | exact Hlt].
Qed.

Lemma parseDef_run c p x st R D :
  holdsRefs st R -> holdsDefs st D -> defName c = Some x -> inherited x = false ->
  (forall l, l ∈ refsAt R x -> l < length (heap st)) ->
  exists d st',
    parseDef c p st = Done d st'
    /\ holdsRefs st' R
    /\ holdsDefs st' (<[x := (str (group c 2), str (group c 3))]> D)
    /\ length (heap st') = S (length (heap st))
    /\ (forall l, l ∈ refsAt R x -> resolved st' l (str (group c 2), str (group c 3)))
    /\ (forall l, l ∉ refsAt R x -> l < length (heap st) -> heap st' !! l = heap st !! l).
Proof.
  intros HR HD Hname Hx Hlt.
  destruct (patchAwaiting_run x (str (group c 2)) (str (group c 3)) st R HR Hx Hlt)
    as (st1 & Hpatch & Hst & Hlen & Hres & Hother).
  assert (HD1 : holdsDefs st1 D) by (unfold holdsDefs in *; rewrite Hst; exact HD).
  unfold parseDef, bind, must. rewrite Hname. unfold ret at 1.
  rewrite Hpatch. rewrite (setEntry_defs x _ st1 D HD1 Hx). unfold alloc. simpl.
  eexists. eexists. split; [reflexivity|]. simpl.
  split; [|split; [|split; [|split]]].
  - unfold holdsRefs in *. simpl. rewrite get_insert_ne by discriminate.
    rewrite Hst. exact HR.
  - right. simpl. rewrite get_insert_eq. unfold defsValue. rewrite fmap_insert. reflexivity.
  - rewrite length_app. simpl. lia.
  - intros l Hin. destruct (Hres l Hin) as (n & Hn & Ht & Hti). exists n.
    split; [|auto]. simpl.
    rewrite lookup_app_l by (apply lookup_lt_Some in Hn; exact Hn). exact Hn.
  - intros l Hnin Hl. simpl. rewrite lookup_app_l by lia. apply Hother, Hnin.
Qed.

Lemma refNodes_app es1 es2 : refNodes (es1 ++ es2) = refNodes es1 ++ refNodes es2.
Proof.
  induction es1 as [|[c l|c] es1 IH]; simpl; [reflexivity | rewrite IH; reflexivity | exact IH].
Qed.

Lemma refNodesOf_app x es1 es2 :
  refNodesOf x (es1 ++ es2) = refNodesOf x es1 ++ refNodesOf x es2.
Proof.
  induction es1 as [|[c l|c] es1 IH]; simpl; [reflexivity | | exact IH].
  destruct (decide (refName c = Some x)); simpl; rewrite IH; reflexivity.
Qed.

Lemma lastDef_app x es1 es2 d : lastDef x (es1 ++ es2) d = lastDef x es2 (lastDef x es1 d).
Proof.
  revert d. induction es1 as [|[c l|c] es1 IH]; intros d; simpl; [reflexivity | apply IH | apply IH].
Qed.

Lemma refNodesOf_elem x es l :
  l ∈ refNodesOf x es <-> exists c, SeeRef c l ∈ es /\ refName c = Some x.
Proof.
  induction es as [|[c0 l0|c0] es IH]; simpl.
  - split; [intros H; apply elem_of_nil in H; contradiction|].
    intros (c & H & _). apply elem_of_nil in H. contradiction.
  - destruct (decide (refName c0 = Some x)) as [E|E].
    + rewrite elem_of_cons, IH. split.
      * intros [-> | (c & Hin & Hc)];
          [exists c0; split; [apply list_elem_of_here | exact E]
          |exists c; split; [apply list_elem_of_further, Hin | exact Hc]].
      * intros (c & Hin & Hc). apply elem_of_cons in Hin as [[= -> ->] | Hin]; eauto.
    + rewrite IH. split.
      * intros (c & Hin & Hc). exists c. split; [apply list_elem_of_further, Hin | exact Hc].
      * intros (c & Hin & Hc). apply elem_of_cons in Hin as [[= -> ->] | Hin]; [contradiction | eauto].
  - rewrite IH. split.
    + intros (c & Hin & Hc). exists c. split; [apply list_elem_of_further, Hin | exact Hc].
    + intros (c & Hin & Hc). apply elem_of_cons in Hin as [Hin | Hin]; [discriminate Hin | eauto].
Qed.

Lemma refNodes_elem es l : l ∈ refNodes es <-> exists c, SeeRef c l ∈ es.
Proof.
  induction es as [|[c0 l0|c0] es IH]; simpl.
  - split; [intros H; apply elem_of_nil in H; contradiction|].
    intros (c & H). apply elem_of_nil in H. contradiction.
  - rewrite elem_of_cons, IH. split.
    + intros [-> | (c & Hin)]; [exists c0; apply list_elem_of_here
                               | exists c; apply list_elem_of_further, Hin].
    + intros (c & Hin). apply elem_of_cons in Hin as [[= -> ->] | Hin]; eauto.
  - rewrite IH. split.
    + intros (c & Hin). exists c. apply list_elem_of_further, Hin.
    + intros (c & Hin). apply elem_of_cons in Hin as [Hin | Hin]; [discriminate Hin | eauto].
Qed.

(** A node stands for one reference, so it is registered under one name. *)
Lemma refNodesOf_one_name es : forall x y l,
  NoDup (refNodes es) -> l ∈ refNodesOf x es -> l ∈ refNodesOf y es -> x = y.
Proof.
  induction es as [|[c0 l0|c0] es IH]; intros x y l Hnd Hx Hy; simpl in *.
  - apply elem_of_nil in Hx. contradiction.
  - apply NoDup_cons in Hnd as [Hl0 Hnd].
    assert (Hin : forall z, l0 ∈ refNodesOf z es -> False).
    { intros z Hz. apply Hl0. apply refNodes_elem.
      apply refNodesOf_elem in Hz as (c & Hc & _). eauto. }
    destruct (decide (refName c0 = Some x)) as [Ex|Ex],
             (decide (refName c0 = Some y)) as [Ey|Ey].
    + congruence.
    + apply elem_of_cons in Hx as [-> | Hx]; [exfalso; eapply Hin; exact Hy | eauto].
    + apply elem_of_cons in Hy as [-> | Hy]; [exfalso; eapply Hin; exact Hx | eauto].
    + eauto.
  - eauto.
Qed.

Lemma refsAt_insert_eq (R : gmap string (list loc)) x ls : refsAt (<[x := ls]> R) x = ls.
Proof. unfold refsAt. rewrite lookup_insert_eq. reflexivity. Qed.

Lemma refsAt_insert_ne (R : gmap string (list loc)) x y ls :
  x <> y -> refsAt (<[x := ls]> R) y = refsAt R y.
Proof. intros H. unfold refsAt. rewrite lookup_insert_ne by exact H. reflexivity. Qed.

Lemma seeEvents_run es : forall pre st,
  resolvedSoFar pre st ->
  NoDup (refNodes (pre ++ es)) ->
  (forall l, l ∈ refNodes (pre ++ es) -> l < length (heap st)) ->
  (forall e, e ∈ es -> ordinaryName e) ->
  exists st', seeEvents es st = Done tt st' /\ resolvedSoFar (pre ++ es) st'.
Proof.
  induction es as [|e es IH]; intros pre st Hinv Hnd Hlt Hnamed.
  - exists st. rewrite app_nil_r. split; [reflexivity | exact Hinv].
  - destruct (Hnamed e (list_elem_of_here _ _)) as (x & Hx & Hord).
    destruct Hinv as (R & D & HR & HD & HRx & HDx & Hres).
    assert (Hnd' : NoDup (refNodes pre ++ refNodes [e] ++ refNodes es)).
    { rewrite <- !refNodes_app. exact Hnd. }
    assert (Hstep : exists st1,
               seeEvent e st = Done tt st1 /\ resolvedSoFar (pre ++ [e]) st1
               /\ length (heap st) <= length (heap st1)).
    { destruct e as [c l | c]; simpl in Hx.
      - (* a reference *)
        assert (Hl : l < length (heap st)).
        { apply Hlt. rewrite refNodes_app. apply elem_of_app. right. apply list_elem_of_here. }
        destruct (parseRef_run c l x st R D HR HD Hx Hord Hl)
          as (st1 & Hrun & HR1 & HD1 & Hlen & Hother & Hnew).
        exists st1. simpl. unfold bind. rewrite Hrun. split; [reflexivity|]. split; [|lia].
        exists (<[x := refsAt R x ++ [l]]> R), D.
        split; [exact HR1|]. split; [exact HD1|]. split; [|split].
        + intros y. rewrite refNodesOf_app. simpl.
          destruct (decide (refName c = Some y)) as [E|E].
          * assert (y = x) as -> by congruence.
            rewrite refsAt_insert_eq, HRx. reflexivity.
          * rewrite refsAt_insert_ne by congruence. rewrite HRx, app_nil_r. reflexivity.
        + intros y. rewrite lastDef_app. simpl. apply HDx.
        + intros c' l' y d Hin Hy Hd. rewrite lastDef_app in Hd. simpl in Hd.
          apply elem_of_app in Hin as [Hin | Hin].
          * destruct (Hres c' l' y d Hin Hy Hd) as (n & Hn & Ht & Hti).
            exists n. split; [|auto]. rewrite Hother; [exact Hn|].
            intros ->. apply NoDup_app in Hnd' as (_ & Hdisj & _).
            apply (Hdisj l); [apply refNodes_elem; eauto|].
            simpl. apply list_elem_of_here.
          * apply list_elem_of_singleton in Hin. injection Hin as -> ->.
            assert (y = x) as -> by congruence.
            apply Hnew. rewrite HDx. exact Hd.
      - (* a definition *)
        assert (Hls : forall l, l ∈ refsAt R x -> l < length (heap st)).
        { intros l Hl. apply Hlt. rewrite refNodes_app. apply elem_of_app. left.
          rewrite HRx in Hl. apply refNodesOf_elem in Hl as (c0 & Hc0 & _).
          apply refNodes_elem. eauto. }
        destruct (parseDef_run c (fun _ => ret []) x st R D HR HD Hx Hord Hls)
          as (dn & st1 & Hrun & HR1 & HD1 & Hlen & Hnew & Hother).
        exists st1. simpl. unfold bind. rewrite Hrun. split; [reflexivity|]. split; [|lia].
        exists R, (<[x := (str (group c 2), str (group c 3))]> D).
        split; [exact HR1|]. split; [exact HD1|]. split; [|split].
        + intros y. rewrite refNodesOf_app. simpl. rewrite app_nil_r. apply HRx.
        + intros y. rewrite lastDef_app. simpl.
          destruct (decide (defName c = Some y)) as [E|E].
          * assert (y = x) as -> by congruence. apply lookup_insert_eq.
          * rewrite lookup_insert_ne by congruence. apply HDx.
        + intros c' l' y d Hin Hy Hd. rewrite lastDef_app in Hd. simpl in Hd.
          apply elem_of_app in Hin as [Hin | Hin];
            [|apply list_elem_of_singleton in Hin; discriminate Hin].
          assert (Hl'y : l' ∈ refNodesOf y pre) by (apply refNodesOf_elem; eauto).
          destruct (decide (defName c = Some y)) as [E|E].
          * assert (y = x) as -> by congruence. injection Hd as <-.
            apply Hnew. rewrite HRx. exact Hl'y.
          * destruct (Hres c' l' y d Hin Hy Hd) as (n & Hn & Ht & Hti).
            exists n. split; [|auto]. rewrite Hother; [exact Hn | | ].
            -- rewrite HRx. intros Hl'x.
               assert (x = y).
               { eapply (refNodesOf_one_name pre); [|exact Hl'x|exact Hl'y].
                 apply NoDup_app in Hnd' as (Hpre & _). exact Hpre. }
               congruence.
            -- apply lookup_lt_Some in Hn. exact Hn. }
    destruct Hstep as (st1 & Hrun & Hinv1 & Hlen).
    destruct (IH (pre ++ [e]) st1 Hinv1) as (st' & Hrest & Hinv').
    + rewrite <- app_assoc. exact Hnd.
    + intros l Hl. rewrite <- app_assoc in Hl. specialize (Hlt l Hl). simpl in Hlt. lia.
    + intros e' He'. apply Hnamed. apply list_elem_of_further, He'.
    + exists st'. simpl. unfold bind. rewrite Hrun. split; [exact Hrest|].
      rewrite <- app_assoc in Hinv'. exact Hinv'.
Qed.

(** ** The cursor, and runs of text matches *)

Lemma substring_from_app (pre rest : string) n :
  String.length pre = n -> substring_from n (pre +:+ rest) = rest.
Proof.
  revert n. induction pre as [|a pre IH]; intros n <-; [reflexivity|].
  change (substring_from (String.length pre) (pre +:+ rest) = rest). apply IH. reflexivity.
Qed.

Lemma substring_from_short (s : string) n :
  String.length s <= n -> substring_from n s = "".
Proof.
  revert n. induction s as [|a s IH]; intros n H.
  - destruct n; reflexivity.
  - destruct n as [|n]; [simpl in H; lia|]. simpl. apply IH. simpl in H. lia.
Qed.

(** One iteration whose winner builds text: the node the builder allocates is
    a text node holding [capture[0]] when its type has been defaulted. *)
Lemma buildsText_run t r c p st :
  buildsText t r ->
  exists n,
    (let* parsed := parse r c p in
     let* _ := defaultType parsed t in ret parsed) st
    = Done (length (heap st)) (mkStore (state st) (heap st ++ [n]))
    /\ get n "type" = VStr "text" /\ get n "content" = str (group c 0).
Proof.
  intros Hb. destruct (Hb c p st) as (n & Hp & Hc & Ht).
  unfold bind. rewrite Hp. unfold alloc, defaultType, bind, getField. simpl.
  rewrite lookup_app_r by lia. rewrite Nat.sub_diag. simpl.
  destruct Ht as [Ht | [Ht ->]]; rewrite Ht; simpl.
  - exists n. auto.
  - unfold setField. simpl. rewrite lookup_app_r by lia. rewrite Nat.sub_diag. simpl.
    exists (<["type" := VStr "text"]> n). split; [|split].
    + f_equal. f_equal. rewrite insert_app_r_alt by lia. rewrite Nat.sub_diag. reflexivity.
    + apply get_insert_eq.
    + rewrite get_insert_ne by discriminate. exact Hc.
Qed.

Section TextRun.

Variable rules : list (string * ParserRule).
Variable ruleList : list string.

Hypothesis builders : forall t r, getProperty rules t = Some r -> buildsText t r.
Hypothesis recognizers : forall t r, getProperty rules t = Some r -> capturesPrefix r.

(** One iteration: the winner builds a text node of what it captured, and
    the loop goes on after the capture. *)
Lemma textRun_iteration fuel source result st :
  source <> "" ->
  (exists e, nestedParseLoop rules ruleList (S fuel) source result st = Throw e)
  \/ nestedParseLoop rules ruleList (S fuel) source result st = Unmodelled
  \/ nestedParseLoop rules ruleList (S fuel) source result st = OutOfFuel
  \/ exists n matched rest c,
       get n "type" = VStr "text" /\ get n "content" = VStr matched
       /\ source = matched +:+ rest
       /\ nestedParseLoop rules ruleList (S fuel) source result st
          = (let* result' := collapse result (length (heap st)) in
             let* _ := setState "prevCapture" (VCapture c) in
             nestedParseLoop rules ruleList fuel rest result')
              (mkStore (state st) (heap st ++ [n])).
Proof.
  intros Hs. destruct source as [|a s]; [contradiction|].
  rewrite nestedParseLoop_step.
  destruct (selectRule rules ruleList fuel (String a s) (state st)) as [best n0| | |] eqn:Hsel;
    [|left; eauto|right; left; reflexivity|right; right; left; reflexivity].
  destruct (winner best) as [[[t r] c]|] eqn:Hw; [|left; eauto].
  destruct (unanchored c); [left; eauto|].
  destruct (selectRule_winner_rule _ _ _ _ _ _ _ _ _ _ Hsel Hw) as [Hr Hm].
  destruct (recognizers t r Hr _ _ _ Hm) as (matched & rest & Hg & Hsrc).
  destruct (buildsText_run t r c (fun source' => nestedParseLoop rules ruleList fuel source' [])
              st (builders t r Hr)) as (n & Hrun & Ht & Hc).
  right. right. right. exists n, matched, rest, c.
  split; [exact Ht|]. split; [rewrite Hc, Hg; reflexivity|]. split; [exact Hsrc|].
  unfold applyRule. unfold bind in *.
  destruct (parse r c (fun source' => nestedParseLoop rules ruleList fuel source' []) st)
    as [parsed st1| | |]; try discriminate Hrun.
  destruct (defaultType parsed t st1) as [[] st2| | |]; try discriminate Hrun.
  injection Hrun as -> ->.
  destruct (collapse result _ _) as [result' st3| | |]; try reflexivity.
  unfold setState. rewrite Hg, Hsrc.
  rewrite (substring_from_app matched rest _ eq_refl). reflexivity.
Qed.

(** Once the output is one text node, it stays that node, and what the loop
    consumes is appended to its content. *)
Lemma textRun_rest fuel : forall source l0 st res st' n0 acc,
  nestedParseLoop rules ruleList fuel source [l0] st = Done res st' ->
  heap st !! l0 = Some n0 -> get n0 "type" = VStr "text" -> get n0 "content" = VStr acc ->
  res = [l0]
  /\ exists n, heap st' !! l0 = Some n /\ get n "type" = VStr "text"
               /\ get n "content" = VStr (acc +:+ source).
Proof.
  induction fuel as [|fuel IH]; intros source l0 st res st' n0 acc H Hl0 Ht0 Hc0.
  - destruct source; [|discriminate]. injection H as <- <-.
    split; [reflexivity|]. exists n0. rewrite string_append_nil_r. auto.
  - destruct (string_dec source "") as [->|Hs].
    { rewrite nestedParseLoop_empty in H. injection H as <- <-.
      split; [reflexivity|]. exists n0. rewrite string_append_nil_r. auto. }
    destruct (textRun_iteration fuel source [l0] st Hs)
      as [[e He] | [He | [He | (n & matched & rest & c & Ht & Hc & Hsrc & Hstep)]]];
      try (rewrite He in H; discriminate H).
    rewrite Hstep in H. clear Hstep.
    assert (Hlt : l0 < length (heap st)) by (apply lookup_lt_Some in Hl0; exact Hl0).
    assert (Hcol : collapse [l0] (length (heap st)) (mkStore (state st) (heap st ++ [n]))
                   = Done [l0] (mkStore (state st)
                       (<[l0 := <["content" := VStr (acc +:+ matched)]> n0]> (heap st ++ [n])))).
    { unfold collapse, last_is_text. simpl.
      rewrite lookup_app_r by lia. rewrite Nat.sub_diag. simpl. rewrite Ht.
      rewrite lookup_app_l by exact Hlt. rewrite Hl0, Ht0. simpl.
      rewrite Hc0, Hc. reflexivity. }
    unfold bind in H. rewrite Hcol in H. unfold setState in H. simpl in H.
    eapply IH in H as (-> & n' & Hn' & Ht' & Hc').
    + split; [reflexivity|]. exists n'. split; [exact Hn'|]. split; [exact Ht'|].
      rewrite Hc', Hsrc, string_append_assoc. reflexivity.
    + simpl. apply list_lookup_insert_eq. rewrite length_app. simpl. lia.
    + rewrite get_content_type. exact Ht0.
    + apply get_insert_eq.
Qed.

(** A parse in which every match builds text returns one text node, and its
    content is the source. *)
Lemma textRun fuel source st res st' :
  source <> "" ->
  nestedParse rules ruleList fuel source st = Done res st' ->
  res = [length (heap st)]
  /\ exists n, heap st' !! length (heap st) = Some n /\ get n "type" = VStr "text"
               /\ get n "content" = VStr source.
Proof.
  intros Hs H. unfold nestedParse in H.
  destruct fuel as [|fuel]; [destruct source; [contradiction | discriminate]|].
  destruct (textRun_iteration fuel source [] st Hs)
    as [[e He] | [He | [He | (n & matched & rest & c & Ht & Hc & Hsrc & Hstep)]]];
    try (rewrite He in H; discriminate H).
  rewrite Hstep in H. clear Hstep.
  assert (Hcol : collapse [] (length (heap st)) (mkStore (state st) (heap st ++ [n]))
                 = Done [length (heap st)] (mkStore (state st) (heap st ++ [n]))).
  { unfold collapse, last_is_text. simpl.
    rewrite lookup_app_r by lia. rewrite Nat.sub_diag. simpl.
    rewrite andb_false_r. reflexivity. }
  unfold bind in H. rewrite Hcol in H. unfold setState in H. simpl in H.
  eapply textRun_rest in H as (-> & n' & Hn' & Ht' & Hc').
  - split; [reflexivity|]. exists n'. split; [exact Hn'|]. split; [exact Ht'|].
    rewrite Hc', Hsrc. reflexivity.
  - simpl. rewrite lookup_app_r by lia. rewrite Nat.sub_diag. reflexivity.
  - exact Ht.
  - exact Hc.
Qed.

Hypothesis selects : alwaysSelects rules ruleList.

Lemma textRun_progress fuel source result st :
  source <> "" ->
  exists n matched rest c,
    get n "type" = VStr "text" /\ get n "content" = VStr matched
    /\ source = matched +:+ rest /\ matched <> ""
    /\ nestedParseLoop rules ruleList (S fuel) source result st
       = (let* result' := collapse result (length (heap st)) in
          let* _ := setState "prevCapture" (VCapture c) in
          nestedParseLoop rules ruleList fuel rest result')
           (mkStore (state st) (heap st ++ [n])).
Proof.
  intros Hs.
  destruct (selects fuel source (state st) Hs)
    as (best & n0 & t & r & c & matched & Hsel & Hw & Hu & Hg & Hne).
  destruct (selectRule_winner_rule _ _ _ _ _ _ _ _ _ _ Hsel Hw) as [Hr Hm].
  destruct (recognizers t r Hr _ _ _ Hm) as (matched' & rest & Hg' & Hsrc).
  rewrite Hg in Hg'. injection Hg' as <-.
  destruct (buildsText_run t r c (fun source' => nestedParseLoop rules ruleList fuel source' [])
              st (builders t r Hr)) as (n & Hrun & Ht & Hc).
  exists n, matched, rest, c.
  split; [exact Ht|]. split; [rewrite Hc, Hg; reflexivity|]. split; [exact Hsrc|].
  split; [exact Hne|].
  destruct source as [|a s]; [contradiction|].
  rewrite nestedParseLoop_step, Hsel, Hw, Hu.
  unfold applyRule. unfold bind in *.
  destruct (parse r c (fun source' => nestedParseLoop rules ruleList fuel source' []) st)
    as [parsed st1| | |]; try discriminate Hrun.
  destruct (defaultType parsed t st1) as [[] st2| | |]; try discriminate Hrun.
  injection Hrun as -> ->.
  destruct (collapse result _ _) as [result' st3| | |]; try reflexivity.
  unfold setState. rewrite Hg, Hsrc.
  rewrite (substring_from_app matched rest _ eq_refl). reflexivity.
Qed.

Lemma string_length_append (s1 s2 : string) :
  String.length (s1 +:+ s2) = String.length s1 + String.length s2.
Proof.
  induction s1 as [|a s1 IH]; [reflexivity|].
  change (S (String.length (s1 +:+ s2)) = S (String.length s1) + String.length s2).
  rewrite IH. reflexivity.
Qed.

Lemma textRun_rest_total fuel : forall source l0 st n0 acc,
  String.length source <= fuel ->
  heap st !! l0 = Some n0 -> get n0 "type" = VStr "text" -> get n0 "content" = VStr acc ->
  exists st',
    nestedParseLoop rules ruleList fuel source [l0] st = Done [l0] st'
    /\ exists n, heap st' !! l0 = Some n /\ get n "type" = VStr "text"
                 /\ get n "content" = VStr (acc +:+ source).
Proof.
  induction fuel as [|fuel IH]; intros source l0 st n0 acc Hlen Hl0 Ht0 Hc0.
  - destruct source; [|simpl in Hlen; lia]. exists st. split; [reflexivity|].
    exists n0. rewrite string_append_nil_r. auto.
  - destruct (string_dec source "") as [->|Hs].
    { exists st. rewrite nestedParseLoop_empty. split; [reflexivity|].
      exists n0. rewrite string_append_nil_r. auto. }
    destruct (textRun_progress fuel source [l0] st Hs)
      as (n & matched & rest & c & Ht & Hc & Hsrc & Hne & Hstep).
    rewrite Hstep. clear Hstep.
    assert (Hlt : l0 < length (heap st)) by (apply lookup_lt_Some in Hl0; exact Hl0).
    assert (Hcol : collapse [l0] (length (heap st)) (mkStore (state st) (heap st ++ [n]))
                   = Done [l0] (mkStore (state st)
                       (<[l0 := <["content" := VStr (acc +:+ matched)]> n0]> (heap st ++ [n])))).
    { unfold collapse, last_is_text. simpl.
      rewrite lookup_app_r by lia. rewrite Nat.sub_diag. simpl. rewrite Ht.
      rewrite lookup_app_l by exact Hlt. rewrite Hl0, Ht0. simpl.
      rewrite Hc0, Hc. reflexivity. }
    unfold bind. rewrite Hcol. unfold setState. simpl.
    assert (Hrest : String.length rest <= fuel).
    { rewrite Hsrc, string_length_append in Hlen.
      destruct matched; [contradiction | simpl in Hlen; lia]. }
    destruct (IH rest l0
                (mkStore (<["prevCapture" := VCapture c]> (state st))
                   (<[l0 := <["content" := VStr (acc +:+ matched)]> n0]> (heap st ++ [n])))
                (<["content" := VStr (acc +:+ matched)]> n0) (acc +:+ matched) Hrest)
      as (st' & Hrun & n' & Hn' & Ht' & Hc').
    + simpl. apply list_lookup_insert_eq. rewrite length_app. simpl. lia.
    + rewrite get_content_type. exact Ht0.
    + apply get_insert_eq.
    + exists st'. split; [exact Hrun|]. exists n'. split; [exact Hn'|]. split; [exact Ht'|].
      rewrite Hc', Hsrc, string_append_assoc. reflexivity.
Qed.

(** With fuel for one iteration per character, the parse returns. *)
Lemma textRun_total source st :
  source <> "" ->
  exists st',
    nestedParse rules ruleList (String.length source) source st
    = Done [length (heap st)] st'
    /\ exists n, heap st' !! length (heap st) = Some n /\ get n "type" = VStr "text"
                 /\ get n "content" = VStr source.
Proof.
  intros Hs. unfold nestedParse.
  destruct source as [|a s] eqn:E; [contradiction|]. rewrite <- E in *.
  assert (Hlen : String.length source = S (String.length s)) by (rewrite E; reflexivity).
  rewrite Hlen.
  destruct (textRun_progress (String.length s) source [] st Hs)
    as (n & matched & rest & c & Ht & Hc & Hsrc & Hne & Hstep).
  rewrite Hstep. clear Hstep.
  assert (Hcol : collapse [] (length (heap st)) (mkStore (state st) (heap st ++ [n]))
                 = Done [length (heap st)] (mkStore (state st) (heap st ++ [n]))).
  { unfold collapse, last_is_text. simpl.
    rewrite lookup_app_r by lia. rewrite Nat.sub_diag. simpl.
    rewrite andb_false_r. reflexivity. }
  unfold bind. rewrite Hcol. unfold setState. simpl.
  assert (Hrest : String.length rest <= String.length s).
  { rewrite Hsrc, string_length_append in Hlen.
    destruct matched; [contradiction | simpl in Hlen; lia]. }
  destruct (textRun_rest_total (String.length s) rest (length (heap st))
              (mkStore (<["prevCapture" := VCapture c]> (state st)) (heap st ++ [n]))
              n matched Hrest)
    as (st' & Hrun & n' & Hn' & Ht' & Hc'); [ | exact Ht | exact Hc |].
  - simpl. rewrite lookup_app_r by lia. rewrite Nat.sub_diag. reflexivity.
  - exists st'. split; [exact Hrun|]. exists n'. split; [exact Hn'|]. split; [exact Ht'|].
    rewrite Hc', Hsrc. reflexivity.
Qed.

End TextRun.

(** ** The registry *)

Lemma call_other r r' m (h : Registries) : r <> r' -> call r m h !! r' = h !! r'.
Proof.
  intros Hne. unfold call. destruct (h !! r) as [this|]; [|reflexivity].
  destruct (mutate m this); [reflexivity|].
  apply list_lookup_insert_ne. exact Hne.
Qed.

Lemma calls_other r r' ms : forall h : Registries, r <> r' -> calls r ms h !! r' = h !! r'.
Proof.
  induction ms as [|m ms IH]; intros h Hne; simpl; [reflexivity|].
  unfold calls in *. simpl. rewrite IH by assumption. apply call_other. exact Hne.
Qed.

(** ** The initial state *)

Lemma populateInitialState_lookup givenState defaultState prop :
  populateInitialState givenState defaultState !! prop =
  match defaultState !! prop with
  | Some v => Some v
  | None => match givenState with
            | Some s => s !! prop
            | None => None
            end
  end.
Proof.
  unfold populateInitialState.
  set (state0 := match givenState with Some s => s | None => ∅ end).
  assert (E0 : state0 !! prop = match givenState with Some s => s !! prop | None => None end)
    by (destruct givenState; [reflexivity | apply lookup_empty]).
  rewrite <- E0.
  apply (map_fold_weak_ind
           (fun (r : gmap string Value) (m : gmap string Value) =>
              r !! prop = match m !! prop with Some v => Some v | None => state0 !! prop end)).
  - rewrite lookup_empty. reflexivity.
  - intros i x m r Hi IH. destruct (decide (i = prop)) as [->|Hne].
    + rewrite !lookup_insert_eq. reflexivity.
    + rewrite !lookup_insert_ne by assumption. exact IH.
Qed.

(** ** Builders that only allocate *)

Lemma alloc_keepsTypes (n : gmap string Value) : keepsTypes (alloc n).
Proof.
  intros st l st' [= <- <-] l0 n0 Hl Ht. exists n0. simpl.
  rewrite lookup_app_l by (apply lookup_lt_Some in Hl; exact Hl). auto.
Qed.

Lemma contentOfCapture_keepsTypes name0 m q :
  keepsTypesRule (mkRule name0 m contentOfCapture q).
Proof. intros c p _. apply alloc_keepsTypes. Qed.

Lemma getProperty_singleton {V} (k : string) (v : V) t r :
  getProperty [(k, v)] t = Some r -> r = v.
Proof.
  unfold getProperty. destruct (String.eqb k t); congruence.
Qed.

(** ** The priority order of a registry

    For a registry whose names are distinct and none of which is an array
    index or ["__proto__"], the rule object lists the rules under their names
    in registry order, and [Object.keys] returns the names in that order. *)

Lemma setProperty_fresh {V} (o : list (string * V)) k v :
  k ∉ map fst o -> setProperty o k v = o ++ [(k, v)].
Proof.
  induction o as [|[k' v'] o IH]; intros Hk; simpl; [reflexivity|].
  destruct (String.eqb_spec k' k) as [->|Hne].
  - exfalso. apply Hk. simpl. apply list_elem_of_here.
  - rewrite IH; [reflexivity|]. intros Hin. apply Hk. simpl.
    apply list_elem_of_further, Hin.
Qed.

Lemma toRuleObject_acc (l : list ParserRule) : forall acc,
  NoDup (map fst acc ++ map name l) ->
  fold_left (fun result rule => setProperty result (name rule) rule) l acc
  = acc ++ map (fun r => (name r, r)) l.
Proof.
  induction l as [|r l IH]; intros acc Hnd; simpl.
  - rewrite app_nil_r. reflexivity.
  - simpl in Hnd. apply NoDup_app in Hnd as (Hacc & Hdisj & Hl).
    apply NoDup_cons in Hl as [Hr Hl].
    rewrite setProperty_fresh.
    + rewrite IH.
      * rewrite <- app_assoc. reflexivity.
      * rewrite map_app. simpl. rewrite <- app_assoc. simpl.
        apply NoDup_app. split; [exact Hacc|]. split.
        -- intros x Hx Hin. apply (Hdisj x Hx). exact Hin.
        -- apply NoDup_cons. split; assumption.
    + intros Hin. apply (Hdisj _ Hin). apply list_elem_of_here.
Qed.

Lemma toRuleObject_distinct (l : list ParserRule) :
  NoDup (map name l) -> toRuleObject l = map (fun r => (name r, r)) l.
Proof. intros Hnd. unfold toRuleObject. rewrite toRuleObject_acc; [reflexivity | exact Hnd]. Qed.

Lemma index_keys_none (ks : list string) :
  Forall (fun k => is_array_index k = false) ks -> index_keys ks = [].
Proof.
  induction 1 as [|k ks Hk _ IH]; simpl; [reflexivity|].
  unfold is_array_index in Hk. destruct (array_index k); [discriminate | exact IH].
Qed.

Lemma filter_not_index (ks : list string) :
  Forall (fun k => is_array_index k = false) ks ->
  List.filter (fun k => negb (is_array_index k)) ks = ks.
Proof.
  induction 1 as [|k ks Hk _ IH]; simpl; [reflexivity|].
  rewrite Hk. simpl. rewrite IH. reflexivity.
Qed.

Lemma own_keys_all {V} (o : list (string * V)) :
  Forall (fun k => k <> "__proto__") (map fst o) -> own_keys o = map fst o.
Proof.
  unfold own_keys. induction 1 as [|k ks Hk _ IH]; simpl; [reflexivity|].
  destruct (String.eqb_spec k "__proto__") as [E|_]; [contradiction|].
  simpl. rewrite IH. reflexivity.
Qed.

Lemma Object_keys_registry_order (l : list ParserRule) :
  NoDup (map name l) -> Forall (fun r => is_array_index (name r) = false) l ->
  Forall (fun r => name r <> "__proto__") l ->
  Object_keys (toRuleObject l) = map name l.
Proof.
  intros Hnd Hidx Hproto. rewrite toRuleObject_distinct by exact Hnd.
  unfold Object_keys. rewrite own_keys_all; rewrite map_map; simpl.
  - assert (Hks : Forall (fun k => is_array_index k = false) (map name l)).
    { apply Forall_map. exact Hidx. }
    rewrite index_keys_none, filter_not_index by exact Hks. reflexivity.
  - apply Forall_map. exact Hproto.
Qed.

Lemma getProperty_registry (l : list ParserRule) : forall j r,
  NoDup (map name l) -> l !! j = Some r ->
  getProperty (map (fun r => (name r, r)) l) (name r) = Some r.
Proof.
  induction l as [|r0 l IH]; intros j r Hnd Hj; [discriminate|].
  simpl. apply NoDup_cons in Hnd as [Hr0 Hnd].
  destruct j as [|j]; simpl in Hj.
  - injection Hj as ->. rewrite String.eqb_refl. reflexivity.
  - destruct (String.eqb_spec (name r0) (name r)) as [E|Hne].
    + exfalso. apply Hr0. rewrite E. apply list_elem_of_fmap. exists r.
      split; [reflexivity|]. eapply list_elem_of_lookup_2. exact Hj.
    + eapply IH; eassumption.
Qed.

(** In such a registry, the rule at index [j] of the priority order is the
    rule at index [j] of the registry. *)
Lemma matchesAt_registry (l : list ParserRule) source state j t r c :
  NoDup (map name l) -> Forall (fun r => is_array_index (name r) = false) l ->
  Forall (fun r => name r <> "__proto__") l ->
  matchesAt (toRuleObject l) (Object_keys (toRuleObject l)) source state j t r c
  <-> l !! j = Some r /\ t = name r /\ match' r source state = Some c.
Proof.
  intros Hnd Hidx Hproto. unfold matchesAt.
  rewrite Object_keys_registry_order by assumption.
  rewrite toRuleObject_distinct by assumption.
  rewrite list_lookup_fmap. split.
  - intros (Ht & Hr & Hm). destruct (l !! j) as [r0|] eqn:Hj; [|discriminate].
    simpl in Ht. injection Ht as <-.
    rewrite (getProperty_registry l j r0 Hnd Hj) in Hr. injection Hr as <-. auto.
  - intros (Hj & -> & Hm). rewrite Hj. simpl. split; [reflexivity|]. split; [|exact Hm].
    eapply getProperty_registry; eassumption.
Qed.

(** The default registry is such a registry. *)
Lemma defaultRules_names_distinct : NoDup (map name defaultRules).
Proof. refine (bool_decide_unpack _ _). vm_compute. exact I. Qed.

Lemma defaultRules_no_index : Forall (fun r => is_array_index (name r) = false) defaultRules.
Proof. repeat constructor. Qed.

Lemma defaultRules_no_proto : Forall (fun r => name r <> "__proto__") defaultRules.
Proof. repeat constructor; discriminate. Qed.

Lemma defaultRules_order : Object_keys (toRuleObject defaultRules) = map name defaultRules.
Proof.
  apply Object_keys_registry_order;
    [exact defaultRules_names_distinct | exact defaultRules_no_index
    | exact defaultRules_no_proto].
Qed.

(** No default rule is named ["undefined"]: past the end of the rule list
    the walk finds no rule. *)
Lemma defaultRules_no_undefined : getProperty (toRuleObject defaultRules) "undefined" = None.
Proof. vm_compute. reflexivity. Qed.

Lemma defaultRules_lookup j r :
  defaultRules !! j = Some r -> getProperty (toRuleObject defaultRules) (name r) = Some r.
Proof.
  intros Hj. rewrite toRuleObject_distinct by exact defaultRules_names_distinct.
  eapply getProperty_registry; [exact defaultRules_names_distinct | exact Hj].
Qed.

(** ** The registry methods ([rule-list.ts]) *)

(** [findIndex] finds the first rule of the name. *)
Lemma findIndex_Some rule (l : RuleList) : forall i,
  findIndex rule l = Some i ->
  exists pre r post,
    l = pre ++ r :: post /\ length pre = i /\ name r = rule
    /\ Forall (fun r' => name r' <> rule) pre.
Proof.
  induction l as [|r0 l IH]; intros i H; simpl in H; [discriminate|].
  destruct (String.eqb_spec (name r0) rule) as [E|E].
  - injection H as <-. exists [], r0, l. auto.
  - destruct (findIndex rule l) as [j|]; [|discriminate]. injection H as <-.
    destruct (IH j eq_refl) as (pre & r & post & -> & Hlen & Hr & Hpre).
    exists (r0 :: pre), r, post. simpl. repeat split; auto.
Qed.

Lemma findIndex_None rule (l : RuleList) :
  findIndex rule l = None -> Forall (fun r' => name r' <> rule) l.
Proof.
  induction l as [|r0 l IH]; intros H; simpl in H; [constructor|].
  destruct (String.eqb_spec (name r0) rule) as [E|E]; [discriminate|].
  destruct (findIndex rule l); [discriminate|]. constructor; auto.
Qed.

Lemma findIndex_first rule (pre : RuleList) r post :
  Forall (fun r' => name r' <> rule) pre -> name r = rule ->
  findIndex rule (pre ++ r :: post) = Some (length pre).
Proof.
  intros Hpre Hr. induction Hpre as [|r0 pre Hr0 _ IH]; simpl.
  - destruct (String.eqb_spec (name r) rule); [reflexivity | contradiction].
  - destruct (String.eqb_spec (name r0) rule); [contradiction|]. rewrite IH. reflexivity.
Qed.

Lemma findIndex_absent rule (l : RuleList) :
  Forall (fun r' => name r' <> rule) l -> findIndex rule l = None.
Proof.
  induction 1 as [|r0 l Hr0 _ IH]; simpl; [reflexivity|].
  destruct (String.eqb_spec (name r0) rule); [contradiction|]. rewrite IH. reflexivity.
Qed.

Lemma splice_at (pre : RuleList) n items post :
  splice (length pre) n items (pre ++ post) = pre ++ items ++ drop n post.
Proof.
  unfold splice. rewrite take_app_length.
  rewrite <- drop_drop, drop_app_length. reflexivity.
Qed.

Lemma splice_after (pre : RuleList) r items post :
  splice (length pre + 1) 0 items (pre ++ r :: post) = pre ++ r :: items ++ post.
Proof.
  replace (pre ++ r :: post) with ((pre ++ [r]) ++ post) by (rewrite <- app_assoc; reflexivity).
  replace (length pre + 1) with (length (pre ++ [r])) by (rewrite length_app; reflexivity).
  rewrite splice_at. rewrite <- app_assoc. reflexivity.
Qed.

(** ** The rule object *)

Lemma getProperty_setProperty {V} (o : list (string * V)) k v k' :
  getProperty (setProperty o k v) k' = if String.eqb k k' then Some v else getProperty o k'.
Proof.
  induction o as [|[k0 v0] o IH]; simpl.
  - reflexivity.
  - destruct (String.eqb_spec k0 k) as [->|Hne]; simpl.
    + destruct (String.eqb_spec k k'); reflexivity.
    + rewrite IH. destruct (String.eqb_spec k0 k') as [->|]; [|reflexivity].
      destruct (String.eqb_spec k k'); [congruence | reflexivity].
Qed.

Lemma find_append {A} (f : A -> bool) (l1 l2 : list A) :
  find f (l1 ++ l2) = match find f l1 with
                      | Some x => Some x
                      | None => find f l2
                      end.
Proof.
  induction l1 as [|a l1 IH]; simpl; [reflexivity|]. destruct (f a); [reflexivity | exact IH].
Qed.

Lemma toRuleObject_lookup (l : RuleList) k : forall acc,
  getProperty (fold_left (fun result rule => setProperty result (name rule) rule) l acc) k
  = match RuleList_get k (rev l) with
    | Some r => Some r
    | None => getProperty acc k
    end.
Proof.
  unfold RuleList_get. induction l as [|r l IH]; intros acc; simpl; [reflexivity|].
  rewrite IH, find_append. 
  destruct (find (fun r0 => String.eqb (name r0) k) (rev l)); [reflexivity|].
  simpl. rewrite getProperty_setProperty. destruct (String.eqb (name r) k); reflexivity.
Qed.

(** ** The priority order ([Object.keys] of the rule object) *)

Lemma setProperty_keys {V} (o : list (string * V)) k v :
  map fst (setProperty o k v)
  = if bool_decide (k ∈ map fst o) then map fst o else map fst o ++ [k].
Proof.
  induction o as [|[k0 v0] o IH]; simpl; [reflexivity|].
  destruct (String.eqb_spec k0 k) as [->|Hne]; simpl.
  - rewrite bool_decide_eq_true_2 by apply list_elem_of_here. reflexivity.
  - rewrite IH. destruct (bool_decide_reflect (k ∈ map fst o)) as [Hin|Hin].
    + rewrite bool_decide_eq_true_2 by (apply list_elem_of_further, Hin). reflexivity.
    + rewrite bool_decide_eq_false_2; [reflexivity|].
      intros H. apply elem_of_cons in H as [H|H]; [congruence | contradiction].
Qed.

Lemma toRuleObject_keys (l : RuleList) : forall acc : list (string * ParserRule),
  NoDup (map fst acc) ->
  let o := fold_left (fun result rule => setProperty result (name rule) rule) l acc in
  NoDup (map fst o)
  /\ forall k, k ∈ map fst o <-> k ∈ map fst acc \/ k ∈ map name l.
Proof.
  induction l as [|r l IH]; intros acc Hnd; simpl.
  - split; [exact Hnd|]. intros k. rewrite elem_of_nil. tauto.
  - destruct (IH (setProperty acc (name r) r)) as [Hnd' Hk'].
    + rewrite setProperty_keys.
      destruct (bool_decide_reflect (name r ∈ map fst acc)) as [Hin|Hin]; [exact Hnd|].
      apply NoDup_app. split; [exact Hnd|]. split; [|apply NoDup_singleton].
      intros x Hx Hx'. apply list_elem_of_singleton in Hx' as ->. contradiction.
    + split; [exact Hnd'|]. intros k. rewrite Hk', setProperty_keys, elem_of_cons.
      destruct (bool_decide_reflect (name r ∈ map fst acc)) as [Hin|Hin].
      * split; [tauto|]. intros [H|[->|H]]; auto.
      * rewrite elem_of_app, list_elem_of_singleton. tauto.
Qed.

Lemma insert_index_perm k l : insert_index k l ≡ₚ k :: l.
Proof.
  induction l as [|k' l IH]; simpl; [reflexivity|].
  destruct (fst k <=? fst k')%N; [reflexivity|].
  rewrite IH. apply Permutation_swap.
Qed.

Lemma index_keys_perm ks :
  map snd (index_keys ks) ≡ₚ List.filter is_array_index ks.
Proof.
  induction ks as [|k ks IH]; simpl; [reflexivity|].
  unfold is_array_index at 1. destruct (array_index k) as [n|]; [|exact IH].
  rewrite insert_index_perm. simpl. rewrite IH. reflexivity.
Qed.

Lemma filter_split_perm {A} (f : A -> bool) (l : list A) :
  List.filter f l ++ List.filter (fun x => negb (f x)) l ≡ₚ l.
Proof.
  induction l as [|a l IH]; simpl; [reflexivity|].
  destruct (f a); simpl.
  - rewrite IH. reflexivity.
  - rewrite <- Permutation_middle, IH. reflexivity.
Qed.

Lemma Object_keys_perm {V} (o : list (string * V)) : Object_keys o ≡ₚ own_keys o.
Proof.
  unfold Object_keys. rewrite index_keys_perm. apply filter_split_perm.
Qed.

Lemma index_keys_elem ks k :
  k ∈ ks -> is_array_index k = true -> k ∈ map snd (index_keys ks).
Proof.
  intros Hin Hk. rewrite index_keys_perm. apply list_elem_of_In, filter_In.
  split; [apply list_elem_of_In, Hin | exact Hk].
Qed.

(** ** Adding a rule under a name that is taken *)

Lemma toRuleObject_add (l : RuleList) r :
  toRuleObject (add r l) = setProperty (toRuleObject l) (name r) r.
Proof. unfold toRuleObject, add. rewrite fold_left_app. reflexivity. Qed.

(** ** Whitespace normalisation ([preprocess]) *)

Lemma replace_CR_NEWLINE_eq a s :
  replace_CR_NEWLINE (String a s)
  = if Ascii.eqb a CR then
      match s with
      | String c' s'' =>
          if Ascii.eqb c' LF then String LF (replace_CR_NEWLINE s'')
          else String LF (replace_CR_NEWLINE s)
      | EmptyString => String LF EmptyString
      end
    else String a (replace_CR_NEWLINE s).
Proof. destruct s; reflexivity. Qed.

Lemma CR_NEWLINE_chars (s : string) c :
  In c (list_ascii_of_string (replace_CR_NEWLINE s)) ->
  c <> CR /\ (c = LF \/ In c (list_ascii_of_string s)).
Proof.
  remember (String.length s) as n eqn:Hn. revert s Hn.
  induction n as [n IH] using lt_wf_ind. intros s Hn.
  destruct s as [|a s]; [simpl; tauto|]. rewrite replace_CR_NEWLINE_eq.
  destruct (Ascii.eqb_spec a CR) as [->|Ha].
  - destruct s as [|b s].
    + cbn [list_ascii_of_string In]. intros [<-|[]]. split; [discriminate | auto].
    + destruct (Ascii.eqb_spec b LF) as [->|Hb]; cbn [list_ascii_of_string In].
      * intros [<-|H]; [split; [discriminate | auto]|].
        apply (IH (String.length s)) in H; [|simpl in Hn; lia | reflexivity]. tauto.
      * intros [<-|H]; [split; [discriminate | auto]|].
        apply (IH (String.length (String b s))) in H; [|simpl in *; lia | reflexivity].
        cbn [list_ascii_of_string In] in H. tauto.
  - cbn [list_ascii_of_string In]. intros [<-|H]; [split; [exact Ha | auto]|].
    apply (IH (String.length s)) in H; [|simpl in Hn; lia | reflexivity]. tauto.
Qed.

Lemma FORMFEED_chars (s : string) c :
  In c (list_ascii_of_string (replace_FORMFEED s)) ->
  c <> FF /\ In c (list_ascii_of_string s).
Proof.
  induction s as [|a s IH]; simpl; [tauto|].
  destruct (Ascii.eqb_spec a FF) as [->|Ha]; simpl.
  - intros H. apply IH in H. tauto.
  - intros [<-|H]; [auto|]. apply IH in H. tauto.
Qed.

Lemma TAB_chars (s : string) c :
  In c (list_ascii_of_string (replace_TAB s)) ->
  c <> TAB /\ (c = " "%char \/ In c (list_ascii_of_string s)).
Proof.
  induction s as [|a s IH]; simpl; [tauto|].
  destruct (Ascii.eqb_spec a TAB) as [->|Ha]; simpl.
  - intros [<-|[<-|[<-|[<-|H]]]]; try (split; [discriminate | auto]).
    apply IH in H. tauto.
  - intros [<-|H]; [auto|]. apply IH in H. tauto.
Qed.

Lemma preprocess_chars (s : string) c :
  In c (list_ascii_of_string (preprocess s)) -> c <> CR /\ c <> FF /\ c <> TAB.
Proof.
  unfold preprocess. intros H.
  apply TAB_chars in H as [Ht [->|H]]; [repeat split; discriminate|].
  apply FORMFEED_chars in H as [Hf H].
  apply CR_NEWLINE_chars in H as [Hc _]. auto.
Qed.

Lemma CR_NEWLINE_clean (s : string) :
  ~ In CR (list_ascii_of_string s) -> replace_CR_NEWLINE s = s.
Proof.
  induction s as [|a s IH]; [reflexivity|]. rewrite replace_CR_NEWLINE_eq.
  cbn [list_ascii_of_string In]. intros H.
  destruct (Ascii.eqb_spec a CR) as [->|Ha]; [tauto|]. rewrite IH by tauto. reflexivity.
Qed.

Lemma FORMFEED_clean (s : string) :
  ~ In FF (list_ascii_of_string s) -> replace_FORMFEED s = s.
Proof.
  induction s as [|a s IH]; simpl; [reflexivity|]. intros H.
  destruct (Ascii.eqb_spec a FF) as [->|Ha]; [tauto|]. rewrite IH by tauto. reflexivity.
Qed.

Lemma TAB_clean (s : string) :
  ~ In TAB (list_ascii_of_string s) -> replace_TAB s = s.
Proof.
  induction s as [|a s IH]; simpl; [reflexivity|]. intros H.
  destruct (Ascii.eqb_spec a TAB) as [->|Ha]; [tauto|]. rewrite IH by tauto. reflexivity.
Qed.

Lemma preprocess_clean (s : string) :
  ~ In CR (list_ascii_of_string s) -> ~ In FF (list_ascii_of_string s) ->
  ~ In TAB (list_ascii_of_string s) -> preprocess s = s.
Proof.
  intros Hc Hf Ht. unfold preprocess.
  rewrite CR_NEWLINE_clean, FORMFEED_clean, TAB_clean by assumption. reflexivity.
Qed.

Lemma preprocess_again (s : string) : preprocess (preprocess s) = preprocess s.
Proof.
  apply preprocess_clean; intros H; apply preprocess_chars in H; tauto.
Qed.

(** ** Normalisation and concatenation *)

Lemma string_app_cons a (s t : string) : String a s +:+ t = String a (s +:+ t).
Proof. reflexivity. Qed.

Lemma string_app_nil (t : string) : "" +:+ t = t.
Proof. reflexivity. Qed.

Lemma chars_app (s t : string) :
  list_ascii_of_string (s +:+ t) = list_ascii_of_string s ++ list_ascii_of_string t.
Proof.
  induction s as [|a s IH]; [reflexivity|].
  rewrite string_app_cons. simpl. rewrite IH. reflexivity.
Qed.

(** [\r\n?] is replaced pair by pair, so the replacement goes through a
    concatenation whose left part does not end in a carriage return. *)
Lemma CR_NEWLINE_app (s t : string) :
  (forall s0, s <> s0 +:+ String CR "") ->
  replace_CR_NEWLINE (s +:+ t) = replace_CR_NEWLINE s +:+ replace_CR_NEWLINE t.
Proof.
  remember (String.length s) as n eqn:Hn. revert s Hn.
  induction n as [n IH] using lt_wf_ind. intros s Hn Hend.
  destruct s as [|a s]; [reflexivity|].
  rewrite string_app_cons, !replace_CR_NEWLINE_eq.
  destruct (Ascii.eqb_spec a CR) as [->|Ha].
  - destruct s as [|b s]; [exfalso; apply (Hend ""); reflexivity|].
    rewrite string_app_cons.
    destruct (Ascii.eqb_spec b LF) as [->|Hb]; rewrite string_app_cons; f_equal.
    + apply (IH (String.length s)); [rewrite Hn; simpl; lia | reflexivity|].
      intros s0 ->. apply (Hend (String CR (String LF s0))). reflexivity.
    + rewrite <- string_app_cons.
      apply (IH (String.length (String b s))); [rewrite Hn; simpl; lia | reflexivity|].
      intros s0 E. apply (Hend (String CR s0)). rewrite E. reflexivity.
  - rewrite string_app_cons. f_equal.
    apply (IH (String.length s)); [rewrite Hn; simpl; lia | reflexivity|].
    intros s0 ->. apply (Hend (String a s0)). reflexivity.
Qed.

Lemma FORMFEED_app (s t : string) :
  replace_FORMFEED (s +:+ t) = replace_FORMFEED s +:+ replace_FORMFEED t.
Proof.
  induction s as [|a s IH]; [reflexivity|].
  rewrite string_app_cons. simpl. destruct (Ascii.eqb a FF); [exact IH|].
  rewrite string_app_cons, IH. reflexivity.
Qed.

Lemma TAB_app (s t : string) :
  replace_TAB (s +:+ t) = replace_TAB s +:+ replace_TAB t.
Proof.
  induction s as [|a s IH]; [reflexivity|].
  rewrite string_app_cons. simpl. destruct (Ascii.eqb a TAB).
  - rewrite IH. reflexivity.
  - rewrite string_app_cons, IH. reflexivity.
Qed.

Lemma preprocess_app_blankLine (s : string) :
  (forall s0, s <> s0 +:+ String CR "") ->
  preprocess (s +:+ blankLine) = preprocess s +:+ blankLine.
Proof.
  intros Hend. unfold preprocess.
  rewrite CR_NEWLINE_app by exact Hend. rewrite FORMFEED_app, TAB_app. reflexivity.
Qed.

Lemma ends_in_CR_chars (s s0 : string) :
  s = s0 +:+ String CR "" -> In CR (list_ascii_of_string s).
Proof.
  intros ->. rewrite chars_app. apply in_or_app. right. left. reflexivity.
Qed.

Lemma preprocess_no_final_CR (s s0 : string) : preprocess s <> s0 +:+ String CR "".
Proof.
  intros E. apply ends_in_CR_chars, preprocess_chars in E. tauto.
Qed.

Lemma endsWith_spec c (s : string) :
  endsWith c s = false -> forall s0, s <> s0 +:+ String c "".
Proof.
  induction s as [|a s IH]; intros H s0 E.
  - destruct s0; discriminate E.
  - destruct s0 as [|b s0].
    + change ("" +:+ String c "") with (String c "") in E. injection E as -> ->.
      simpl in H. rewrite Ascii.eqb_refl in H. discriminate.
    + rewrite string_app_cons in E. injection E as -> E.
      apply (IH ltac:(destruct s; [destruct s0; discriminate E | exact H]) s0 E).
Qed.

(** ** Line feeds survive the normalisation *)

Lemma CR_NEWLINE_keeps_LF (s : string) :
  In LF (list_ascii_of_string s) -> In LF (list_ascii_of_string (replace_CR_NEWLINE s)).
Proof.
  induction s as [|a s IH]; [simpl; tauto|]. rewrite replace_CR_NEWLINE_eq.
  destruct (Ascii.eqb_spec a CR) as [->|Ha].
  - intros _. destruct s as [|b s]; [left; reflexivity|].
    destruct (Ascii.eqb b LF); left; reflexivity.
  - cbn [list_ascii_of_string In]. intros [->|H]; [left; reflexivity | right; apply IH, H].
Qed.

Lemma FORMFEED_keeps_LF (s : string) :
  In LF (list_ascii_of_string s) -> In LF (list_ascii_of_string (replace_FORMFEED s)).
Proof.
  induction s as [|a s IH]; simpl; [tauto|].
  destruct (Ascii.eqb_spec a FF) as [->|Ha].
  - intros [H|H]; [discriminate H | apply IH, H].
  - cbn [list_ascii_of_string In]. intros [->|H]; [left; reflexivity | right; apply IH, H].
Qed.

Lemma TAB_keeps_LF (s : string) :
  In LF (list_ascii_of_string s) -> In LF (list_ascii_of_string (replace_TAB s)).
Proof.
  induction s as [|a s IH]; simpl; [tauto|].
  destruct (Ascii.eqb_spec a TAB) as [->|Ha].
  - intros [H|H]; [discriminate H | do 4 right; apply IH, H].
  - cbn [list_ascii_of_string In]. intros [->|H]; [left; reflexivity | right; apply IH, H].
Qed.

Lemma preprocess_blankLine_nonempty (s : string) :
  exists a s', preprocess (s +:+ blankLine) = String a s'.
Proof.
  assert (H : In LF (list_ascii_of_string (preprocess (s +:+ blankLine)))).
  { unfold preprocess. apply TAB_keeps_LF, FORMFEED_keeps_LF, CR_NEWLINE_keeps_LF.
    rewrite chars_app. apply in_or_app. right. left. reflexivity. }
  destruct (preprocess (s +:+ blankLine)) as [|a s']; [destruct H | eauto].
Qed.

(** ** Regular expressions that start with [^] *)

Lemma rmatch_Repeat ic ml min max greedy r1 x c :
  rmatch ic ml (Repeat min max greedy r1) x c
  = repeat_loop (rmatch ic ml r1) (groups_in r1) greedy c
      (String.length (rest x) + min + 1) min max x.
Proof. reflexivity. Qed.

Lemma anchored_fails ic (r : regex) :
  starts_anchored r = true ->
  forall x c, before x <> None -> rmatch ic false r x c = None.
Proof.
  induction r; simpl; try discriminate; intros Ha x c Hx.
  - apply IHr1; assumption.
  - apply andb_true_iff in Ha as [H1 H2]. rewrite IHr1, IHr2 by assumption. reflexivity.
  - apply IHr; assumption.
  - destruct (before x); [reflexivity | contradiction].
Qed.

Lemma exec_from_anchored (re : RegExp) (s : string) : forall ch i,
  multiline re = false -> starts_anchored (pattern re) = true ->
  exec_from re (Some ch) s i = None.
Proof.
  induction s as [|a s IH]; intros ch i Hm Ha; simpl; unfold match_at; rewrite Hm;
    rewrite anchored_fails by (assumption || discriminate); [reflexivity|].
  apply IH; assumption.
Qed.

Lemma exec_anchored (re : RegExp) (s : string) c :
  multiline re = false -> starts_anchored (pattern re) = true ->
  exec re s = Some c -> index c = Some 0%float.
Proof.
  intros Hm Ha. unfold exec. destruct s as [|a s]; simpl.
  - unfold match_at. destruct (rmatch _ _ _ _ _); [|discriminate].
    intros [= <-]. reflexivity.
  - unfold match_at at 1. destruct (rmatch _ _ _ _ _).
    + intros [= <-]. reflexivity.
    + rewrite exec_from_anchored by assumption. discriminate.
Qed.

Lemma defaultRules_anchored :
  Forall (fun r => forall source state c, match' r source state = Some c -> index c = Some 0%float)
         defaultRules.
Proof.
  unfold defaultRules.
  repeat first [apply List.Forall_nil | apply List.Forall_cons]; intros source state c H.
  all: cbv [headingRule nptableRule lheadingRule hrRule codeBlockRule fenceRule
            blockQuoteRule listRule defRule tableRule newlineRule paragraphRule
            escapeRule tableSeparatorRule autolinkRule mailtoRule urlRule linkRule
            imageRule reflinkRule refimageRule emRule strongRule uRule delRule
            inlineCodeRule brRule textRule match' blockRegex inlineRegex anyScopeRegex] in H.
  all: repeat match type of H with
       | (if ?b then _ else _) = Some _ => destruct b; [|try discriminate H]
       | match ?e with Some _ => _ | None => _ end = Some _ => destruct e; [|discriminate H]
       end; try discriminate H.
  all: (eapply exec_anchored; [| |exact H]; vm_compute; reflexivity).
Qed.


Lemma rmatch_Seq ic ml r1 r2 x c :
  rmatch ic ml (Seq r1 r2) x c = rmatch ic ml r1 x (fun y => rmatch ic ml r2 y c).
Proof. reflexivity. Qed.

Lemma rmatch_AssertStart ic ml x c :
  before x = None -> rmatch ic ml AssertStart x c = c x.
Proof. intros H. cbn [rmatch]. rewrite H. reflexivity. Qed.

Lemma repeat_loop_S m gs greedy c n min max x :
  repeat_loop m gs greedy c (S n) min max x
  = match max with
    | Some O => c x
    | _ =>
        let d := fun y =>
          if Nat.eqb min 0 && Nat.eqb (endIndex y) (endIndex x) then None
          else repeat_loop m gs greedy c n (pred min) (option_map pred max) y in
        let xr := clear_captures gs x in
        if Nat.ltb 0 min then m xr d
        else if greedy then
          match m xr d with
          | Some z => Some z
          | None => c x
          end
        else
          match c x with
          | Some z => Some z
          | None => m xr d
          end
    end.
Proof. reflexivity. Qed.

(** ** The lazy run of any characters up to a lookahead *)

Lemma rmatch_anyChar ic ml x d :
  rmatch ic ml anyChar x d
  = match rest x with
    | String ch s' => d (mkMatchState (Some ch) s' (S (endIndex x)) (captures x))
    | EmptyString => None
    end.
Proof.
  unfold anyChar. cbn [rmatch]. destruct (rest x) as [|ch s']; [reflexivity|].
  unfold in_class. cbn [existsb in_item].
  destruct (is_space ch); simpl; [reflexivity|]. rewrite orb_true_r. reflexivity.
Qed.

Lemma accepts_end_matches ic ml (r : regex) :
  accepts_end r = true ->
  forall x c, rest x = "" -> is_Some (c x) -> is_Some (rmatch ic ml r x c).
Proof.
  induction r; simpl; try discriminate; intros Ha x c Hx Hc.
  - exact Hc.
  - destruct (rmatch ic ml r1 x c) eqn:E1; [eexists; reflexivity|].
    apply orb_true_iff in Ha as [Ha|Ha].
    + apply (IHr1 Ha x c Hx) in Hc. rewrite E1 in Hc. destruct Hc; discriminate.
    + apply IHr2; assumption.
  - rewrite Hx. exact Hc.
Qed.

(** The continuation of a lookahead that holds at the end of the input. *)
Lemma lookahead_at_end ic ml la x :
  accepts_end la = true -> rest x = "" ->
  is_Some (rmatch ic ml (Lookahead false la) x Some).
Proof.
  intros Ha Hx. cbn [rmatch].
  destruct (accepts_end_matches ic ml la Ha x Some Hx) as [y Hy]; [eexists; reflexivity|].
  rewrite Hy. eexists; reflexivity.
Qed.

Lemma lookahead_keeps_position ic ml la x z :
  rmatch ic ml (Lookahead false la) x Some = Some z -> endIndex z = endIndex x.
Proof.
  cbn [rmatch]. destruct (rmatch ic ml la x Some); [|discriminate].
  intros [= <-]. reflexivity.
Qed.

(** Once the mandatory iteration is done, the lazy loop stops at the first
    position where the continuation holds, and the end of the input is one. *)
Lemma lazy_anyChar_loop ic ml c :
  (forall x, rest x = "" -> is_Some (c x)) ->
  (forall x z, c x = Some z -> endIndex z = endIndex x) ->
  forall n x, String.length (rest x) < n ->
    exists z, repeat_loop (rmatch ic ml anyChar) [] false c n 0 None x = Some z
              /\ endIndex x <= endIndex z.
Proof.
  intros Hend Hpos. induction n as [|n IH]; intros x Hn; [lia|].
  rewrite repeat_loop_S. cbv zeta. cbn [Nat.ltb Nat.leb]. 
  destruct (c x) as [z|] eqn:Hc.
  - exists z. split; [reflexivity|]. rewrite (Hpos x z Hc). lia.
  - rewrite rmatch_anyChar. cbn [clear_captures rest fold_left endIndex].
    destruct (rest x) as [|ch s'] eqn:Hr.
    + destruct (Hend x Hr) as [z Hz]. congruence.
    + cbn [endIndex].
      replace (Nat.eqb (S (endIndex x)) (endIndex x)) with false
        by (symmetry; apply Nat.eqb_neq; lia).
      change (Nat.eqb 0 0) with true. cbn [andb pred option_map].
      destruct (IH (mkMatchState (Some ch) s' (S (endIndex x)) (captures x)))
        as (z & Hz & Hle); [simpl in *; lia|].
      exists z. split; [exact Hz|]. simpl in Hle. lia.
Qed.

Lemma string_take_nonempty n a s : 0 < n -> string_take n (String a s) <> "".
Proof. destruct n; [lia | discriminate]. Qed.

Lemma string_take_prefix n (s : string) :
  s = string_take n s +:+ substring_from (String.length (string_take n s)) s.
Proof.
  revert s. induction n as [|n IH]; intros [|a s]; try reflexivity.
  simpl.
  change (String a s
          = String a (string_take n s +:+ substring_from (String.length (string_take n s)) s)).
  f_equal. apply IH.
Qed.

(** A regular expression [^[\s\S]+?(?=...)] whose lookahead holds at the end
    of the input matches every non-empty string, from its first character. *)
Lemma exec_lazy_any (re : RegExp) la (s : string) :
  pattern re = Seq AssertStart (Seq (Repeat 1 None false anyChar) (Lookahead false la)) ->
  accepts_end la = true -> s <> "" ->
  exists c m,
    exec re s = Some c /\ index c = Some 0%float /\ group c 0 = Some m /\ m <> ""
    /\ s = m +:+ substring_from (String.length m) s.
Proof.
  intros Hp Ha Hs. destruct s as [|a s]; [contradiction|].
  unfold exec. cbn [exec_from]. unfold match_at. rewrite Hp.
  rewrite rmatch_Seq, rmatch_AssertStart by reflexivity.
  rewrite rmatch_Seq, rmatch_Repeat.
  cbn [rest groups_in anyChar]. fold anyChar.
  change (String.length (String a s)) with (S (String.length s)).
  replace (S (String.length s) + 1 + 1) with (S (S (S (String.length s)))) by lia.
  rewrite repeat_loop_S. cbv zeta. cbn [Nat.ltb Nat.leb].
  rewrite rmatch_anyChar. cbn [clear_captures rest fold_left endIndex captures].
  change (Nat.eqb 1 0) with false. cbn [andb pred option_map].
  set (c := fun y => rmatch (ignoreCase re) (multiline re) (Lookahead false la) y Some).
  destruct (lazy_anyChar_loop (ignoreCase re) (multiline re) c) with
    (n := S (S (String.length s)))
    (x := mkMatchState (Some a) s 1 (replicate (S (nGroups re)) None))
    as (z & Hz & Hle).
  - intros x Hx. apply lookahead_at_end; assumption.
  - intros x z Hz. eapply lookahead_keeps_position. exact Hz.
  - simpl. lia.
  - fold c. rewrite Hz. simpl in Hle.
    eexists. eexists. split; [reflexivity|]. split; [reflexivity|].
    split; [reflexivity|]. split.
    + rewrite Nat.sub_0_r. apply string_take_nonempty. lia.
    + apply string_take_prefix.
Qed.

Lemma textRule_matches source state :
  source <> "" ->
  exists c m,
    match' textRule source state = Some c /\ index c = Some 0%float
    /\ group c 0 = Some m /\ m <> "" /\ source = m +:+ substring_from (String.length m) source.
Proof.
  intros Hs. unfold textRule, anyScopeRegex. cbn [match'].
  eapply exec_lazy_any; [vm_compute; reflexivity | reflexivity | exact Hs].
Qed.



(** ** How far a match reads *)

Lemma advance_position n : forall x,
  n <= String.length (rest x) ->
  endIndex (advance n x) = endIndex x + n
  /\ endIndex (advance n x) + String.length (rest (advance n x))
     = endIndex x + String.length (rest x).
Proof.
  induction n as [|n IH]; intros x Hn; simpl; [lia|].
  destruct (rest x) as [|ch s'] eqn:Hr; [simpl in Hn; lia|].
  destruct (IH (mkMatchState (Some ch) s' (S (endIndex x)) (captures x))) as [H1 H2].
  - simpl in *. lia.
  - simpl in *. lia.
Qed.

Lemma prefix_length (s t : string) : String.prefix s t = true -> String.length s <= String.length t.
Proof.
  revert t. induction s as [|a s IH]; intros t H; simpl; [lia|].
  destruct t as [|b t]; simpl in H; [discriminate|].
  destruct (Ascii.ascii_dec a b); [|discriminate]. apply IH in H.
  change (S (String.length s) <= S (String.length t)). lia.
Qed.

Lemma string_length_cons a s : String.length (String a s) = S (String.length s).
Proof. reflexivity. Qed.

Lemma repeat_loop_reads m gs greedy c k :
  (forall x d z, m x d = Some z -> reads k x d z) ->
  forall n min max x z,
    repeat_loop m gs greedy c n min max x = Some z ->
    reads (match max with
           | Some max' => if Nat.ltb max' min then 0 else min * k
           | None => min * k
           end) x c z.
Proof.
  intros Hm. induction n as [|n IH]; intros min max x z H; [discriminate|].
  rewrite repeat_loop_S in H.
  assert (Hc : min = 0 -> c x = Some z ->
               reads (match max with
                      | Some max' => if Nat.ltb max' min then 0 else min * k
                      | None => min * k
                      end) x c z).
  { intros -> E. exists x. split; [exact E|]. destruct max; simpl; lia. }
  assert (Hd : m (clear_captures gs x)
                 (fun y => if Nat.eqb min 0 && Nat.eqb (endIndex y) (endIndex x) then None
                           else repeat_loop m gs greedy c n (pred min) (option_map pred max) y)
               = Some z ->
               max <> Some 0 ->
               reads (match max with
                      | Some max' => if Nat.ltb max' min then 0 else min * k
                      | None => min * k
                      end) x c z).
  { intros E Hmax. apply Hm in E as (y & Hy & Hle & Hpos).
    destruct (Nat.eqb min 0 && Nat.eqb (endIndex y) (endIndex x)); [discriminate|].
    apply IH in Hy as (y' & Hy' & Hle' & Hpos').
    exists y'. split; [exact Hy'|].
    unfold clear_captures in Hle, Hpos. cbn [endIndex rest] in Hle, Hpos. split; [|lia].
    destruct max as [[|max']|]; [congruence | |].
    - simpl in Hle'.
      destruct (Nat.ltb_spec (S max') min); destruct (Nat.ltb_spec max' (pred min));
        try lia.
      destruct min; simpl in *; nia.
    - simpl in Hle'. destruct min; simpl in *; nia. }
  destruct max as [[|max']|]; cbv zeta in H.
  - exists x. split; [exact H|]. destruct (Nat.ltb_spec 0 min); nia.
  - destruct (Nat.ltb_spec 0 min) as [Hlt|Hge]; [apply Hd; [exact H | discriminate]|].
    assert (min = 0) as -> by lia.
    destruct greedy.
    + remember (m _ _) as o eqn:E in H. destruct o.
      * injection H as ->. apply Hd; [symmetry; exact E | discriminate].
      * apply Hc; [reflexivity | exact H].
    + remember (c x) as o eqn:E in H. destruct o.
      * injection H as ->. apply Hc; [reflexivity | symmetry; exact E].
      * apply Hd; [exact H | discriminate].
  - destruct (Nat.ltb_spec 0 min) as [Hlt|Hge]; [apply Hd; [exact H | discriminate]|].
    assert (min = 0) as -> by lia.
    destruct greedy.
    + remember (m _ _) as o eqn:E in H. destruct o.
      * injection H as ->. apply Hd; [symmetry; exact E | discriminate].
      * apply Hc; [reflexivity | exact H].
    + remember (c x) as o eqn:E in H. destruct o.
      * injection H as ->. apply Hc; [reflexivity | symmetry; exact E].
      * apply Hd; [exact H | discriminate].
Qed.

Lemma rmatch_reads ic ml (r : regex) :
  forall x c z, rmatch ic ml r x c = Some z -> reads (min_length r) x c z.
Proof.
  induction r; intros x c z H.
  - exists x. split; [exact H | simpl; lia].
  - cbn [rmatch] in H. destruct (rest x) as [|ch s'] eqn:Hr; [discriminate|].
    destruct (xorb negated (in_class ic items ch)); [|discriminate].
    eexists. split; [exact H|]. cbn [endIndex rest min_length].
    rewrite Hr, string_length_cons. lia.
  - cbn [rmatch] in H. apply IHr1 in H as (y1 & H1 & Hle1 & Hpos1).
    apply IHr2 in H1 as (y2 & H2 & Hle2 & Hpos2).
    exists y2. split; [exact H2|]. simpl. lia.
  - cbn [rmatch] in H. destruct (rmatch ic ml r1 x c) eqn:E.
    + injection H as ->. apply IHr1 in E as (y & Hy & Hle & Hpos).
      exists y. split; [exact Hy|]. simpl. lia.
    + apply IHr2 in H as (y & Hy & Hle & Hpos).
      exists y. split; [exact Hy|]. simpl. lia.
  - rewrite rmatch_Repeat in H.
    apply (repeat_loop_reads _ _ _ _ (min_length r) IHr) in H. exact H.
  - cbn [rmatch] in H. apply IHr in H as (y & Hy & Hle & Hpos).
    eexists. split; [exact Hy|]. simpl. lia.
  - cbn [rmatch] in H. destruct (captures x !! i) as [[s|]|] eqn:E.
    + destruct (String.prefix s (rest x)) eqn:Hp; [|discriminate].
      destruct (advance_position (String.length s) x (prefix_length _ _ Hp)) as [H1 H2].
      eexists. split; [exact H|]. simpl. lia.
    + exists x. split; [exact H | simpl; lia].
    + exists x. split; [exact H | simpl; lia].
  - cbn [rmatch] in H. destruct (rmatch ic ml r x Some) as [y|].
    + destruct negated; [discriminate|]. eexists. split; [exact H|]. simpl. lia.
    + destruct negated; [|discriminate]. exists x. split; [exact H | simpl; lia].
  - cbn [rmatch] in H. exists x. split; [|simpl; lia].
    destruct (before x); [|exact H]. destruct (ml && _); [exact H | discriminate].
  - cbn [rmatch] in H. exists x. split; [|simpl; lia].
    destruct (rest x); [exact H|]. destruct (ml && _); [exact H | discriminate].
  - cbn [rmatch] in H. exists x. split; [|simpl; lia].
    destruct (xorb _ _); [exact H | discriminate].
Qed.


Lemma match_at_nonempty (re : RegExp) before s i c len :
  0 < min_length (pattern re) ->
  match_at re before s i = Some (c, len) ->
  exists m, group c 0 = Some m /\ m <> "".
Proof.
  intros Hk. unfold match_at.
  destruct (rmatch _ _ _ _ _) as [z|] eqn:E; [|discriminate]. intros [= <- _].
  apply rmatch_reads in E as (y & [= ->] & Hle & Hpos). simpl in Hle, Hpos.
  eexists. split; [reflexivity|].
  destruct s as [|a s]; [simpl in Hpos; lia|]. apply string_take_nonempty. lia.
Qed.

Lemma exec_from_nonempty (re : RegExp) s : forall before i c,
  0 < min_length (pattern re) ->
  exec_from re before s i = Some c ->
  exists m, group c 0 = Some m /\ m <> "".
Proof.
  induction s as [|a s IH]; intros before i c Hk; cbn [exec_from];
    destruct (match_at re before _ i) as [[c0 len]|] eqn:E.
  - intros [= <-]. eapply match_at_nonempty; eassumption.
  - discriminate.
  - intros [= <-]. eapply match_at_nonempty; eassumption.
  - apply IH. exact Hk.
Qed.

Lemma exec_nonempty (re : RegExp) s c :
  0 < min_length (pattern re) -> exec re s = Some c ->
  exists m, group c 0 = Some m /\ m <> "".
Proof. apply exec_from_nonempty. Qed.

Lemma defaultRules_progress :
  Forall (fun r => forall source state c, match' r source state = Some c ->
                     exists m, group c 0 = Some m /\ m <> "")
         defaultRules.
Proof.
  unfold defaultRules.
  repeat first [apply List.Forall_nil | apply List.Forall_cons]; intros source state c H.
  all: cbv [headingRule nptableRule lheadingRule hrRule codeBlockRule fenceRule
            blockQuoteRule listRule defRule tableRule newlineRule paragraphRule
            escapeRule tableSeparatorRule autolinkRule mailtoRule urlRule linkRule
            imageRule reflinkRule refimageRule emRule strongRule uRule delRule
            inlineCodeRule brRule textRule match' blockRegex inlineRegex anyScopeRegex] in H.
  all: repeat match type of H with
       | (if ?b then _ else _) = Some _ => destruct b; [|try discriminate H]
       | match ?e with Some _ => _ | None => _ end = Some _ => destruct e; [|discriminate H]
       end; try discriminate H.
  all: (eapply exec_nonempty; [|exact H]; vm_compute; lia).
Qed.

Lemma rmatch_Chars ic ml negated items x c :
  rmatch ic ml (Chars negated items) x c
  = match rest x with
    | String ch s' =>
        if xorb negated (in_class ic items ch)
        then c (mkMatchState (Some ch) s' (S (endIndex x)) (captures x))
        else None
    | EmptyString => None
    end.
Proof. reflexivity. Qed.

(** ** The first character of a match *)

Lemma repeat_loop_first m gs greedy c k (NC : Prop) ch (s : string) :
  (forall x d z, m x d = Some z ->
     exists y, d y = Some z /\ endIndex x + k <= endIndex y
               /\ (NC -> rest x = String ch s ->
                   rest y = String ch s /\ endIndex y = endIndex x)) ->
  forall n min max x z,
    repeat_loop m gs greedy c n min max x = Some z ->
    exists y, c y = Some z
              /\ endIndex x + match max with
                              | Some max' => if Nat.ltb max' min then 0 else min * k
                              | None => min * k
                              end <= endIndex y
              /\ (NC -> rest x = String ch s ->
                  rest y = String ch s /\ endIndex y = endIndex x).
Proof.
  intros Hm. induction n as [|n IH]; intros min max x z H; [discriminate|].
  rewrite repeat_loop_S in H.
  assert (Hc : min = 0 -> c x = Some z ->
               exists y, c y = Some z
                 /\ endIndex x + match max with
                                 | Some max' => if Nat.ltb max' min then 0 else min * k
                                 | None => min * k
                                 end <= endIndex y
                 /\ (NC -> rest x = String ch s ->
                     rest y = String ch s /\ endIndex y = endIndex x)).
  { intros -> E. exists x. split; [exact E|]. split; [destruct max; simpl; lia | auto]. }
  assert (Hd : m (clear_captures gs x)
                 (fun y => if Nat.eqb min 0 && Nat.eqb (endIndex y) (endIndex x) then None
                           else repeat_loop m gs greedy c n (pred min) (option_map pred max) y)
               = Some z ->
               max <> Some 0 ->
               exists y, c y = Some z
                 /\ endIndex x + match max with
                                 | Some max' => if Nat.ltb max' min then 0 else min * k
                                 | None => min * k
                                 end <= endIndex y
                 /\ (NC -> rest x = String ch s ->
                     rest y = String ch s /\ endIndex y = endIndex x)).
  { intros E Hmax. apply Hm in E as (y & Hy & Hle & Hst).
    destruct (Nat.eqb min 0 && Nat.eqb (endIndex y) (endIndex x)); [discriminate|].
    apply IH in Hy as (y' & Hy' & Hle' & Hst').
    exists y'. split; [exact Hy'|].
    unfold clear_captures in Hle, Hst. cbn [endIndex rest] in Hle, Hst. split.
    - destruct max as [[|max']|]; [congruence | |].
      + simpl in Hle'.
        destruct (Nat.ltb_spec (S max') min); destruct (Nat.ltb_spec max' (pred min));
          try lia.
        destruct min; simpl in *; nia.
      + simpl in Hle'. destruct min; simpl in *; nia.
    - intros Hnc Hx. destruct (Hst Hnc Hx) as [Hr He].
      destruct (Hst' Hnc Hr) as [Hr' He']. split; [exact Hr' | lia]. }
  destruct max as [[|max']|]; cbv zeta in H.
  - exists x. split; [exact H|]. split; [destruct (Nat.ltb_spec 0 min); nia | auto].
  - destruct (Nat.ltb_spec 0 min) as [Hlt|Hge]; [apply Hd; [exact H | discriminate]|].
    assert (min = 0) as -> by lia.
    destruct greedy.
    + remember (m _ _) as o eqn:E in H. destruct o.
      * injection H as ->. apply Hd; [symmetry; exact E | discriminate].
      * apply Hc; [reflexivity | exact H].
    + remember (c x) as o eqn:E in H. destruct o.
      * injection H as ->. apply Hc; [reflexivity | symmetry; exact E].
      * apply Hd; [exact H | discriminate].
  - destruct (Nat.ltb_spec 0 min) as [Hlt|Hge]; [apply Hd; [exact H | discriminate]|].
    assert (min = 0) as -> by lia.
    destruct greedy.
    + remember (m _ _) as o eqn:E in H. destruct o.
      * injection H as ->. apply Hd; [symmetry; exact E | discriminate].
      * apply Hc; [reflexivity | exact H].
    + remember (c x) as o eqn:E in H. destruct o.
      * injection H as ->. apply Hc; [reflexivity | symmetry; exact E].
      * apply Hd; [exact H | discriminate].
Qed.

(** A match reads at least [min_length] characters, and when the expression
    cannot read [ch] first, a match in front of [ch] reads nothing. *)
Lemma rmatch_first ic ml ch (s : string) (r : regex) :
  forall x c z,
    rmatch ic ml r x c = Some z ->
    exists y, c y = Some z /\ endIndex x + min_length r <= endIndex y
              /\ (may_consume ic r ch = false -> rest x = String ch s ->
                  rest y = String ch s /\ endIndex y = endIndex x).
Proof.
  induction r; intros x c z H; cbn [may_consume min_length].
  - exists x. split; [exact H|]. split; [lia | auto].
  - rewrite rmatch_Chars in H. destruct (rest x) as [|a s'] eqn:Hr; [discriminate|].
    destruct (xorb negated (in_class ic items a)) eqn:E; [|discriminate].
    eexists. split; [exact H|]. cbn [endIndex rest]. split; [lia|].
    intros Hmc [= -> ->]. congruence.
  - rewrite rmatch_Seq in H.
    apply IHr1 in H as (y1 & H1 & Hle1 & Hst1).
    apply IHr2 in H1 as (y2 & H2 & Hle2 & Hst2).
    exists y2. split; [exact H2|]. split; [lia|].
    intros Hmc Hx. apply orb_false_iff in Hmc as [Hm1 Hm2].
    destruct (Hst1 Hm1 Hx) as [Hr1 He1].
    destruct (Nat.eqb_spec (min_length r1) 0) as [E0|E0]; [|lia].
    cbn [andb] in Hm2. destruct (Hst2 Hm2 Hr1) as [Hr2 He2]. split; [exact Hr2 | lia].
  - cbn [rmatch] in H. destruct (rmatch ic ml r1 x c) eqn:E.
    + injection H as ->. apply IHr1 in E as (y & Hy & Hle & Hst).
      exists y. split; [exact Hy|]. split; [lia|].
      intros Hmc. apply orb_false_iff in Hmc as [Hm1 _]. auto.
    + apply IHr2 in H as (y & Hy & Hle & Hst).
      exists y. split; [exact Hy|]. split; [lia|].
      intros Hmc. apply orb_false_iff in Hmc as [_ Hm2]. auto.
  - rewrite rmatch_Repeat in H.
    apply (repeat_loop_first _ _ _ _ (min_length r) (may_consume ic r ch = false) ch s IHr)
      in H.
    exact H.
  - cbn [rmatch] in H. apply IHr in H as (y & Hy & Hle & Hst).
    eexists. split; [exact Hy|]. cbn [endIndex rest]. auto.
  - cbn [rmatch] in H. destruct (captures x !! i) as [[t|]|] eqn:E.
    + destruct (String.prefix t (rest x)) eqn:Hp; [|discriminate].
      destruct (advance_position (String.length t) x (prefix_length _ _ Hp)) as [H1 H2].
      eexists. split; [exact H|]. split; [lia | discriminate].
    + exists x. split; [exact H|]. split; [lia | discriminate].
    + exists x. split; [exact H|]. split; [lia | discriminate].
  - cbn [rmatch] in H. destruct (rmatch ic ml r x Some) as [y|].
    + destruct negated; [discriminate|]. eexists. split; [exact H|].
      cbn [endIndex rest]. split; [lia | auto].
    + destruct negated; [|discriminate]. exists x. split; [exact H|]. split; [lia | auto].
  - cbn [rmatch] in H. exists x. split; [|split; [lia | auto]].
    destruct (before x); [|exact H]. destruct (ml && _); [exact H | discriminate].
  - cbn [rmatch] in H. exists x. split; [|split; [lia | auto]].
    destruct (rest x); [exact H|]. destruct (ml && _); [exact H | discriminate].
  - cbn [rmatch] in H. exists x. split; [|split; [lia | auto]].
    destruct (xorb _ _); [exact H | discriminate].
Qed.

(** An anchored expression that reads at least one character and cannot
    read [c] first does not match a string that starts with [c]. *)
Lemma exec_first_char (re : RegExp) c (s : string) :
  multiline re = false -> starts_anchored (pattern re) = true ->
  0 < min_length (pattern re) -> may_consume (ignoreCase re) (pattern re) c = false ->
  exec re (String c s) = None.
Proof.
  intros Hm Ha Hk Hc. unfold exec. cbn [exec_from]. unfold match_at at 1.
  destruct (rmatch _ _ _ _ _) as [z|] eqn:E.
  - exfalso.
    apply (rmatch_first _ _ c s) in E as (y & [= ->] & Hle & Hst).
    destruct (Hst Hc eq_refl) as [_ He]. cbn [endIndex] in *. lia.
  - apply exec_from_anchored; assumption.
Qed.


(** ** A rule that always matches *)

(** What the walk holds is nothing, or the capture of a rule of the priority
    order [ruleList]. *)
Lemma consult_held rules (ruleList : list string) t r source state b :
  t ∈ ruleList -> getProperty rules t = Some r ->
  (b = noBest \/ exists t' r' c' q,
      b = mkBest (Some t') (Some r') (Some c') q /\ t' ∈ ruleList
      /\ getProperty rules t' = Some r' /\ match' r' source state = Some c') ->
  (match' r source state = None /\ consult (Some t) r source state b = b)
  \/ exists t' r' c' q,
      consult (Some t) r source state b = mkBest (Some t') (Some r') (Some c') q /\ t' ∈ ruleList
      /\ getProperty rules t' = Some r' /\ match' r' source state = Some c'.
Proof.
  intros Ht Hr Hb. unfold consult.
  destruct (match' r source state) as [c|] eqn:Hm; [right | left; auto].
  destruct (negb (PrimFloat.leb (qualityOf r c state) (bestQuality b))) eqn:Hq.
  - exists t, r, c, (qualityOf r c state). auto.
  - destruct Hb as [-> | Hb]; [|exact Hb].
    simpl in Hq. change (bestQuality noBest) with nan in Hq.
    rewrite leb_nan_r in Hq. discriminate.
Qed.

Lemma listedLoop_held rules (ruleList : list string) source state rest :
  forall t r i b0 tl rl cl,
    Forall (fun t' => t' ∈ ruleList /\ is_Some (getProperty rules t')) (t :: rest) ->
    getProperty rules t = Some r ->
    last (t :: rest) = Some tl -> getProperty rules tl = Some rl ->
    match' rl source state = Some cl ->
    (b0 = noBest \/ exists t' r' c' q,
        b0 = mkBest (Some t') (Some r') (Some c') q /\ t' ∈ ruleList
        /\ getProperty rules t' = Some r' /\ match' r' source state = Some c') ->
    exists t' r' c' q,
      fst (listedLoop rules source state t r rest i b0) = mkBest (Some t') (Some r') (Some c') q
      /\ t' ∈ ruleList /\ getProperty rules t' = Some r' /\ match' r' source state = Some c'.
Proof.
  induction rest as [|t1 rest IH]; intros t r i b0 tl rl cl Hall Hr Hlast Hrl Hcl Hb.
  - simpl in Hlast. injection Hlast as <-. rewrite Hr in Hrl. injection Hrl as <-.
    apply Forall_cons in Hall as [[Ht _] _].
    destruct (consult_held rules ruleList t r source state b0 Ht Hr Hb) as [[Hm _] | H].
    + congruence.
    + exact H.
  - apply Forall_cons in Hall as [[Ht _] Hall].
    assert (Hall' := Hall). apply Forall_cons in Hall' as [[Ht1 [r1 Hr1]] _].
    cbn [listedLoop]. rewrite Hr1.
    assert (Hb' := consult_held rules ruleList t r source state b0 Ht Hr Hb).
    assert (Hnext : exists t' r' c' q,
               fst (listedLoop rules source state t1 r1 rest (S i) (consult (Some t) r source state b0))
               = mkBest (Some t') (Some r') (Some c') q
               /\ t' ∈ ruleList /\ getProperty rules t' = Some r'
               /\ match' r' source state = Some c').
    { apply (IH t1 r1 (S i) _ tl rl cl Hall Hr1); [|exact Hrl | exact Hcl |].
      - rewrite <- Hlast. reflexivity.
      - destruct Hb' as [[_ ->] | H]; [exact Hb | right; exact H]. }
    destruct (capture (consult (Some t) r source state b0)) as [c0|] eqn:Hc0; [|exact Hnext].
    destruct (quality r1); [exact Hnext|]. simpl.
    destruct Hb' as [[_ E] | H]; [|exact H].
    rewrite E in *. destruct Hb as [-> | H]; [discriminate | exact H].
Qed.

(** With a last rule that recognizes the source, the walk ends holding the
    capture of some rule of the priority order. *)
Lemma selectListed_with_catch_all rules ruleList source state tl rl cl :
  Forall (fun t => t <> "" /\ is_Some (getProperty rules t)) ruleList ->
  last ruleList = Some tl -> getProperty rules tl = Some rl ->
  match' rl source state = Some cl ->
  exists best n t r c,
    selectListed rules ruleList source state = Some (best, n)
    /\ winner best = Some (t, r, c)
    /\ t ∈ ruleList /\ getProperty rules t = Some r /\ match' r source state = Some c.
Proof.
  intros Hall Hlast Hrl Hcl. unfold selectListed.
  destruct ruleList as [|t0 rest] eqn:El; [discriminate|]. rewrite <- El in *.
  assert (Hall' : Forall (fun t' => t' ∈ ruleList /\ is_Some (getProperty rules t')) (t0 :: rest)).
  { rewrite <- El. apply Forall_forall. intros t' Hin. split; [exact Hin|].
    eapply (proj1 (Forall_forall _ _) Hall) in Hin. tauto. }
  assert (H0 : is_Some (getProperty rules t0)).
  { apply Forall_cons in Hall' as [[_ H] _]. exact H. }
  destruct H0 as [r0 Hr0]. rewrite Hr0.
  rewrite El in Hlast.
  destruct (listedLoop_held rules ruleList source state rest t0 r0 0 noBest tl rl cl
              Hall' Hr0 Hlast Hrl Hcl (or_introl eq_refl))
    as (t & r & c & q & Hb & Ht & Hr & Hc).
  destruct (listedLoop rules source state t0 r0 rest 0 noBest) as [b n].
  simpl in Hb. subst b. exists (mkBest (Some t) (Some r) (Some c) q), n, t, r, c.
  split; [reflexivity|]. split; [|auto]. unfold winner. simpl.
  assert (Hne : t <> "").
  { eapply (proj1 (Forall_forall _ _) Hall) in Ht. tauto. }
  destruct (String.eqb_spec t ""); [contradiction | reflexivity].
Qed.

(** ** References without a definition *)

Lemma parseRef_unresolved c l x st R D :
  holdsRefs st R -> holdsDefs st D -> refName c = Some x -> inherited x = false ->
  D !! x = None ->
  exists st', parseRef c l st = Done l st' /\ heap st' = heap st.
Proof.
  intros HR HD Hname Hord Hx.
  assert (Huse : useDef x l st = Done tt st).
  { unfold useDef, bind. unfold getState at 1.
    destruct HD as [[HD _] | HD]; rewrite HD; [reflexivity|].
    unfold defsValue. rewrite (defs_property D x Hord), Hx. reflexivity. }
  destruct (awaitDef_run x l st R HR Hord) as (s1 & Hawait & _).
  unfold parseRef, bind, must. rewrite Hname. unfold ret at 1.
  rewrite Huse, Hawait. eexists. split; reflexivity.
Qed.

Lemma lastDef_defined x es : forall d, is_Some (lastDef x es (Some d)).
Proof.
  induction es as [|[c l|c] es IH]; intros d; simpl; [eexists; reflexivity | apply IH |].
  destruct (decide (defName c = Some x)); apply IH.
Qed.

Lemma lastDef_none_app x pre es :
  lastDef x (pre ++ es) None = None -> lastDef x pre None = None /\ lastDef x es None = None.
Proof.
  rewrite lastDef_app. destruct (lastDef x pre None) as [d|] eqn:E; [|auto].
  intros H. destruct (lastDef_defined x es d) as [d' Hd']. congruence.
Qed.

Lemma seeEvents_unresolved es : forall pre st st',
  resolvedSoFar pre st ->
  NoDup (refNodes (pre ++ es)) ->
  (forall l, l ∈ refNodes (pre ++ es) -> l < length (heap st)) ->
  (forall e, e ∈ es -> ordinaryName e) ->
  seeEvents es st = Done tt st' ->
  forall l x, l ∈ refNodesOf x (pre ++ es) -> lastDef x (pre ++ es) None = None ->
    heap st' !! l = heap st !! l.
Proof.
  induction es as [|e es IH]; intros pre st st' Hinv Hnd Hlt Hnamed Hrun l x Hl Hx.
  - injection Hrun as <-. reflexivity.
  - destruct (seeEvents_run [e] pre st Hinv) as (st1 & Hrun1 & Hinv1).
    + replace (pre ++ e :: es) with ((pre ++ [e]) ++ es) in Hnd
        by (rewrite <- app_assoc; reflexivity).
      rewrite refNodes_app in Hnd. apply NoDup_app in Hnd as (H1 & _). exact H1.
    + intros l0 Hl0. apply Hlt.
      replace (pre ++ e :: es) with ((pre ++ [e]) ++ es) by (rewrite <- app_assoc; reflexivity).
      rewrite refNodes_app. apply elem_of_app. left. exact Hl0.
    + intros e0 He0. apply list_elem_of_singleton in He0 as ->.
      apply Hnamed, list_elem_of_here.
    + assert (Hstep : seeEvent e st = Done tt st1).
      { simpl in Hrun1. unfold bind in Hrun1. destruct (seeEvent e st) as [[] s| | |]; try discriminate.
        injection Hrun1 as ->. reflexivity. }
      simpl in Hrun. unfold bind in Hrun. rewrite Hstep in Hrun.
      assert (Hlen : length (heap st) <= length (heap st1) /\ heap st1 !! l = heap st !! l).
      { destruct (Hnamed e (list_elem_of_here _ _)) as (x0 & Hx0 & Hord0).
        destruct Hinv as (R & D & HR & HD & HRx & HDx & _).
        assert (Hnd' : NoDup (refNodes pre ++ refNodes [e] ++ refNodes es)).
        { rewrite <- !refNodes_app. exact Hnd. }
        assert (Hxpre : lastDef x pre None = None).
        { apply lastDef_none_app in Hx. tauto. }
        destruct e as [c0 l0 | c0]; simpl in Hx0, Hstep; unfold bind in Hstep.
        - assert (Hl0 : l0 < length (heap st)).
          { apply Hlt. rewrite refNodes_app. apply elem_of_app. right. apply list_elem_of_here. }
          destruct (parseRef_run c0 l0 x0 st R D HR HD Hx0 Hord0 Hl0)
            as (st2 & Hrun2 & _ & _ & Hlen2 & Hother & _).
          rewrite Hrun2 in Hstep. injection Hstep as <-. split; [lia|].
          destruct (decide (l = l0)) as [->|Hne]; [|apply Hother, Hne].
          assert (x0 = x) as ->.
          { eapply (refNodesOf_one_name (pre ++ SeeRef c0 l0 :: es)); [exact Hnd| |exact Hl].
            rewrite refNodesOf_app. apply elem_of_app. right. simpl.
            rewrite decide_True by exact Hx0. apply list_elem_of_here. }
          destruct (parseRef_unresolved c0 l0 x st R D HR HD Hx0 Hord0) as (st3 & Hrun3 & Hheap).
          { rewrite HDx. exact Hxpre. }
          rewrite Hrun3 in Hrun2. injection Hrun2 as <-. rewrite Hheap. reflexivity.
        - assert (Hls : forall l1, l1 ∈ refsAt R x0 -> l1 < length (heap st)).
          { intros l1 Hl1. apply Hlt. rewrite refNodes_app. apply elem_of_app. left.
            rewrite HRx in Hl1. apply refNodesOf_elem in Hl1 as (c1 & Hc1 & _).
            apply refNodes_elem. eauto. }
          destruct (parseDef_run c0 (fun _ => ret []) x0 st R D HR HD Hx0 Hord0 Hls)
            as (dn & st2 & Hrun2 & _ & _ & Hlen2 & _ & Hother).
          rewrite Hrun2 in Hstep. injection Hstep as <-. split; [lia|].
          assert (Hne : x0 <> x).
          { intros ->. rewrite lastDef_app in Hx. simpl in Hx.
            rewrite decide_True in Hx by exact Hx0.
            destruct (lastDef_defined x es (str (group c0 2), str (group c0 3))) as [d Hd].
            congruence. }
          assert (Hlall : l ∈ refNodes (pre ++ SeeDef c0 :: es)).
          { apply refNodesOf_elem in Hl as (c1 & Hc1 & _). apply refNodes_elem. eauto. }
          apply Hother; [|apply Hlt, Hlall].
          rewrite HRx. intros Hin. apply Hne.
          eapply (refNodesOf_one_name (pre ++ SeeDef c0 :: es)); [exact Hnd| |exact Hl].
          rewrite refNodesOf_app. apply elem_of_app. left. exact Hin. }
      destruct Hlen as [Hlen Hsame]. rewrite <- Hsame.
      refine (IH (pre ++ [e]) st1 st' Hinv1 _ _ _ Hrun l x _ _).
      * rewrite <- app_assoc. exact Hnd.
      * intros l1 Hl1. rewrite <- app_assoc in Hl1. specialize (Hlt l1 Hl1). simpl in Hlt. lia.
      * intros e' He'. apply Hnamed, list_elem_of_further, He'.
      * rewrite <- app_assoc. exact Hl.
      * rewrite <- app_assoc. exact Hx.
Qed.

(** ** [unescapeUrl] *)

Lemma UNESCAPE_URL_R_value :
  UNESCAPE_URL_R
  = mkRegExp (Seq (Chars false [CRange 92 92])
                (Group 1 (Chars true [CRange 48 57; CRange 65 90; CRange 97 122; CSpace])))
      1 true false false.
Proof. vm_compute. reflexivity. Qed.

Lemma in_class_backslash c : in_class false [CRange 92 92] c = Ascii.eqb c "\".
Proof.
  unfold in_class. cbn [existsb in_item andb orb]. rewrite !orb_false_r.
  destruct (Ascii.eqb_spec c "\") as [->|Hne]; [reflexivity|].
  apply andb_false_iff.
  destruct (N.leb_spec 92 (N_of_ascii c)); [|left; reflexivity].
  destruct (N.leb_spec (N_of_ascii c) 92); [|right; reflexivity].
  exfalso. apply Hne. rewrite <- (ascii_N_embedding c).
  replace (N_of_ascii c) with 92%N by lia. reflexivity.
Qed.

Lemma match_at_unescape b (s : string) i :
  match_at UNESCAPE_URL_R b s i
  = match s with
    | String a (String c s') =>
        if Ascii.eqb a "\" && negb (isAlnumOrSpace c)
        then Some (mkCapture [Some (String a (String c "")); Some (String c "")]
                     (Some (number (Z.of_nat i))), 2)
        else None
    | _ => None
    end.
Proof.
  unfold match_at. rewrite UNESCAPE_URL_R_value.
  cbn [pattern ignoreCase multiline nGroups rmatch rest xorb endIndex captures before].
  destruct s as [|a s]; [reflexivity|].
  rewrite in_class_backslash. destruct (Ascii.eqb a "\"); [|destruct s; reflexivity].
  destruct s as [|c s]; [reflexivity|]. fold (isAlnumOrSpace c).
  destruct (isAlnumOrSpace c); [reflexivity|]. cbn [negb andb].
  cbn [endIndex captures]. replace (S (S i) - i) with 2 by lia.
  replace (S (S i) - S i) with 1 by lia. reflexivity.
Qed.

Lemma unescapeFrom_nil b i : unescapeFrom b "" i = "".
Proof. unfold unescapeFrom. cbn [scan]. rewrite match_at_unescape. reflexivity. Qed.

Lemma unescapeFrom_last b i a : unescapeFrom b (String a "") i = String a "".
Proof.
  unfold unescapeFrom. cbn [scan]. rewrite !match_at_unescape. reflexivity.
Qed.

Lemma unescapeFrom_keep b i a c (s : string) :
  Ascii.eqb a "\" && negb (isAlnumOrSpace c) = false ->
  unescapeFrom b (String a (String c s)) i
  = String a (unescapeFrom (Some a) (String c s) (S i)).
Proof.
  intros H. unfold unescapeFrom at 1. cbn [scan]. rewrite match_at_unescape, H. reflexivity.
Qed.

Lemma unescapeFrom_escape b i a c (s : string) :
  Ascii.eqb a "\" && negb (isAlnumOrSpace c) = true ->
  unescapeFrom b (String a (String c s)) i
  = String c (unescapeFrom (Some c) s (S (S i))).
Proof.
  intros H. unfold unescapeFrom at 1. cbn [scan]. rewrite match_at_unescape, H. reflexivity.
Qed.

(** The scan does not depend on the position it starts from. *)
Lemma unescapeFrom_shift (s : string) : forall b i b' i',
  unescapeFrom b s i = unescapeFrom b' s i'.
Proof.
  remember (String.length s) as n eqn:Hn. revert s Hn.
  induction n as [n IH] using lt_wf_ind. intros s Hn b i b' i'.
  destruct s as [|a [|c s]].
  - rewrite !unescapeFrom_nil. reflexivity.
  - rewrite !unescapeFrom_last. reflexivity.
  - destruct (Ascii.eqb a "\" && negb (isAlnumOrSpace c)) eqn:E.
    + rewrite !unescapeFrom_escape by exact E. f_equal.
      apply (IH (String.length s)); [rewrite Hn; simpl; lia | reflexivity].
    + rewrite !unescapeFrom_keep by exact E. f_equal.
      apply (IH (String.length (String c s))); [rewrite Hn; simpl; lia | reflexivity].
Qed.

Lemma unescapeUrl_from (s : string) : unescapeUrl s = unescapeFrom None s 0.
Proof.
  unfold unescapeUrl, replace, unescapeFrom. rewrite UNESCAPE_URL_R_value. reflexivity.
Qed.

(** ** Names of references ([normalizeName]) *)

Lemma WHITESPACE_R_value :
  WHITESPACE_R = mkRegExp (Repeat 1 None true (Chars false [CSpace])) 0 true false false.
Proof. vm_compute. reflexivity. Qed.

Lemma in_class_space c : in_class false [CSpace] c = is_space c.
Proof. unfold in_class. cbn [existsb in_item andb orb]. rewrite !orb_false_r. reflexivity. Qed.

Lemma trim_start_length (s : string) : String.length (trim_start s) <= String.length s.
Proof.
  induction s as [|a s IH]; simpl; [lia|].
  destruct (is_space a); rewrite ?string_length_cons; lia.
Qed.

(** The greedy run of white space: the loop ends after the last white-space
    character of the run. *)
Lemma greedy_space_loop : forall n x,
  String.length (rest x) < n ->
  exists z,
    repeat_loop (rmatch false false (Chars false [CSpace])) [] true Some n 0 None x = Some z
    /\ rest z = trim_start (rest x) /\ captures z = captures x
    /\ endIndex z + String.length (trim_start (rest x)) = endIndex x + String.length (rest x).
Proof.
  induction n as [|n IH]; intros x Hn; [lia|].
  rewrite repeat_loop_S. cbv zeta. cbn [Nat.ltb Nat.leb].
  rewrite rmatch_Chars. cbn [clear_captures rest fold_left endIndex captures xorb].
  destruct (rest x) as [|a s] eqn:Hr.
  - exists x. rewrite Hr. simpl. auto.
  - rewrite in_class_space. cbn [trim_start]. destruct (is_space a).
    + replace (Nat.eqb (S (endIndex x)) (endIndex x)) with false
        by (symmetry; apply Nat.eqb_neq; lia).
      change (Nat.eqb 0 0) with true. cbn [andb pred option_map].
      destruct (IH (mkMatchState (Some a) s (S (endIndex x)) (captures x)))
        as (z & Hz & Hrest & Hcap & Hpos); [rewrite string_length_cons in Hn; simpl; lia|].
      exists z. cbn [rest endIndex captures] in Hz, Hrest, Hcap, Hpos. rewrite Hz.
      split; [reflexivity|]. split; [exact Hrest|]. split; [exact Hcap|].
      rewrite string_length_cons. lia.
    + exists x. rewrite Hr. auto.
Qed.

Lemma string_take_all_but (s : string) k :
  k + String.length (trim_start s) = String.length s ->
  substring_from k s = trim_start s.
Proof.
  revert k. induction s as [|a s IH]; intros k Hk.
  - destruct k; reflexivity.
  - cbn [trim_start] in *. destruct (is_space a).
    + destruct k as [|k].
      * assert (H := trim_start_length s). rewrite string_length_cons in Hk. lia.
      * simpl. apply IH. rewrite string_length_cons in Hk. lia.
    + assert (k = 0) as -> by lia. reflexivity.
Qed.

Lemma match_at_whitespace b (s : string) i :
  match_at WHITESPACE_R b s i
  = match s with
    | String a s' =>
        if is_space a
        then Some (mkCapture
                     [Some (string_take (S (String.length s' - String.length (trim_start s')))
                              s)]
                     (Some (number (Z.of_nat i))),
                   S (String.length s' - String.length (trim_start s')))
        else None
    | EmptyString => None
    end.
Proof.
  unfold match_at. rewrite WHITESPACE_R_value.
  cbn [pattern ignoreCase multiline nGroups]. rewrite rmatch_Repeat.
  cbn [rest groups_in]. destruct s as [|a s].
  - change (String.length "" + 1 + 1) with 2. rewrite repeat_loop_S. reflexivity.
  - rewrite string_length_cons.
    replace (S (String.length s) + 1 + 1) with (S (S (S (String.length s)))) by lia.
    rewrite repeat_loop_S. cbv zeta. cbn [Nat.ltb Nat.leb].
    rewrite rmatch_Chars. cbn [clear_captures rest fold_left endIndex captures xorb].
    rewrite in_class_space. destruct (is_space a); [|reflexivity].
    change (Nat.eqb 1 0) with false. cbn [andb pred option_map].
    destruct (greedy_space_loop (S (S (String.length s)))
                (mkMatchState (Some a) s (S i) (replicate 1 None)))
      as (z & Hz & Hrest & Hcap & Hpos); [simpl; lia|].
    cbn [rest endIndex captures] in Hz, Hrest, Hcap, Hpos.
    change (replicate (S 0) None) with (replicate 1 (@None string)).
    rewrite Hz, Hcap. assert (Hle := trim_start_length s).
    replace (endIndex z - i) with (S (String.length s - String.length (trim_start s))) by lia.
    reflexivity.
Qed.

Lemma substitution_space c : substitution " " c = " ".
Proof. reflexivity. Qed.

(** Skipping the rest of a match. *)
Lemma scan_skip {A} (re : RegExp) all (onm : Capture -> A -> A) (onc : ascii -> A -> A) nil
    skip : forall (s : string) b i t,
  skip <= String.length s ->
  exists b',
    scan re all onm onc nil b s i skip t
    = scan re all onm onc nil b' (substring_from skip s) (i + skip) 0 t.
Proof.
  induction skip as [|skip IH]; intros s b i t Hs.
  - exists b. rewrite Nat.add_0_r. reflexivity.
  - destruct s as [|a s]; [simpl in Hs; lia|]. cbn [scan substring_from].
    destruct (IH s (Some a) (S i) t) as [b' Hb']; [rewrite string_length_cons in Hs; lia|].
    exists b'. rewrite Hb'. f_equal. lia.
Qed.

Lemma collapse_nil b i :
  scan WHITESPACE_R true (fun capture out => substitution " " capture +:+ out)
    (fun c out => String c out) EmptyString b "" i 0 true = "".
Proof. cbn [scan]. rewrite match_at_whitespace. reflexivity. Qed.

Lemma collapse_char b i a (s : string) :
  is_space a = false ->
  scan WHITESPACE_R true (fun capture out => substitution " " capture +:+ out)
    (fun c out => String c out) EmptyString b (String a s) i 0 true
  = String a (scan WHITESPACE_R true (fun capture out => substitution " " capture +:+ out)
                (fun c out => String c out) EmptyString (Some a) s (S i) 0 true).
Proof. intros H. cbn [scan]. rewrite match_at_whitespace, H. reflexivity. Qed.

Lemma collapse_space b i a (s : string) :
  is_space a = true ->
  exists b' i',
    scan WHITESPACE_R true (fun capture out => substitution " " capture +:+ out)
      (fun c out => String c out) EmptyString b (String a s) i 0 true
    = String " " (scan WHITESPACE_R true (fun capture out => substitution " " capture +:+ out)
                    (fun c out => String c out) EmptyString b' (trim_start s) i' 0 true).
Proof.
  intros H. cbn [scan]. rewrite match_at_whitespace, H. rewrite substitution_space.
  assert (Hle := trim_start_length s).
  destruct (scan_skip WHITESPACE_R true
              (fun capture out => substitution " " capture +:+ out)
              (fun c out => String c out) EmptyString
              (String.length s - String.length (trim_start s)) s (Some a) (S i) true)
    as [b' Hb']; [lia|].
  rewrite Hb'. rewrite string_take_all_but by lia. eexists. eexists. reflexivity.
Qed.

(** The scan does not depend on the position it starts from. *)
Lemma collapse_shift (s : string) : forall b i b' i',
  scan WHITESPACE_R true (fun capture out => substitution " " capture +:+ out)
    (fun c out => String c out) EmptyString b s i 0 true
  = scan WHITESPACE_R true (fun capture out => substitution " " capture +:+ out)
      (fun c out => String c out) EmptyString b' s i' 0 true.
Proof.
  remember (String.length s) as n eqn:Hn. revert s Hn.
  induction n as [n IH] using lt_wf_ind. intros s Hn b i b' i'.
  destruct s as [|a s]; [rewrite !collapse_nil; reflexivity|].
  destruct (is_space a) eqn:E.
  - destruct (collapse_space b i a s E) as (b1 & i1 & ->).
    destruct (collapse_space b' i' a s E) as (b2 & i2 & ->). f_equal.
    assert (Hle := trim_start_length s).
    apply (IH (String.length (trim_start s))); [rewrite Hn, string_length_cons; lia | reflexivity].
  - rewrite !collapse_char by exact E. f_equal.
    apply (IH (String.length s)); [rewrite Hn, string_length_cons; lia | reflexivity].
Qed.

Lemma replace_whitespace_eq (s : string) :
  replace WHITESPACE_R " " s
  = match s with
    | String a s' =>
        if is_space a then String " " (replace WHITESPACE_R " " (trim_start s'))
        else String a (replace WHITESPACE_R " " s')
    | EmptyString => EmptyString
    end.
Proof.
  unfold replace. replace (global WHITESPACE_R) with true
    by (rewrite WHITESPACE_R_value; reflexivity).
  destruct s as [|a s]; [apply collapse_nil|].
  destruct (is_space a) eqn:E.
  - destruct (collapse_space None 0 a s E) as (b1 & i1 & ->). f_equal. apply collapse_shift.
  - rewrite collapse_char by exact E. f_equal. apply collapse_shift.
Qed.


Lemma toLowerCase_cons a (s : string) :
  toLowerCase (String a s) = String (lowerChar a) (toLowerCase s).
Proof. reflexivity. Qed.

Lemma lowerChar_space a : is_space (lowerChar a) = is_space a.
Proof. destruct a as [[] [] [] [] [] [] [] []]; reflexivity. Qed.

Lemma lowerChar_again a : lowerChar (lowerChar a) = lowerChar a.
Proof. destruct a as [[] [] [] [] [] [] [] []]; reflexivity. Qed.

Lemma trim_start_toLowerCase (s : string) :
  trim_start (toLowerCase s) = toLowerCase (trim_start s).
Proof.
  induction s as [|a s IH]; [reflexivity|].
  rewrite toLowerCase_cons. cbn [trim_start]. rewrite lowerChar_space.
  destruct (is_space a); [exact IH | reflexivity].
Qed.

Lemma toLowerCase_length (s : string) : String.length (toLowerCase s) = String.length s.
Proof.
  induction s as [|a s IH]; [reflexivity|].
  rewrite toLowerCase_cons, !string_length_cons, IH. reflexivity.
Qed.

Lemma normalizeName_nil : normalizeName "" = "".
Proof. unfold normalizeName. rewrite replace_whitespace_eq. reflexivity. Qed.

Lemma normalizeName_char a (s : string) :
  is_space a = false -> normalizeName (String a s) = String (lowerChar a) (normalizeName s).
Proof.
  intros H. unfold normalizeName. rewrite replace_whitespace_eq, H. apply toLowerCase_cons.
Qed.

Lemma normalizeName_space a (s : string) :
  is_space a = true -> normalizeName (String a s) = String " " (normalizeName (trim_start s)).
Proof.
  intros H. unfold normalizeName. rewrite replace_whitespace_eq, H. apply toLowerCase_cons.
Qed.

Lemma normalizeName_lower (s : string) : normalizeName (toLowerCase s) = normalizeName s.
Proof.
  remember (String.length s) as n eqn:Hn. revert s Hn.
  induction n as [n IH] using lt_wf_ind. intros s Hn.
  destruct s as [|a s]; [reflexivity|]. rewrite toLowerCase_cons.
  destruct (is_space a) eqn:E.
  - rewrite !normalizeName_space by (rewrite ?lowerChar_space; exact E). f_equal.
    rewrite trim_start_toLowerCase. assert (Hle := trim_start_length s).
    apply (IH (String.length (trim_start s))); [rewrite Hn, string_length_cons; lia | reflexivity].
  - rewrite !normalizeName_char by (rewrite ?lowerChar_space; exact E).
    rewrite lowerChar_again. f_equal.
    apply (IH (String.length s)); [rewrite Hn, string_length_cons; lia | reflexivity].
Qed.

(** ** The default rules at one parse position *)

Lemma getProperty_registry_inv (l : list ParserRule) t r :
  getProperty (map (fun r => (name r, r)) l) t = Some r -> r ∈ l /\ name r = t.
Proof.
  induction l as [|r0 l IH]; simpl; [discriminate|].
  destruct (String.eqb_spec (name r0) t) as [E|E].
  - intros [= <-]. split; [apply list_elem_of_here | exact E].
  - intros H. apply IH in H as [Hin Hn]. split; [apply list_elem_of_further, Hin | exact Hn].
Qed.

Lemma defaultRules_named :
  Forall (fun t => t <> "" /\ is_Some (getProperty (toRuleObject defaultRules) t))
         (Object_keys (toRuleObject defaultRules)).
Proof.
  rewrite defaultRules_order. apply Forall_forall. intros t Ht.
  apply list_elem_of_fmap in Ht as (r & -> & Hr).
  split.
  - revert r Hr. apply Forall_forall. unfold defaultRules.
    repeat first [apply List.Forall_nil | apply List.Forall_cons]; discriminate.
  - apply list_elem_of_lookup_1 in Hr as [j Hj].
    exists r. apply (defaultRules_lookup j r Hj).
Qed.

(** With the default rules the walk stays inside the rule list, and at every
    position with input left it ends holding the capture of a default rule. *)
Lemma defaultRules_select fuel source state :
  source <> "" ->
  exists best n r c,
    selectRule (toRuleObject defaultRules) (Object_keys (toRuleObject defaultRules))
      fuel source state = WalkEnds best n
    /\ winner best = Some (name r, r, c)
    /\ r ∈ defaultRules /\ match' r source state = Some c.
Proof.
  intros Hs.
  destruct (textRule_matches source state Hs) as (cl & ml & Hcl & _).
  destruct (selectListed_with_catch_all (toRuleObject defaultRules)
              (Object_keys (toRuleObject defaultRules)) source state
              "text" textRule cl defaultRules_named)
    as (best & n & t & r & c & Hsel & Hw & Ht & Hr & Hc).
  - rewrite defaultRules_order. reflexivity.
  - exact (defaultRules_lookup 27 textRule eq_refl).
  - exact Hcl.
  - destruct (selectRule_listed (toRuleObject defaultRules)
                (Object_keys (toRuleObject defaultRules)) fuel source state
                defaultRules_no_undefined)
      as (b' & n' & Hsel' & Hwalk).
    + eapply Forall_impl; [exact defaultRules_named|]. intros t0 [_ H0]. exact H0.
    + rewrite defaultRules_order. discriminate.
    + rewrite Hsel in Hsel'. injection Hsel' as <- <-.
      rewrite toRuleObject_distinct in Hr by exact defaultRules_names_distinct.
      apply getProperty_registry_inv in Hr as [Hin <-].
      exists best, n, r, c. auto.
Qed.

(** The default rules have no rule named ["undefined"], so their walk never
    leaves the rule list. *)
Lemma defaultRules_walk fuel source state b n :
  selectListed (toRuleObject defaultRules) (Object_keys (toRuleObject defaultRules))
    source state = Some (b, n) ->
  selectRule (toRuleObject defaultRules) (Object_keys (toRuleObject defaultRules))
    fuel source state = WalkEnds b n.
Proof.
  intros Hsel.
  destruct (selectRule_listed (toRuleObject defaultRules)
              (Object_keys (toRuleObject defaultRules)) fuel source state
              defaultRules_no_undefined)
    as (b' & n' & Hsel' & Hwalk).
  - eapply Forall_impl; [exact defaultRules_named|]. intros t0 [_ H0]. exact H0.
  - rewrite defaultRules_order. discriminate.
  - rewrite Hsel in Hsel'. injection Hsel' as <- <-. exact Hwalk.
Qed.

(** ** [preprocess] as three regular-expression replacements *)

Lemma in_class_single n c :
  (n < 256)%N -> in_class false [CRange n n] c = Ascii.eqb c (ascii_of_N n).
Proof.
  intros Hn. unfold in_class. cbn [existsb in_item andb orb]. rewrite !orb_false_r.
  destruct (Ascii.eqb_spec c (ascii_of_N n)) as [->|Hne].
  - rewrite N_ascii_embedding by exact Hn. rewrite N.leb_refl. reflexivity.
  - apply andb_false_iff.
    destruct (N.leb_spec n (N_of_ascii c)); [|left; reflexivity].
    destruct (N.leb_spec (N_of_ascii c) n); [|right; reflexivity].
    exfalso. apply Hne. rewrite <- (ascii_N_embedding c). f_equal. lia.
Qed.

Lemma TAB_R_value : TAB_R = mkRegExp (Chars false [CRange 9 9]) 0 true false false.
Proof. vm_compute. reflexivity. Qed.

Lemma FORMFEED_R_value : FORMFEED_R = mkRegExp (Chars false [CRange 12 12]) 0 true false false.
Proof. vm_compute. reflexivity. Qed.

Lemma CR_NEWLINE_R_value :
  CR_NEWLINE_R
  = mkRegExp (Seq (Chars false [CRange 13 13])
                (Repeat 0 (Some 1) true (Chars false [CRange 10 10]))) 0 true false false.
Proof. vm_compute. reflexivity. Qed.


(** One attempt of a one-character pattern. *)
Lemma match_at_single n b (s : string) i :
  (n < 256)%N ->
  match_at (mkRegExp (Chars false [CRange n n]) 0 true false false) b s i
  = match s with
    | String a _ =>
        if Ascii.eqb a (ascii_of_N n)
        then Some (mkCapture [Some (String a "")] (Some (number (Z.of_nat i))), 1)
        else None
    | EmptyString => None
    end.
Proof.
  intros Hn. unfold match_at.
  cbn [pattern ignoreCase multiline nGroups rmatch rest xorb endIndex captures before].
  destruct s as [|a s]; [reflexivity|].
  rewrite in_class_single by exact Hn. destruct (Ascii.eqb a (ascii_of_N n)); [|reflexivity].
  cbn [endIndex captures]. replace (S i - i) with 1 by lia. reflexivity.
Qed.

Lemma replace_TAB_scan (s : string) : forall b i,
  scan TAB_R true (fun capture out => substitution "    " capture +:+ out)
    (fun c out => String c out) EmptyString b s i 0 true
  = replace_TAB s.
Proof.
  rewrite TAB_R_value.
  induction s as [|a s IH]; intros b i; cbn [scan]; rewrite match_at_single by reflexivity;
    [reflexivity|].
  change (ascii_of_N 9) with TAB. simpl replace_TAB.
  destruct (Ascii.eqb a TAB); rewrite IH; reflexivity.
Qed.

Lemma replace_FORMFEED_scan (s : string) : forall b i,
  scan FORMFEED_R true (fun capture out => substitution "" capture +:+ out)
    (fun c out => String c out) EmptyString b s i 0 true
  = replace_FORMFEED s.
Proof.
  rewrite FORMFEED_R_value.
  induction s as [|a s IH]; intros b i; cbn [scan]; rewrite match_at_single by reflexivity;
    [reflexivity|].
  change (ascii_of_N 12) with FF. simpl replace_FORMFEED.
  destruct (Ascii.eqb a FF); rewrite IH; reflexivity.
Qed.

Lemma match_at_CR_NEWLINE b (s : string) i :
  match_at (mkRegExp (Seq (Chars false [CRange 13 13])
                        (Repeat 0 (Some 1) true (Chars false [CRange 10 10])))
              0 true false false) b s i
  = match s with
    | String a s' =>
        if Ascii.eqb a CR then
          match s' with
          | String c _ =>
              if Ascii.eqb c LF
              then Some (mkCapture [Some (String a (String c ""))] (Some (number (Z.of_nat i))), 2)
              else Some (mkCapture [Some (String a "")] (Some (number (Z.of_nat i))), 1)
          | EmptyString => Some (mkCapture [Some (String a "")] (Some (number (Z.of_nat i))), 1)
          end
        else None
    | EmptyString => None
    end.
Proof.
  unfold match_at.
  cbn [pattern ignoreCase multiline nGroups].
  rewrite rmatch_Seq, rmatch_Chars. cbn [rest xorb].
  destruct s as [|a s]; [reflexivity|].
  rewrite in_class_single by reflexivity. change (ascii_of_N 13) with CR.
  destruct (Ascii.eqb a CR); [|reflexivity].
  rewrite rmatch_Repeat. cbn [rest endIndex captures groups_in].
  destruct s as [|c s].
  - change (String.length "" + 0 + 1) with 1. rewrite repeat_loop_S. cbv zeta.
    cbn [Nat.ltb Nat.leb rmatch rest clear_captures fold_left endIndex captures].
    replace (S i - i) with 1 by lia. reflexivity.
  - change (String.length (String c s) + 0 + 1) with (S (String.length s + 0 + 1)).
    rewrite repeat_loop_S. cbv zeta.
    cbn [Nat.ltb Nat.leb rmatch rest clear_captures fold_left endIndex captures xorb].
    rewrite in_class_single by reflexivity. change (ascii_of_N 10) with LF.
    destruct (Ascii.eqb c LF).
    + change (Nat.eqb 0 0) with true. cbn [andb].
      replace (Nat.eqb (S (S i)) (S i)) with false by (symmetry; apply Nat.eqb_neq; lia).
      cbn [pred option_map].
      replace (String.length s + 0 + 1) with (S (String.length s)) by lia.
      rewrite repeat_loop_S. cbn [endIndex captures].
      replace (S (S i) - i) with 2 by lia. reflexivity.
    + cbn [endIndex captures]. replace (S i - i) with 1 by lia. reflexivity.
Qed.

Lemma replace_CR_NEWLINE_scan (s : string) : forall b i,
  scan CR_NEWLINE_R true (fun capture out => substitution (String LF "") capture +:+ out)
    (fun c out => String c out) EmptyString b s i 0 true
  = replace_CR_NEWLINE s.
Proof.
  rewrite CR_NEWLINE_R_value.
  remember (String.length s) as n eqn:Hn. revert s Hn.
  induction n as [n IH] using lt_wf_ind. intros s Hn b i.
  destruct s as [|a s]; cbn [scan]; rewrite match_at_CR_NEWLINE; [reflexivity|].
  rewrite replace_CR_NEWLINE_eq.
  destruct (Ascii.eqb a CR).
  - destruct s as [|c s]; [reflexivity|].
    destruct (Ascii.eqb c LF).
    + cbn [scan]. change (substitution (String LF "") _) with (String LF "").
      rewrite string_app_cons, string_app_nil. f_equal.
      apply (IH (String.length s)); [rewrite Hn; simpl; lia | reflexivity].
    + change (substitution (String LF "") _) with (String LF "").
      rewrite string_app_cons, string_app_nil. f_equal.
      apply (IH (String.length (String c s))); [rewrite Hn; simpl; lia | reflexivity].
  - f_equal. apply (IH (String.length s)); [rewrite Hn; simpl; lia | reflexivity].
Qed.

(** ** Ties between the emphasis rules *)

Lemma allBelow_spec (P : Z -> bool) (n : N) :
  allBelow P n = true -> forall k, (0 <= k < Z.of_N n)%Z -> P k = true.
Proof.
  unfold allBelow.
  assert (H : forall n,
             fst (N.iter n (fun p => (fst p + 1, snd p && P (fst p))%Z) (0%Z, true)) = Z.of_N n
             /\ (snd (N.iter n (fun p => (fst p + 1, snd p && P (fst p))%Z) (0%Z, true)) = true ->
                 forall k, (0 <= k < Z.of_N n)%Z -> P k = true)).
  { clear n. induction n as [|n [IH1 IH2]] using N.peano_ind.
    - split; [reflexivity|]. intros _ k Hk. simpl in Hk. lia.
    - rewrite N.iter_succ. cbn [fst snd]. rewrite IH1. split; [lia|].
      intros H k Hk. apply andb_true_iff in H as [H1 H2].
      destruct (Z.eq_dec k (Z.of_N n)) as [->|Hne]; [exact H2|].
      apply IH2; [exact H1 | lia]. }
  apply H.
Qed.

Lemma ascendingAt_table : allBelow ascendingAt 65536 = true.
Proof. vm_compute. reflexivity. Qed.
(** * The claims *)

(** ** C1: merging the initial state *)



(** ** C2: a rule without a scorer ends the walk *)

(** C2.  Let the walk over the rules [pre] end holding a capture
    ([selectListed] is the walk as far as it consults the rules of its list).
    If the next rule [r] of the priority order declares no scorer, the walk
    over [pre ++ r :: post] ends as the walk over [pre] did: it consults at
    most the rules of [pre], so [r] is never consulted and cannot win,
    whatever its recognizer would return.  If [r] declares a scorer and every
    rule of [pre] was consulted, [r] is consulted as well: the walk over
    [pre ++ r :: post] goes on with the body of the loop for [r].  Neither
    case looks at whether the rule of the held capture has a scorer. *)
Theorem scorerless_rule_ends_walk rules pre r post fuel source state b n :
  selectListed rules pre source state = Some (b, n) ->
  is_Some (capture b) ->
  ((forall nextRule, getProperty rules r = Some nextRule -> quality nextRule = None) ->
   selectRule rules (pre ++ r :: post) fuel source state = WalkEnds b n /\ n <= length pre)
  /\ (forall nextRule q,
        getProperty rules r = Some nextRule -> quality nextRule = Some q ->
        n = length pre ->
        selectListed rules (pre ++ [r]) source state
        = Some (consult (Some r) nextRule source state b, S (length pre))
        /\ selectRule rules (pre ++ r :: post) fuel source state
           = ruleLoop rules source state fuel r nextRule post (length pre) b).
Proof.
  unfold selectListed, selectRule. destruct pre as [|t rest]; [discriminate|]. simpl.
  destruct (getProperty rules t) as [r0|]; [|discriminate].
  intros [= Hwalk] Hc.
  assert (Hb : fst (listedLoop rules source state t r0 rest 0 noBest) = b)
    by (rewrite Hwalk; reflexivity).
  assert (Hn : snd (listedLoop rules source state t r0 rest 0 noBest) = n)
    by (rewrite Hwalk; reflexivity).
  split.
  - intros Hr. split.
    + rewrite ruleLoop_stops; [rewrite Hwalk; reflexivity | rewrite Hb; exact Hc | exact Hr].
    + rewrite <- Hn. apply (listedLoop_count rules source state rest t r0 0 noBest).
  - intros nextRule q Hr Hq Hlen. split.
    + rewrite (listedLoop_continues rules source state rest r nextRule q);
        [rewrite Hb; reflexivity | rewrite Hn; lia | exact Hr | exact Hq].
    + rewrite (ruleLoop_continues rules source state fuel rest r nextRule q post);
        [rewrite Hb; reflexivity | rewrite Hn; lia | exact Hr | exact Hq].
Qed.

(** With the default rules and the inline source [*a*]: ["em"] matches, the
    scorers ["strong"] and ["u"] are consulted, and the walk ends before
    ["del"], which has no scorer; 24 rules were consulted and ["text"], which
    would match, is not among them. *)
Lemma scorerless_rule_ends_walk_witness :
  exists b,
    selectRule (toRuleObject defaultRules)
      (take 24 (map name defaultRules) ++ "del" :: ["inlineCode"; "br"; "text"])
      0 "*a*" inlineState = WalkEnds b 24
    /\ ruleType b = Some "em".
Proof.
  assert (Hrun : option_map (fun bn => (ruleType (fst bn), isSome (capture (fst bn)), snd bn))
                   (selectListed (toRuleObject defaultRules) (take 24 (map name defaultRules))
                      "*a*" inlineState)
                 = Some (Some "em", true, 24))
    by (vm_compute; reflexivity).
  destruct (selectListed (toRuleObject defaultRules) (take 24 (map name defaultRules))
              "*a*" inlineState) as [[b n]|] eqn:Hpre; [|discriminate].
  simpl in Hrun. injection Hrun as Hem Hcap ->.
  exists b. split; [|exact Hem].
  refine (proj1 (proj1 (scorerless_rule_ends_walk (toRuleObject defaultRules)
            (take 24 (map name defaultRules)) "del" ["inlineCode"; "br"; "text"]
            0 "*a*" inlineState b 24 Hpre _) _)).
  - destruct (capture b); [eexists; reflexivity | discriminate].
  - intros nextRule H.
    rewrite (defaultRules_lookup 24 delRule eq_refl : getProperty _ "del" = _) in H.
    injection H as <-. reflexivity.
Defined.

(** ** C3: the highest quality wins, the earlier rule on a tie *)




(** ** C5: adjacent text nodes are collapsed *)




(** ** C6: no matching rule *)

(** C6.  The loop throws NoMatchingRule when the walk ends without a winner,
    but two rule sets in which every rule fails on the input never get that
    far.  With a rule named ["undefined"] that does not match, the walk reads
    [rules[undefined]] at the end of the rule list, finds that rule, and
    consults it again and again: the parse of ["x"] runs out of fuel, whatever
    fuel it is given.  With no rule at all, [rules[ruleList[0]]] is
    [undefined], and calling its [match] throws a TypeError. *)
Theorem no_matching_rule_not_reached :
  (forall source state, match' undefinedRule source state = None)
  /\ (forall defaultState fuel state h,
        createParser [undefinedRule] defaultState fuel "x" state h = OutOfFuel)
  /\ (forall defaultState fuel state h,
        createParser [] defaultState (S fuel) "x" state h = Throw TypeError).
Proof.
  assert (Hloop : forall source state fuel i,
             undefinedLoop source state undefinedRule fuel i noBest = WalkOutOfFuel).
  { intros source state. induction fuel as [|fuel IH]; intros i; [reflexivity|].
    simpl. apply IH. }
  assert (Hparse : forall fuel a s st,
             nestedParseLoop (toRuleObject [undefinedRule])
               (Object_keys (toRuleObject [undefinedRule])) fuel (String a s) [] st
             = OutOfFuel).
  { intros [|fuel] a s st; [reflexivity|]. rewrite nestedParseLoop_step.
    change (selectRule (toRuleObject [undefinedRule])
              (Object_keys (toRuleObject [undefinedRule])) fuel (String a s) (state st))
      with (undefinedLoop (String a s) (state st) undefinedRule fuel 1 noBest).
    rewrite Hloop. reflexivity. }
  split; [reflexivity|]. split.
  - intros defaultState fuel state h. unfold createParser, outerParse, nestedParse. cbv zeta.
    destruct (negb _ && negb _); apply Hparse.
  - intros defaultState fuel state h. unfold createParser, outerParse, nestedParse. cbv zeta.
    destruct (negb _ && negb _); reflexivity.
Qed.

(** ** C7: an unanchored capture *)

(** C7 (as amended).  When the capture of the winning rule carries an [index]
    that is a number other than 0 and [NaN], as the result of a regular
    expression found further on in the source does, the loop throws
    UnanchoredCapture: no node is built and no character is skipped. *)
Theorem unanchored_capture_is_fatal rules ruleList fuel source result st best n t r c i :
  source <> "" ->
  selectRule rules ruleList fuel source (state st) = WalkEnds best n ->
  winner best = Some (t, r, c) ->
  index c = Some i -> PrimFloat.eqb i 0 = false -> PrimFloat.is_nan i = false ->
  nestedParseLoop rules ruleList (S fuel) source result st = Throw UnanchoredCapture.
Proof.
  intros Hs Hsel Hw Hi Hz Hn. destruct source as [|a s]; [contradiction|].
  rewrite nestedParseLoop_step, Hsel, Hw. unfold unanchored. rewrite Hi.
  cbn [truthy]. rewrite Hz, Hn. reflexivity.
Qed.

Lemma unanchored_capture_is_fatal_witness :
  nestedParseLoop (toRuleObject [unanchoredRule]) ["unanchored"] 1 "abc" [] (mkStore ∅ [])
  = Throw UnanchoredCapture.
Proof.
  assert (Hsel : selectRule (toRuleObject [unanchoredRule]) ["unanchored"] 0 "abc" ∅
                 = WalkEnds (mkBest (Some "unanchored") (Some unanchoredRule)
                               (Some (mkCapture [Some "c"] (Some 2%float))) 0%float) 1)
    by (vm_compute; reflexivity).
  refine (unanchored_capture_is_fatal (toRuleObject [unanchoredRule]) ["unanchored"] 0 "abc" []
            (mkStore ∅ []) _ _ "unanchored" unanchoredRule (mkCapture [Some "c"] (Some 2%float))
            2%float _ Hsel eq_refl eq_refl eq_refl eq_refl).
  discriminate.
Defined.

(** C7 as stated fails: the check reads [capture.index] and nothing else.
    The recognizer of ["mid"] returns the second character of the source as a
    plain array.  On ["ab"] its capture [b] begins at offset 1, and the
    engine does not throw: it builds the node, moves the cursor by one
    character, so that [a] is skipped, and goes on with ["b"]. *)
Lemma capture_without_index_skips_characters :
  match' midRule "ab" ∅ = Some (mkCapture [Some "b"] None)
  /\ exists st,
       nestedParse (toRuleObject [midRule; charRule]) ["mid"; "text"] 2 "ab" (mkStore ∅ [])
       = Done [0; 1] st
       /\ option_map (fun n => (get n "type", get n "content")) (heap st !! 0)
          = Some (VStr "mid", VStr "b")
       /\ option_map (fun n => (get n "type", get n "content")) (heap st !! 1)
          = Some (VStr "text", VStr "b").
Proof.
  split; [reflexivity|]. eexists. split; [vm_compute; reflexivity|].
  split; vm_compute; reflexivity.
Qed.

(** ** C8: a clone is independent *)

(** C8.  [clone()] returns a new registry object that holds the same rules in
    the same order, and no sequence of [add], [insertBefore], [insertAfter]
    and [remove] calls on the clone changes the rules or the order of the
    original (or of any other registry). *)
Theorem clone_is_independent (h : Registries) r this :
  h !! r = Some this ->
  exists c h',
    clone r h = Some (c, h') /\ c <> r
    /\ h' !! c = Some this /\ h' !! r = Some this
    /\ forall ms r', r' <> c -> calls c ms h' !! r' = h' !! r'.
Proof.
  intros Hr. unfold clone, newRuleList. rewrite Hr.
  assert (Hlt : r < length h) by (apply lookup_lt_Some in Hr; exact Hr).
  exists (length h), (h ++ [this]). split; [reflexivity|]. split; [lia|].
  split; [|split].
  - rewrite lookup_app_r by lia. rewrite Nat.sub_diag. reflexivity.
  - rewrite lookup_app_l by lia. exact Hr.
  - intros ms r' Hne. apply calls_other. congruence.
Qed.

Lemma clone_is_independent_witness :
  exists c h',
    clone 0 [[charRule; pairRule]] = Some (c, h') /\ c <> 0
    /\ h' !! c = Some [charRule; pairRule] /\ h' !! 0 = Some [charRule; pairRule]
    /\ forall ms r', r' <> c -> calls c ms h' !! r' = h' !! r'.
Proof.
  exact (clone_is_independent [[charRule; pairRule]] 0 [charRule; pairRule] eq_refl).
Defined.

(** ** C9: the empty input *)

(** C9 (as amended).  When the merged state is in inline scope or has
    [disableAutoBlockNewlines] set, parsing the empty string returns an empty
    node sequence, for every rule set, with any fuel.  (In block scope the
    engine first appends two newlines and parses those with the rules.) *)
Theorem empty_input_in_inline_scope ruleListInput defaultState fuel state h :
  let latestState :=
    populateInitialState
      (Some (match state with
             | Some s => s
             | None => {[ "inline" := VBool false ]}
             end)) defaultState in
  truthy (get latestState "inline")
  || truthy (get latestState "disableAutoBlockNewlines") = true ->
  createParser ruleListInput defaultState fuel "" state h
  = Done [] (mkStore (<["prevCapture" := VUndefined]> latestState) h).
Proof.
  intros latestState Hscope. unfold createParser, outerParse. fold latestState.
  apply orb_true_iff in Hscope.
  assert (E : negb (truthy (get latestState "inline"))
              && negb (truthy (get latestState "disableAutoBlockNewlines")) = false)
    by (destruct Hscope as [-> | ->]; simpl; [reflexivity | apply andb_false_r]).
  rewrite E. unfold nestedParse. apply nestedParseLoop_empty.
Qed.

Lemma empty_input_in_inline_scope_witness :
  createParser [neverRule] ∅ 0 "" (Some {[ "inline" := VBool true ]}) []
  = Done [] (mkStore (<["prevCapture" := VUndefined]>
                        (populateInitialState (Some {[ "inline" := VBool true ]}) ∅)) []).
Proof.
  refine (empty_input_in_inline_scope [neverRule] ∅ 0 (Some {[ "inline" := VBool true ]}) [] _).
  vm_compute. reflexivity.
Defined.

(** C9 as stated fails in block scope, the default: the empty input becomes
    two newlines.  The default rules parse them to one [newline] node, and a
    rule set that does not recognize them throws. *)
Lemma empty_input_in_block_scope :
  (exists st,
      createParser defaultRules ∅ 2 "" None [] = Done [0] st
      /\ option_map (fun n => get n "type") (heap st !! 0) = Some (VStr "newline"))
  /\ createParser [neverRule] ∅ 1 "" None []
     = Throw (NoMatchingRule (Some "never") blankLine).
Proof.
  split; [eexists; split|]; vm_compute; reflexivity.
Qed.

(** ** C10: the anchor check reads [capture.index] *)

(** C10 (as amended).  Once a rule has won, the iteration throws
    UnanchoredCapture when the capture's [index] is there and is a number
    other than 0 and [NaN], and only then: a capture without an [index], or
    with the index 0 or [NaN], is not rejected.  Its builder runs, and when
    the node is built and collapsed the loop goes on with [capture] recorded
    as [state.prevCapture] and the cursor moved by the length of
    [capture[0]]: on what follows the first so many characters of the source,
    or, when the source is not longer than that, on the empty rest, where it
    returns. *)
Theorem anchor_check_reads_index rules ruleList fuel source result st best n t r c :
  source <> "" ->
  selectRule rules ruleList fuel source (state st) = WalkEnds best n ->
  winner best = Some (t, r, c) ->
  ((exists i, index c = Some i /\ PrimFloat.eqb i 0 = false /\ PrimFloat.is_nan i = false) ->
   nestedParseLoop rules ruleList (S fuel) source result st = Throw UnanchoredCapture)
  /\ ((index c = None
       \/ exists i, index c = Some i /\ (PrimFloat.eqb i 0 = true \/ PrimFloat.is_nan i = true)) ->
      nestedParseLoop rules ruleList (S fuel) source result st
      = applyRule (nestedParseLoop rules ruleList fuel) t r c source result st
      /\ forall parsed st1 st2 result' st3 matched,
           parse r c (fun source' => nestedParseLoop rules ruleList fuel source' []) st
           = Done parsed st1 ->
           defaultType parsed t st1 = Done tt st2 ->
           collapse result parsed st2 = Done result' st3 ->
           group c 0 = Some matched ->
           let st4 := mkStore (<["prevCapture" := VCapture c]> (state st3)) (heap st3) in
           (forall pre rest,
               source = pre +:+ rest -> String.length pre = String.length matched ->
               nestedParseLoop rules ruleList (S fuel) source result st
               = nestedParseLoop rules ruleList fuel rest result' st4)
           /\ (String.length source <= String.length matched ->
               nestedParseLoop rules ruleList (S fuel) source result st = Done result' st4)).
Proof.
  intros Hs Hsel Hw. destruct source as [|a s]; [contradiction|].
  assert (Hstep := nestedParseLoop_step rules ruleList fuel a s result st).
  rewrite Hsel, Hw in Hstep. split.
  - intros (i & Hi & Hz & Hn). rewrite Hstep. unfold unanchored. rewrite Hi.
    cbn [truthy]. rewrite Hz, Hn. reflexivity.
  - intros Hfalsy.
    assert (Hu : unanchored c = false).
    { unfold unanchored. destruct Hfalsy as [-> | (i & -> & [H|H])]; [reflexivity| |];
        cbn [truthy]; rewrite H; [reflexivity|].
      destruct (PrimFloat.eqb i 0); reflexivity. }
    rewrite Hu in Hstep. split; [exact Hstep|].
    intros parsed st1 st2 result' st3 matched Hp Hd Hc Hg st4.
    assert (Happly : nestedParseLoop rules ruleList (S fuel) (String a s) result st
                     = nestedParseLoop rules ruleList fuel
                         (substring_from (String.length matched) (String a s)) result' st4).
    { rewrite Hstep. unfold applyRule, bind. rewrite Hp, Hd, Hc, Hg. reflexivity. }
    split.
    + intros pre rest Hsrc Hlen. rewrite Happly, Hsrc.
      rewrite (substring_from_app pre rest _ Hlen). reflexivity.
    + intros Hlen. rewrite Happly, substring_from_short by exact Hlen.
      apply nestedParseLoop_empty.
Qed.

(** The capture of ["text"] is a plain array holding the first character:
    on ["ab"] the node for [a] is built and the loop goes on with ["b"], on
    which it builds the second node, merges it into the first and returns. *)
Lemma anchor_check_reads_index_witness :
  let rules := toRuleObject [charRule] in
  let node (s : string) : gmap string Value := <["type" := VStr "text"]> {[ "content" := VStr s ]} in
  nestedParseLoop rules ["text"] 2 "ab" [] (mkStore ∅ [])
  = nestedParseLoop rules ["text"] 1 "b" [0]
      (mkStore {[ "prevCapture" := VCapture (mkCapture [Some "a"] None) ]} [node "a"])
  /\ nestedParseLoop rules ["text"] 1 "b" [0]
       (mkStore {[ "prevCapture" := VCapture (mkCapture [Some "a"] None) ]} [node "a"])
     = Done [0]
         (mkStore {[ "prevCapture" := VCapture (mkCapture [Some "b"] None) ]}
            [node "ab"; node "b"]).
Proof.
  cbv zeta. split; [|vm_compute; reflexivity].
  assert (Hsel : selectRule (toRuleObject [charRule]) ["text"] 1 "ab" ∅
                 = WalkEnds (mkBest (Some "text") (Some charRule)
                               (Some (mkCapture [Some "a"] None)) 0%float) 1)
    by (vm_compute; reflexivity).
  destruct (proj2 (anchor_check_reads_index (toRuleObject [charRule]) ["text"] 1
                     "ab" [] (mkStore ∅ []) _ _ "text" charRule (mkCapture [Some "a"] None)
                     ltac:(discriminate) Hsel eq_refl) (or_introl eq_refl))
    as [_ Hnext].
  destruct (Hnext 0 (mkStore ∅ [{[ "content" := VStr "a" ]}])
              (mkStore ∅ [<["type" := VStr "text"]> {[ "content" := VStr "a" ]}])
              [0]
              (mkStore ∅ [<["type" := VStr "text"]> {[ "content" := VStr "a" ]}])
              "a" eq_refl eq_refl eq_refl eq_refl) as [Hcursor _].
  rewrite (Hcursor "a" "b" eq_refl eq_refl). reflexivity.
Defined.

(** C10 as stated fails for an [index] that is [NaN]: it is present and it is
    not zero, and the check lets it pass, since [NaN] is falsy.  The
    recognizer of ["nan"] returns the first character with the index [NaN],
    and the parse of ["ab"] returns two nodes. *)
Lemma nan_index_is_not_rejected :
  match' nanRule "ab" ∅ = Some (mkCapture [Some "a"] (Some nan))
  /\ PrimFloat.eqb nan 0 = false
  /\ exists st,
       nestedParse (toRuleObject [nanRule]) ["nan"] 2 "ab" (mkStore ∅ []) = Done [0; 1] st.
Proof.
  split; [reflexivity|]. split; [reflexivity|]. eexists. vm_compute. reflexivity.
Qed.

(** ** C4: forward references *)

(** The two documents of the claim.  Parsing [[a][x]], a blank line and
    [[x]: /url "t"] with the default rules gives a paragraph whose link node
    has target [/url] and title [t] (and after it the node of the
    definition); so does parsing the definition first and the reference
    after it. *)
Lemma reference_and_definition_documents :
  (exists st p d,
      createParser defaultRules ∅ 4 referenceFirst None [] = Done [p; d] st
      /\ paragraphLink st p = Some (VStr "/url", VStr "t"))
  /\ (exists st d p,
        createParser defaultRules ∅ 4 definitionFirst None [] = Done [d; p] st
        /\ paragraphLink st p = Some (VStr "/url", VStr "t")).
Proof.
  split.
  - eexists. exists 2, 3. split; vm_compute; reflexivity.
  - eexists. exists 0, 3. split; vm_compute; reflexivity.
Qed.

(** C4.  The two documents of the claim resolve as it says.  But with the
    name [constructor] in place of [x] both documents make the parser throw a
    TypeError: [state._refs[ref]] reads the [constructor] that every object
    inherits from [Object.prototype], which is truthy, so no array is put
    there, and its [push] is not a function.  No link node is returned, in
    either order. *)
Theorem reference_named_constructor_throws :
  ((exists st p d,
       createParser defaultRules ∅ 4 referenceFirst None [] = Done [p; d] st
       /\ paragraphLink st p = Some (VStr "/url", VStr "t"))
   /\ (exists st d p,
         createParser defaultRules ∅ 4 definitionFirst None [] = Done [d; p] st
         /\ paragraphLink st p = Some (VStr "/url", VStr "t")))
  /\ createParser defaultRules ∅ 4 constructorReferenceFirst None [] = Throw TypeError
  /\ createParser defaultRules ∅ 4 constructorDefinitionFirst None [] = Throw TypeError.
Proof.
  split; [exact reference_and_definition_documents|].
  split; vm_compute; reflexivity.
Qed.

(** ** An escaped character *)

(** A rule that does not recognize the source is passed over. *)
Lemma listedLoop_pass rules source state t r t' r' rest i :
  match' r source state = None -> getProperty rules t' = Some r' ->
  listedLoop rules source state t r (t' :: rest) i noBest
  = listedLoop rules source state t' r' rest (S i) noBest.
Proof.
  intros Hm Hr. cbn [listedLoop]. rewrite (consult_fail t r source state noBest Hm), Hr.
  reflexivity.
Qed.

(** The walk ends at the first rule that recognizes the source when the rule
    after it has no scorer. *)
Lemma listedLoop_take rules source state t r c t' r' rest i :
  match' r source state = Some c -> getProperty rules t' = Some r' -> quality r' = None ->
  listedLoop rules source state t r (t' :: rest) i noBest
  = (mkBest (Some t) (Some r) (Some c) (qualityOf r c state), S i).
Proof.
  intros Hm Hr Hq. cbn [listedLoop]. unfold consult. rewrite Hm.
  change (bestQuality noBest) with nan. rewrite leb_nan_r. cbn [negb capture].
  rewrite Hr, Hq. reflexivity.
Qed.

Lemma escape_match (c : ascii) (s : string) :
  isAlnumOrSpace c = false ->
  exec (newRegExp "^\\([^0-9A-Za-z\s])" "") (String "\" (String c s))
  = Some (mkCapture [Some (String "\" (String c "")); Some (String c "")] (Some 0%float)).
Proof.
  intros Hc.
  assert (Hre : newRegExp "^\\([^0-9A-Za-z\s])" ""
                = mkRegExp (Seq AssertStart
                              (Seq (Chars false [CRange 92 92])
                                 (Group 1 (Chars true [CRange 48 57; CRange 65 90;
                                                       CRange 97 122; CSpace]))))
                    1 false false false)
    by (vm_compute; reflexivity).
  rewrite Hre. unfold exec. cbn [exec_from]. unfold match_at.
  cbn [pattern ignoreCase multiline nGroups].
  rewrite rmatch_Seq, rmatch_AssertStart by reflexivity.
  rewrite rmatch_Seq, rmatch_Chars. cbn [rest xorb].
  rewrite in_class_backslash. change (Ascii.eqb "\" "\") with true. cbn iota.
  cbn [rmatch rest xorb]. fold (isAlnumOrSpace c). rewrite Hc. reflexivity.
Qed.

Lemma inline_hides_list source state :
  truthy (get state "inline") = true -> truthy (get state "_list") = false ->
  match' listRule source state = None.
Proof.
  intros Hi Hl. unfold listRule. cbn [match'].
  unfold js_or. rewrite Hl, Hi. cbn [negb truthy]. 
  destruct (exec LIST_LOOKBEHIND_R (prevCaptureStr state)); reflexivity.
Qed.

Lemma default_names :
  map name defaultRules
  = ["heading"; "nptable"; "lheading"; "hr"; "codeBlock"; "fence"; "blockQuote"; "list";
     "def"; "table"; "newline"; "paragraph"; "escape"; "tableSeparator"; "autolink";
     "mailto"; "url"; "link"; "image"; "reflink"; "refimage"; "em"; "strong"; "u"; "del";
     "inlineCode"; "br"; "text"].
Proof. reflexivity. Qed.

Lemma escape_selected (c : ascii) (s : string) state :
  truthy (get state "inline") = true -> truthy (get state "_list") = false ->
  isAlnumOrSpace c = false ->
  selectListed (toRuleObject defaultRules) (Object_keys (toRuleObject defaultRules))
    (String "\" (String c s)) state
  = Some (mkBest (Some "escape") (Some escapeRule)
            (Some (mkCapture [Some (String "\" (String c "")); Some (String c "")] (Some 0%float)))
            0%float, 13).
Proof.
  intros Hi Hl Hc. rewrite defaultRules_order, default_names. unfold selectListed.
  rewrite (defaultRules_lookup 0 headingRule eq_refl : getProperty _ "heading" = _).
  assert (Hblock : forall re src, blockRegex re src state = None)
    by (intros re src; unfold blockRegex; rewrite Hi; reflexivity).
  rewrite (listedLoop_pass _ _ _ "heading" headingRule "nptable" nptableRule)
    by (apply Hblock || exact (defaultRules_lookup 1 nptableRule eq_refl)).
  rewrite (listedLoop_pass _ _ _ "nptable" nptableRule "lheading" lheadingRule)
    by (apply Hblock || exact (defaultRules_lookup 2 lheadingRule eq_refl)).
  rewrite (listedLoop_pass _ _ _ "lheading" lheadingRule "hr" hrRule)
    by (apply Hblock || exact (defaultRules_lookup 3 hrRule eq_refl)).
  rewrite (listedLoop_pass _ _ _ "hr" hrRule "codeBlock" codeBlockRule)
    by (apply Hblock || exact (defaultRules_lookup 4 codeBlockRule eq_refl)).
  rewrite (listedLoop_pass _ _ _ "codeBlock" codeBlockRule "fence" fenceRule)
    by (apply Hblock || exact (defaultRules_lookup 5 fenceRule eq_refl)).
  rewrite (listedLoop_pass _ _ _ "fence" fenceRule "blockQuote" blockQuoteRule)
    by (apply Hblock || exact (defaultRules_lookup 6 blockQuoteRule eq_refl)).
  rewrite (listedLoop_pass _ _ _ "blockQuote" blockQuoteRule "list" listRule)
    by (apply Hblock || exact (defaultRules_lookup 7 listRule eq_refl)).
  rewrite (listedLoop_pass _ _ _ "list" listRule "def" defRule)
    by first [apply inline_hides_list; assumption | exact (defaultRules_lookup 8 defRule eq_refl)].
  rewrite (listedLoop_pass _ _ _ "def" defRule "table" tableRule)
    by (apply Hblock || exact (defaultRules_lookup 9 tableRule eq_refl)).
  rewrite (listedLoop_pass _ _ _ "table" tableRule "newline" newlineRule)
    by (apply Hblock || exact (defaultRules_lookup 10 newlineRule eq_refl)).
  rewrite (listedLoop_pass _ _ _ "newline" newlineRule "paragraph" paragraphRule)
    by (apply Hblock || exact (defaultRules_lookup 11 paragraphRule eq_refl)).
  rewrite (listedLoop_pass _ _ _ "paragraph" paragraphRule "escape" escapeRule)
    by (apply Hblock || exact (defaultRules_lookup 12 escapeRule eq_refl)).
  rewrite (listedLoop_take _ _ _ "escape" escapeRule
             (mkCapture [Some (String "\" (String c "")); Some (String c "")] (Some 0%float))
             "tableSeparator" tableSeparatorRule).
  - reflexivity.
  - unfold escapeRule, inlineRegex. cbn [match']. rewrite Hi. apply escape_match, Hc.
  - exact (defaultRules_lookup 13 tableSeparatorRule eq_refl).
  - reflexivity.
Qed.

(** ** A character that starts no inline construct *)

Lemma startsInlineOnly_spec (re : RegExp) c :
  startsInlineOnly re = true -> startsInline c = false ->
  may_consume (ignoreCase re) (pattern re) c = false.
Proof.
  intros H Hc. unfold startsInlineOnly in H.
  assert (Hin : In (nat_of_ascii c) (seq 0 256)).
  { apply in_seq. assert (Hlt := nat_ascii_bounded c). lia. }
  apply (proj1 (forallb_forall _ _) H) in Hin.
  rewrite ascii_nat_embedding, Hc in Hin. simpl in Hin.
  apply negb_true_iff in Hin. exact Hin.
Qed.

(** An inline rule whose expression is anchored, reads at least one
    character and starts with a character of [startsInline] does not
    recognize a source that starts with another character. *)
Lemma exec_plain (re : RegExp) c (s : string) :
  multiline re = false -> starts_anchored (pattern re) = true ->
  Nat.ltb 0 (min_length (pattern re)) = true -> startsInlineOnly re = true ->
  startsInline c = false ->
  exec re (String c s) = None.
Proof.
  intros Hm Ha Hk Ht Hc. apply exec_first_char; try assumption.
  - apply Nat.ltb_lt, Hk.
  - apply startsInlineOnly_spec; assumption.
Qed.

Lemma listedLoop_last rules source state t r c i :
  match' r source state = Some c ->
  listedLoop rules source state t r [] i noBest
  = (mkBest (Some t) (Some r) (Some c) (qualityOf r c state), S i).
Proof.
  intros Hm. cbn [listedLoop]. unfold consult. rewrite Hm.
  change (bestQuality noBest) with nan. rewrite leb_nan_r. reflexivity.
Qed.

Ltac plain_rule Hi Hl Ht Hc Hblock :=
  first
    [ apply Hblock
    | apply inline_hides_list; assumption
    | cbv [escapeRule tableSeparatorRule autolinkRule mailtoRule urlRule linkRule imageRule
           reflinkRule refimageRule emRule strongRule uRule delRule inlineCodeRule brRule
           match' inlineRegex anyScopeRegex];
      rewrite ?Hi, ?Ht; cbn [negb];
      first [ reflexivity
            | apply exec_plain; [vm_compute; reflexivity | vm_compute; reflexivity
                                | vm_compute; reflexivity | vm_compute; reflexivity
                                | exact Hc] ] ].

Lemma text_selected (c : ascii) (s : string) state :
  truthy (get state "inline") = true -> truthy (get state "_list") = false ->
  truthy (get state "inTable") = false -> startsInline c = false ->
  exists cap m,
    match' textRule (String c s) state = Some cap /\ index cap = Some 0%float
    /\ group cap 0 = Some m /\ m <> ""
    /\ String c s = m +:+ substring_from (String.length m) (String c s)
    /\ selectListed (toRuleObject defaultRules) (Object_keys (toRuleObject defaultRules))
         (String c s) state
       = Some (mkBest (Some "text") (Some textRule) (Some cap) 0%float, 28).
Proof.
  intros Hi Hl Ht Hc.
  destruct (textRule_matches (String c s) state) as (cap & m & Hcap & Hidx & Hm & Hne & Hpre);
    [discriminate|].
  exists cap, m. split; [exact Hcap|]. split; [exact Hidx|]. split; [exact Hm|].
  split; [exact Hne|].
  split; [exact Hpre|].
  rewrite defaultRules_order, default_names. unfold selectListed.
  rewrite (defaultRules_lookup 0 headingRule eq_refl : getProperty _ "heading" = _).
  assert (Hblock : forall re src, blockRegex re src state = None)
    by (intros re src; unfold blockRegex; rewrite Hi; reflexivity).
  rewrite (listedLoop_pass _ _ _ "heading" headingRule "nptable" nptableRule)
    by first [exact (defaultRules_lookup 1 nptableRule eq_refl) | plain_rule Hi Hl Ht Hc Hblock].
  rewrite (listedLoop_pass _ _ _ "nptable" nptableRule "lheading" lheadingRule)
    by first [exact (defaultRules_lookup 2 lheadingRule eq_refl) | plain_rule Hi Hl Ht Hc Hblock].
  rewrite (listedLoop_pass _ _ _ "lheading" lheadingRule "hr" hrRule)
    by first [exact (defaultRules_lookup 3 hrRule eq_refl) | plain_rule Hi Hl Ht Hc Hblock].
  rewrite (listedLoop_pass _ _ _ "hr" hrRule "codeBlock" codeBlockRule)
    by first [exact (defaultRules_lookup 4 codeBlockRule eq_refl) | plain_rule Hi Hl Ht Hc Hblock].
  rewrite (listedLoop_pass _ _ _ "codeBlock" codeBlockRule "fence" fenceRule)
    by first [exact (defaultRules_lookup 5 fenceRule eq_refl) | plain_rule Hi Hl Ht Hc Hblock].
  rewrite (listedLoop_pass _ _ _ "fence" fenceRule "blockQuote" blockQuoteRule)
    by first [exact (defaultRules_lookup 6 blockQuoteRule eq_refl) | plain_rule Hi Hl Ht Hc Hblock].
  rewrite (listedLoop_pass _ _ _ "blockQuote" blockQuoteRule "list" listRule)
    by first [exact (defaultRules_lookup 7 listRule eq_refl) | plain_rule Hi Hl Ht Hc Hblock].
  rewrite (listedLoop_pass _ _ _ "list" listRule "def" defRule)
    by first [exact (defaultRules_lookup 8 defRule eq_refl) | plain_rule Hi Hl Ht Hc Hblock].
  rewrite (listedLoop_pass _ _ _ "def" defRule "table" tableRule)
    by first [exact (defaultRules_lookup 9 tableRule eq_refl) | plain_rule Hi Hl Ht Hc Hblock].
  rewrite (listedLoop_pass _ _ _ "table" tableRule "newline" newlineRule)
    by first [exact (defaultRules_lookup 10 newlineRule eq_refl) | plain_rule Hi Hl Ht Hc Hblock].
  rewrite (listedLoop_pass _ _ _ "newline" newlineRule "paragraph" paragraphRule)
    by first [exact (defaultRules_lookup 11 paragraphRule eq_refl) | plain_rule Hi Hl Ht Hc Hblock].
  rewrite (listedLoop_pass _ _ _ "paragraph" paragraphRule "escape" escapeRule)
    by first [exact (defaultRules_lookup 12 escapeRule eq_refl) | plain_rule Hi Hl Ht Hc Hblock].
  rewrite (listedLoop_pass _ _ _ "escape" escapeRule "tableSeparator" tableSeparatorRule)
    by first [exact (defaultRules_lookup 13 tableSeparatorRule eq_refl) | plain_rule Hi Hl Ht Hc Hblock].
  rewrite (listedLoop_pass _ _ _ "tableSeparator" tableSeparatorRule "autolink" autolinkRule)
    by first [exact (defaultRules_lookup 14 autolinkRule eq_refl) | plain_rule Hi Hl Ht Hc Hblock].
  rewrite (listedLoop_pass _ _ _ "autolink" autolinkRule "mailto" mailtoRule)
    by first [exact (defaultRules_lookup 15 mailtoRule eq_refl) | plain_rule Hi Hl Ht Hc Hblock].
  rewrite (listedLoop_pass _ _ _ "mailto" mailtoRule "url" urlRule)
    by first [exact (defaultRules_lookup 16 urlRule eq_refl) | plain_rule Hi Hl Ht Hc Hblock].
  rewrite (listedLoop_pass _ _ _ "url" urlRule "link" linkRule)
    by first [exact (defaultRules_lookup 17 linkRule eq_refl) | plain_rule Hi Hl Ht Hc Hblock].
  rewrite (listedLoop_pass _ _ _ "link" linkRule "image" imageRule)
    by first [exact (defaultRules_lookup 18 imageRule eq_refl) | plain_rule Hi Hl Ht Hc Hblock].
  rewrite (listedLoop_pass _ _ _ "image" imageRule "reflink" reflinkRule)
    by first [exact (defaultRules_lookup 19 reflinkRule eq_refl) | plain_rule Hi Hl Ht Hc Hblock].
  rewrite (listedLoop_pass _ _ _ "reflink" reflinkRule "refimage" refimageRule)
    by first [exact (defaultRules_lookup 20 refimageRule eq_refl) | plain_rule Hi Hl Ht Hc Hblock].
  rewrite (listedLoop_pass _ _ _ "refimage" refimageRule "em" emRule)
    by first [exact (defaultRules_lookup 21 emRule eq_refl) | plain_rule Hi Hl Ht Hc Hblock].
  rewrite (listedLoop_pass _ _ _ "em" emRule "strong" strongRule)
    by first [exact (defaultRules_lookup 22 strongRule eq_refl) | plain_rule Hi Hl Ht Hc Hblock].
  rewrite (listedLoop_pass _ _ _ "strong" strongRule "u" uRule)
    by first [exact (defaultRules_lookup 23 uRule eq_refl) | plain_rule Hi Hl Ht Hc Hblock].
  rewrite (listedLoop_pass _ _ _ "u" uRule "del" delRule)
    by first [exact (defaultRules_lookup 24 delRule eq_refl) | plain_rule Hi Hl Ht Hc Hblock].
  rewrite (listedLoop_pass _ _ _ "del" delRule "inlineCode" inlineCodeRule)
    by first [exact (defaultRules_lookup 25 inlineCodeRule eq_refl) | plain_rule Hi Hl Ht Hc Hblock].
  rewrite (listedLoop_pass _ _ _ "inlineCode" inlineCodeRule "br" brRule)
    by first [exact (defaultRules_lookup 26 brRule eq_refl) | plain_rule Hi Hl Ht Hc Hblock].
  rewrite (listedLoop_pass _ _ _ "br" brRule "text" textRule)
    by first [exact (defaultRules_lookup 27 textRule eq_refl) | plain_rule Hi Hl Ht Hc Hblock].
  rewrite (listedLoop_last _ _ _ "text" textRule cap) by exact Hcap. reflexivity.
Qed.

(** ** The default rules never make the engine fail *)

Lemma safe_ret {A} (a : A) : neverEngineError (ret a).
Proof. intros st. exact I. Qed.

Lemma safe_bind {A B} (m : M A) (k : A -> M B) :
  neverEngineError m -> (forall a, neverEngineError (k a)) -> neverEngineError (bind m k).
Proof.
  intros Hm Hk st. unfold bind. specialize (Hm st).
  destruct (m st) as [a st'| | |]; [apply Hk | exact Hm | exact I | exact I].
Qed.

Lemma safe_throw {A} e : engineError e = false -> neverEngineError (@throw A e).
Proof. intros H st. exact H. Qed.

Lemma safe_unmodelled {A} : neverEngineError (@unmodelled A).
Proof. intros st. exact I. Qed.

Lemma safe_getState : neverEngineError getState.
Proof. intros st. exact I. Qed.

Lemma safe_setState k v : neverEngineError (setState k v).
Proof. intros st. exact I. Qed.

Lemma safe_alloc n : neverEngineError (alloc n).
Proof. intros st. exact I. Qed.

Lemma safe_setField l k v : neverEngineError (setField l k v).
Proof. intros st. unfold setField. destruct (heap st !! l); [exact I | reflexivity]. Qed.

Lemma safe_getField l k : neverEngineError (getField l k).
Proof. intros st. unfold getField. destruct (heap st !! l); [exact I | reflexivity]. Qed.

Lemma safe_must {A} (o : option A) : neverEngineError (must o).
Proof. destruct o; [apply safe_ret | apply safe_throw; reflexivity]. Qed.

Lemma safe_collapse result parsed : neverEngineError (collapse result parsed).
Proof.
  intros st. unfold collapse.
  repeat match goal with
         | |- noEngineError (match ?x with _ => _ end) => destruct x
         | |- noEngineError (if ?x then _ else _) => destruct x
         end; try exact I; reflexivity.
Qed.

Lemma safe_setEntry table key v : neverEngineError (setEntry table key v).
Proof.
  unfold setEntry. apply safe_bind; [apply safe_getState|]. intros state.
  destruct (js_or _ _); try apply safe_unmodelled.
  destruct (property _ _); [apply safe_setState | | apply safe_setState].
  destruct (String.eqb _ _); [apply safe_unmodelled | apply safe_setState].
Qed.

Lemma safe_mapM {A B} (f : A -> M B) (l : list A) :
  (forall a, neverEngineError (f a)) -> neverEngineError (mapM f l).
Proof.
  intros Hf. induction l as [|a l IH]; [apply safe_ret|].
  cbn [mapM]. apply safe_bind; [apply Hf|]. intros b.
  apply safe_bind; [exact IH|]. intros bs. apply safe_ret.
Qed.

Ltac safe_step :=
  first
    [ apply safe_ret | apply safe_getState | apply safe_setState | apply safe_alloc
    | apply safe_setField | apply safe_getField | apply safe_must | apply safe_collapse
    | apply safe_setEntry | apply safe_unmodelled
    | apply safe_throw; reflexivity
    | apply safe_bind; [|intros ?]
    | match goal with
      | H : forall s, neverEngineError (?p s) |- neverEngineError (?p _) => apply H
      | |- neverEngineError (match ?x with _ => _ end) => destruct x
      | |- neverEngineError (if ?x then _ else _) => destruct x
      | |- neverEngineError (let _ := _ in _) => cbv zeta
      end ].

Ltac safe := repeat safe_step.

Lemma safe_parseContent p content :
  (forall s, neverEngineError (p s)) -> neverEngineError (parseContent p content).
Proof. intros Hp. unfold parseContent. safe. Qed.

Lemma safe_parseInline p content :
  (forall s, neverEngineError (p s)) -> neverEngineError (parseInline p content).
Proof.
  intros Hp. unfold parseInline. safe. apply safe_parseContent, Hp.
Qed.

Lemma safe_tableRowCells t len row : forall i cells,
  neverEngineError (tableRowCells t len i row cells).
Proof.
  induction row as [|node row IH]; intros i cells; cbn [tableRowCells]; [apply safe_ret|].
  apply safe_bind; [apply safe_getField|]. intros type.
  destruct (is_tableSeparator type).
  - destruct (negb t || _); apply IH.
  - apply safe_bind; [apply safe_getField|]. intros content.
    apply safe_bind; [|intros; apply IH].
    destruct content; safe.
Qed.

Lemma safe_parseTableRow source p t :
  (forall s, neverEngineError (p s)) -> neverEngineError (parseTableRow source p t).
Proof.
  intros Hp. unfold parseTableRow. safe. apply safe_tableRowCells.
Qed.

Lemma safe_parseTable t c p :
  (forall s, neverEngineError (p s)) -> neverEngineError (parseTable t c p).
Proof.
  intros Hp. unfold parseTable, parseTableCells.
  apply safe_bind; [apply safe_setState|]. intros _.
  apply safe_bind; [apply safe_must|]. intros capture1.
  apply safe_bind; [apply safe_parseTableRow, Hp|]. intros header.
  apply safe_bind; [apply safe_must|]. intros capture2. cbv zeta.
  apply safe_bind; [apply safe_must|]. intros capture3.
  apply safe_bind; [apply safe_mapM; intros; apply safe_parseTableRow, Hp|]. intros cells.
  safe.
Qed.

Lemma safe_patchRefs refs target title : neverEngineError (patchRefs refs target title).
Proof.
  induction refs as [|v refs IH]; cbn [patchRefs]; [apply safe_ret|].
  destruct v; try (apply safe_throw; reflexivity); try apply safe_unmodelled.
  apply safe_bind; [apply safe_setField|]. intros _.
  apply safe_bind; [apply safe_setField|]. intros _. exact IH.
Qed.

Lemma safe_parseRef c l : neverEngineError (parseRef c l).
Proof.
  unfold parseRef, useDef, awaitDef. safe.
Qed.

Lemma safe_parseDef c p : neverEngineError (parseDef c p).
Proof.
  unfold parseDef, patchAwaiting. safe; apply safe_patchRefs.
Qed.

Lemma safe_listItems p nItems items : forall i b,
  (forall s, neverEngineError (p s)) -> neverEngineError (listItems p nItems i b items).
Proof.
  induction items as [|item items IH]; intros i b Hp; cbn [listItems]; [apply safe_ret|].
  apply safe_bind.
  - unfold listItem. safe.
  - intros r. apply safe_bind; [apply IH, Hp|]. intros rs. apply safe_ret.
Qed.

Lemma defaultRules_builders_safe :
  Forall (fun r => forall c p, (forall s, neverEngineError (p s)) ->
                               neverEngineError (parse r c p))
         defaultRules.
Proof.
  unfold defaultRules.
  repeat first [apply List.Forall_nil | apply List.Forall_cons]; intros c p Hp.
  all: cbv [headingRule nptableRule lheadingRule hrRule codeBlockRule fenceRule
            blockQuoteRule listRule defRule tableRule newlineRule paragraphRule
            escapeRule tableSeparatorRule autolinkRule mailtoRule urlRule linkRule
            imageRule reflinkRule refimageRule emRule strongRule uRule delRule
            inlineCodeRule brRule textRule parse parseCaptureInline ignoreCapture
            textContent].
  all: try (apply safe_parseTable; exact Hp).
  all: try (apply safe_parseDef).
  all: repeat first
         [ apply safe_parseInline; exact Hp
         | apply safe_parseContent; exact Hp
         | apply safe_parseRef
         | apply safe_listItems; exact Hp
         | safe_step ].
Qed.

Lemma safe_defaultType parsed ruleType : neverEngineError (defaultType parsed ruleType).
Proof. unfold defaultType. safe. Qed.

Lemma safe_applyRule loop t r c source result :
  (forall s res, neverEngineError (loop s res)) ->
  (forall p, (forall s, neverEngineError (p s)) -> neverEngineError (parse r c p)) ->
  neverEngineError (applyRule loop t r c source result).
Proof.
  intros Hloop Hparse. unfold applyRule.
  apply safe_bind; [apply Hparse; intros s; apply Hloop|]. intros parsed.
  apply safe_bind; [apply safe_defaultType|]. intros _.
  apply safe_bind; [apply safe_collapse|]. intros result'.
  apply safe_bind; [apply safe_setState|]. intros _.
  destruct (group c 0); [apply Hloop | apply safe_throw; reflexivity].
Qed.

Lemma defaultRules_applies fuel source result st :
  source <> "" ->
  exists r c,
    r ∈ defaultRules
    /\ nestedParseLoop (toRuleObject defaultRules) (Object_keys (toRuleObject defaultRules))
         (S fuel) source result st
       = applyRule (nestedParseLoop (toRuleObject defaultRules)
                      (Object_keys (toRuleObject defaultRules)) fuel)
           (name r) r c source result st.
Proof.
  intros Hs.
  destruct (defaultRules_select fuel source (state st) Hs)
    as (best & n & r & c & Hsel & Hw & Hin & Hc).
  assert (Hi : index c = Some 0%float).
  { exact (proj1 (Forall_forall _ _) defaultRules_anchored r Hin source (state st) c Hc). }
  exists r, c. split; [exact Hin|].
  destruct source as [|a s]; [contradiction|].
  rewrite nestedParseLoop_step, Hsel, Hw. unfold unanchored. rewrite Hi. reflexivity.
Qed.

Lemma defaultRules_loop_safe fuel : forall source result,
  neverEngineError
    (nestedParseLoop (toRuleObject defaultRules) (Object_keys (toRuleObject defaultRules))
       fuel source result).
Proof.
  induction fuel as [|fuel IH]; intros source result st.
  - destruct source; exact I.
  - destruct (string_dec source "") as [->|Hs]; [exact I|].
    destruct (defaultRules_applies fuel source result st Hs) as (r & c & Hin & ->).
    apply safe_applyRule; [exact IH|].
    exact (proj1 (Forall_forall _ _) defaultRules_builders_safe r Hin c).
Qed.

(** * More of the code *)

(** ** The registry methods *)

(** X1.  [insertBefore(rule, newRule)] throws "Rule not found" exactly when no
    rule of the registry is named [rule]; otherwise it puts [newRule]
    immediately before the first rule of that name and leaves every other rule
    in place. *)
Theorem insertBefore_first_of_name (l : RuleList) rule newRule :
  match insertBefore rule newRule l with
  | inl e => e = RuleNotFound rule /\ Forall (fun r => name r <> rule) l
  | inr l' =>
      exists pre r post,
        l = pre ++ r :: post /\ name r = rule /\ Forall (fun r' => name r' <> rule) pre
        /\ l' = pre ++ newRule :: r :: post
  end.
Proof.
  unfold insertBefore. destruct (findIndex rule l) as [i|] eqn:E.
  - destruct (findIndex_Some rule l i E) as (pre & r & post & -> & <- & Hr & Hpre).
    exists pre, r, post. repeat split; auto. apply (splice_at pre 0 [newRule]).
  - split; [reflexivity | apply findIndex_None, E].
Qed.

(** X2.  [insertAfter(rule, newRule)] throws "Rule not found" exactly when no
    rule of the registry is named [rule]; otherwise it puts [newRule]
    immediately after the first rule of that name and leaves every other rule
    in place. *)
Theorem insertAfter_first_of_name (l : RuleList) rule newRule :
  match insertAfter rule newRule l with
  | inl e => e = RuleNotFound rule /\ Forall (fun r => name r <> rule) l
  | inr l' =>
      exists pre r post,
        l = pre ++ r :: post /\ name r = rule /\ Forall (fun r' => name r' <> rule) pre
        /\ l' = pre ++ r :: newRule :: post
  end.
Proof.
  unfold insertAfter. destruct (findIndex rule l) as [i|] eqn:E.
  - destruct (findIndex_Some rule l i E) as (pre & r & post & -> & <- & Hr & Hpre).
    exists pre, r, post. repeat split; auto. apply (splice_after pre r [newRule]).
  - split; [reflexivity | apply findIndex_None, E].
Qed.

(** X3.  [remove(rule)] throws "Rule not found" exactly when no rule is named
    [rule]; otherwise it deletes the first rule of that name and nothing else,
    so a later rule of the same name stays and is what [get(rule)] returns
    from then on. *)
Theorem remove_first_of_name (l : RuleList) rule :
  match remove rule l with
  | inl e => e = RuleNotFound rule /\ Forall (fun r => name r <> rule) l
  | inr l' =>
      exists pre r post,
        l = pre ++ r :: post /\ name r = rule /\ Forall (fun r' => name r' <> rule) pre
        /\ l' = pre ++ post
        /\ RuleList_get rule l' = RuleList_get rule post
  end.
Proof.
  unfold remove. destruct (findIndex rule l) as [i|] eqn:E.
  - destruct (findIndex_Some rule l i E) as (pre & r & post & -> & <- & Hr & Hpre).
    exists pre, r, post. split; [reflexivity|]. split; [exact Hr|]. split; [exact Hpre|].
    assert (Hs : splice (length pre) 1 [] (pre ++ r :: post) = pre ++ post)
      by apply (splice_at pre 1 [] (r :: post)).
    split; [exact Hs|]. rewrite Hs. unfold RuleList_get.
    clear E Hs. induction Hpre as [|r0 pre Hr0 _ IH]; simpl; [reflexivity|].
    destruct (String.eqb_spec (name r0) rule); [contradiction | exact IH].
  - split; [reflexivity | apply findIndex_None, E].
Qed.

(** X4.  [get(rule)] returns the first rule of the registry named [rule], and
    [undefined] exactly when there is none. *)
Theorem get_first_of_name (l : RuleList) rule :
  match RuleList_get rule l with
  | Some r =>
      exists pre post,
        l = pre ++ r :: post /\ name r = rule /\ Forall (fun r' => name r' <> rule) pre
  | None => Forall (fun r => name r <> rule) l
  end.
Proof.
  unfold RuleList_get. induction l as [|r0 l IH]; simpl; [constructor|].
  destruct (String.eqb_spec (name r0) rule) as [E|E].
  - exists [], l. auto.
  - destruct (find (fun r => String.eqb (name r) rule) l) as [r|].
    + destruct IH as (pre & post & -> & Hr & Hpre). exists (r0 :: pre), post. auto.
    + constructor; assumption.
Qed.

(** X5.  When no rule of the registry has the name of [newRule], removing that
    name after [add], [insertBefore] or [insertAfter] of [newRule] gives the
    registry back as it was. *)
Theorem remove_undoes_insertion (l : RuleList) newRule anchor :
  Forall (fun r => name r <> name newRule) l ->
  remove (name newRule) (add newRule l) = inr l
  /\ (forall l', insertBefore anchor newRule l = inr l' -> remove (name newRule) l' = inr l)
  /\ (forall l', insertAfter anchor newRule l = inr l' -> remove (name newRule) l' = inr l).
Proof.
  intros Hfresh. split; [|split].
  - unfold remove, add. rewrite findIndex_first by auto.
    f_equal. rewrite (splice_at l 1 [] [newRule]). apply app_nil_r.
  - intros l' H. unfold insertBefore in H.
    destruct (findIndex anchor l) as [i|] eqn:E; [|discriminate]. injection H as <-.
    destruct (findIndex_Some anchor l i E) as (pre & r & post & -> & <- & Hr & Hpre).
    rewrite (splice_at pre 0 [newRule]). simpl.
    apply Forall_app in Hfresh as [Hfpre _].
    unfold remove. rewrite findIndex_first by auto. f_equal.
    apply (splice_at pre 1 [] (newRule :: r :: post)).
  - intros l' H. unfold insertAfter in H.
    destruct (findIndex anchor l) as [i|] eqn:E; [|discriminate]. injection H as <-.
    destruct (findIndex_Some anchor l i E) as (pre & r & post & -> & <- & Hr & Hpre).
    rewrite (splice_after pre r [newRule]). simpl.
    assert (Hfpre : Forall (fun r0 => name r0 <> name newRule) (pre ++ [r])).
    { apply Forall_app in Hfresh as [Hfpre Hrest]. apply Forall_app. split; [exact Hfpre|].
      apply Forall_cons in Hrest as [Hr' _]. repeat constructor. exact Hr'. }
    unfold remove.
    replace (pre ++ r :: newRule :: post) with ((pre ++ [r]) ++ newRule :: post)
      by (rewrite <- app_assoc; reflexivity).
    rewrite findIndex_first by auto. f_equal.
    rewrite (splice_at (pre ++ [r]) 1 [] (newRule :: post)). simpl.
    rewrite <- app_assoc. reflexivity.
Qed.

Lemma remove_undoes_insertion_witness :
  remove "pair" (add pairRule [charRule]) = inr [charRule]
  /\ remove "pair" [pairRule; charRule] = inr [charRule]
  /\ remove "pair" [charRule; pairRule] = inr [charRule].
Proof.
  destruct (remove_undoes_insertion [charRule] pairRule "text") as (H1 & H2 & H3).
  - repeat constructor. discriminate.
  - split; [exact H1|]. split; [apply H2 | apply H3]; reflexivity.
Defined.

(** X6.  Two insertions at the same anchor: after [insertBefore(anchor, a)]
    and [insertBefore(anchor, b)] the order is [a], [b], anchor (call order);
    after [insertAfter(anchor, a)] and [insertAfter(anchor, b)] it is anchor,
    [b], [a] (reverse call order).  The name of [a] is not the anchor's. *)
Theorem insertions_at_one_anchor (l : RuleList) anchor a b :
  name a <> anchor ->
  (forall l1 l2, insertBefore anchor a l = inr l1 -> insertBefore anchor b l1 = inr l2 ->
     exists pre r post, l = pre ++ r :: post /\ name r = anchor
                        /\ l2 = pre ++ a :: b :: r :: post)
  /\ (forall l1 l2, insertAfter anchor a l = inr l1 -> insertAfter anchor b l1 = inr l2 ->
        exists pre r post, l = pre ++ r :: post /\ name r = anchor
                           /\ l2 = pre ++ r :: b :: a :: post).
Proof.
  intros Ha. split; intros l1 l2 H1 H2.
  - unfold insertBefore in H1.
    destruct (findIndex anchor l) as [i|] eqn:E; [|discriminate]. injection H1 as <-.
    destruct (findIndex_Some anchor l i E) as (pre & r & post & -> & <- & Hr & Hpre).
    rewrite (splice_at pre 0 [a]) in H2. simpl in H2.
    unfold insertBefore in H2.
    replace (pre ++ a :: r :: post) with ((pre ++ [a]) ++ r :: post) in H2
      by (rewrite <- app_assoc; reflexivity).
    rewrite findIndex_first in H2;
      [|apply Forall_app; split; [exact Hpre | repeat constructor; exact Ha] | exact Hr].
    injection H2 as <-. exists pre, r, post. split; [reflexivity|]. split; [exact Hr|].
    rewrite (splice_at (pre ++ [a]) 0 [b]). simpl. rewrite <- app_assoc. reflexivity.
  - unfold insertAfter in H1.
    destruct (findIndex anchor l) as [i|] eqn:E; [|discriminate]. injection H1 as <-.
    destruct (findIndex_Some anchor l i E) as (pre & r & post & -> & <- & Hr & Hpre).
    rewrite (splice_after pre r [a]) in H2. simpl in H2.
    unfold insertAfter in H2. rewrite findIndex_first in H2 by assumption.
    injection H2 as <-. exists pre, r, post. split; [reflexivity|]. split; [exact Hr|].
    apply (splice_after pre r [b]).
Qed.

Lemma insertions_at_one_anchor_witness :
  (exists pre r post, [charRule] = pre ++ r :: post /\ name r = "text"
                      /\ [pairRule; neverRule; charRule] = pre ++ pairRule :: neverRule :: r :: post)
  /\ (exists pre r post, [charRule] = pre ++ r :: post /\ name r = "text"
                         /\ [charRule; neverRule; pairRule] = pre ++ r :: neverRule :: pairRule :: post).
Proof.
  destruct (insertions_at_one_anchor [charRule] "text" pairRule neverRule) as (H1 & H2).
  - discriminate.
  - split; [eapply H1 | eapply H2]; reflexivity.
Defined.

(** X7.  The rule object maps a name to the last rule of the registry with
    that name, while [get] returns the first; the two agree when the names of
    the registry are distinct. *)
Theorem toRuleObject_last_of_name (l : RuleList) rule :
  getProperty (toRuleObject l) rule = RuleList_get rule (rev l)
  /\ (NoDup (map name l) -> getProperty (toRuleObject l) rule = RuleList_get rule l).
Proof.
  assert (H : getProperty (toRuleObject l) rule = RuleList_get rule (rev l)).
  { unfold toRuleObject. rewrite toRuleObject_lookup.
    destruct (RuleList_get rule (rev l)); reflexivity. }
  split; [exact H|]. intros Hnd. rewrite H. clear H. unfold RuleList_get.
  induction l as [|r l IH]; [reflexivity|]. simpl.
  apply NoDup_cons in Hnd as [Hr Hnd]. rewrite find_append, IH by exact Hnd.
  destruct (String.eqb_spec (name r) rule) as [E|E].
  - destruct (find (fun r0 => String.eqb (name r0) rule) l) as [r'|] eqn:Hf.
    + exfalso. apply Hr. apply find_some in Hf as [Hin Hn].
      apply String.eqb_eq in Hn. rewrite E, <- Hn.
      apply list_elem_of_fmap_2, list_elem_of_In, Hin.
    + simpl. destruct (String.eqb_spec (name r) rule); [reflexivity | contradiction].
  - destruct (find (fun r0 => String.eqb (name r0) rule) l); [reflexivity|].
    simpl. destruct (String.eqb_spec (name r) rule); [contradiction | reflexivity].
Qed.

(** Two rules named ["text"]: the parser uses the second, [get] returns the
    first. *)
Lemma toRuleObject_last_of_name_witness :
  getProperty (toRuleObject [charRule; otherTextRule]) "text" = Some otherTextRule
  /\ RuleList_get "text" [charRule; otherTextRule] = Some charRule
  /\ getProperty (toRuleObject [charRule; pairRule]) "pair"
     = RuleList_get "pair" [charRule; pairRule].
Proof.
  split; [exact (proj1 (toRuleObject_last_of_name [charRule; otherTextRule] "text"))|].
  split; [reflexivity|].
  apply (proj2 (toRuleObject_last_of_name [charRule; pairRule] "pair")).
  refine (bool_decide_unpack _ _). vm_compute. exact I.
Defined.

(** X8.  [add] does not look for the name: after adding a rule whose name is
    taken, [get] still returns the old rule, the parser's rule object holds
    the new one, and the priority order is unchanged, so the new rule is
    consulted at the old rule's place. *)
Theorem add_under_taken_name (l : RuleList) rule old :
  RuleList_get (name rule) l = Some old ->
  RuleList_get (name rule) (add rule l) = Some old
  /\ getProperty (toRuleObject (add rule l)) (name rule) = Some rule
  /\ Object_keys (toRuleObject (add rule l)) = Object_keys (toRuleObject l).
Proof.
  intros Hold. split; [|split].
  - unfold RuleList_get, add in *. rewrite find_append, Hold. reflexivity.
  - rewrite toRuleObject_add, getProperty_setProperty, String.eqb_refl. reflexivity.
  - unfold Object_keys, own_keys. rewrite toRuleObject_add, setProperty_keys.
    rewrite bool_decide_eq_true_2; [reflexivity|].
    destruct (toRuleObject_keys l [] (NoDup_nil_2)) as [_ Hk]. apply Hk. right.
    unfold RuleList_get in Hold. apply find_some in Hold as [Hin Hn].
    apply String.eqb_eq in Hn. rewrite <- Hn.
    apply list_elem_of_fmap_2, list_elem_of_In, Hin.
Qed.

Lemma add_under_taken_name_witness :
  RuleList_get "text" (add otherTextRule [charRule; pairRule]) = Some charRule
  /\ getProperty (toRuleObject (add otherTextRule [charRule; pairRule])) "text"
     = Some otherTextRule
  /\ Object_keys (toRuleObject (add otherTextRule [charRule; pairRule]))
     = Object_keys (toRuleObject [charRule; pairRule]).
Proof.
  apply (add_under_taken_name [charRule; pairRule] otherTextRule charRule). reflexivity.
Defined.

(** ** The priority order *)

(** X9.  The priority order of a parser, [Object.keys] of the rule object,
    lists every rule name of the registry exactly once, whatever the names
    are, but for the name ["__proto__"], which it never lists: assigning a
    rule to [result.__proto__] makes it the prototype of the rule object, so
    a rule of that name is never consulted. *)
Theorem priority_order_names_once (l : RuleList) :
  NoDup (Object_keys (toRuleObject l))
  /\ forall t, t ∈ Object_keys (toRuleObject l)
               <-> t <> "__proto__" /\ exists r, r ∈ l /\ name r = t.
Proof.
  destruct (toRuleObject_keys l [] (NoDup_nil_2)) as [Hnd Hk]. fold (toRuleObject l) in Hnd, Hk.
  assert (Hown : forall t, t ∈ own_keys (toRuleObject l)
                           <-> t <> "__proto__" /\ t ∈ map fst (toRuleObject l)).
  { intros t. unfold own_keys. rewrite list_elem_of_In, filter_In, <- list_elem_of_In.
    destruct (String.eqb_spec t "__proto__"); simpl; split; intros [H1 H2];
      try discriminate; try contradiction; auto. }
  split.
  - rewrite Object_keys_perm. unfold own_keys. apply NoDup_ListNoDup, List.NoDup_filter.
    apply NoDup_ListNoDup. exact Hnd.
  - intros t. rewrite Object_keys_perm, Hown, Hk. simpl.
    rewrite elem_of_nil, list_elem_of_fmap.
    split.
    + intros [Hne [[]|(r & -> & Hr)]]. eauto.
    + intros (Hne & r & Hr & <-). split; [exact Hne|]. right. eauto.
Qed.

Lemma priority_order_without_proto :
  Object_keys (toRuleObject [charRule; protoRule; pairRule]) = ["text"; "pair"].
Proof. reflexivity. Qed.

(** X10.  A rule whose name is an array index (["0"], ["17"]) is consulted
    before every rule whose name is not, wherever the two stand in the
    registry: in the priority order every array index stands before every
    other name, and both rules are in it (if the name of the second is not
    ["__proto__"], which the priority order never lists). *)
Theorem index_names_come_first (l : RuleList) :
  (forall i j k k',
      Object_keys (toRuleObject l) !! i = Some k ->
      Object_keys (toRuleObject l) !! j = Some k' ->
      is_array_index k = true -> is_array_index k' = false -> i < j)
  /\ (forall r r',
        r ∈ l -> r' ∈ l ->
        is_array_index (name r) = true -> is_array_index (name r') = false ->
        name r' <> "__proto__" ->
        exists i j,
          i < j
          /\ Object_keys (toRuleObject l) !! i = Some (name r)
          /\ Object_keys (toRuleObject l) !! j = Some (name r')).
Proof.
  split.
  - intros i j k k' Hi Hj Hk Hk'. unfold Object_keys in Hi, Hj.
    set (A := map snd (index_keys (own_keys (toRuleObject l)))) in *.
    destruct (Nat.lt_ge_cases i (length A)) as [Hlt|Hge].
    + destruct (Nat.lt_ge_cases j (length A)) as [Hlt'|Hge']; [|lia].
      rewrite lookup_app_l in Hj by exact Hlt'.
      apply list_elem_of_lookup_2 in Hj. unfold A in Hj. rewrite index_keys_perm in Hj.
      apply list_elem_of_In, filter_In in Hj as [_ Hj]. congruence.
    + rewrite lookup_app_r in Hi by exact Hge.
      apply list_elem_of_lookup_2, list_elem_of_In, filter_In in Hi as [_ Hi].
      rewrite Hk in Hi. discriminate Hi.
  - intros r r' Hr Hr' Hi Hn Hproto.
    destruct (toRuleObject_keys l [] (NoDup_nil_2)) as [_ Hk]. fold (toRuleObject l) in Hk.
    assert (Hown : forall r0, r0 ∈ l -> name r0 <> "__proto__" ->
                              name r0 ∈ own_keys (toRuleObject l)).
    { intros r0 Hr0 Hne. unfold own_keys. apply list_elem_of_In, filter_In. split.
      - apply list_elem_of_In, Hk. right. apply list_elem_of_fmap_2, Hr0.
      - destruct (String.eqb_spec (name r0) "__proto__"); [contradiction | reflexivity]. }
    assert (H1 : name r ∈ map snd (index_keys (own_keys (toRuleObject l)))).
    { apply index_keys_elem; [|exact Hi]. apply Hown; [exact Hr|].
      intros E. rewrite E in Hi. discriminate Hi. }
    assert (H2 : name r' ∈ List.filter (fun k => negb (is_array_index k))
                             (own_keys (toRuleObject l))).
    { apply list_elem_of_In, filter_In. split; [|rewrite Hn; reflexivity].
      apply list_elem_of_In. apply Hown; assumption. }
    apply list_elem_of_lookup_1 in H1 as [i Hi'].
    apply list_elem_of_lookup_1 in H2 as [j Hj'].
    exists i, (length (map snd (index_keys (own_keys (toRuleObject l)))) + j).
    assert (Hlt := lookup_lt_Some _ _ _ Hi').
    split; [lia|]. unfold Object_keys. split.
    + rewrite lookup_app_l by exact Hlt. exact Hi'.
    + rewrite lookup_app_r by lia.
      replace (_ + j - _) with j by lia. exact Hj'.
Qed.

(** A rule named ["0"] that is added after ["text"] is consulted before it. *)
Lemma index_names_come_first_witness :
  exists i j,
    i < j
    /\ Object_keys (toRuleObject [charRule; zeroRule]) !! i = Some "0"
    /\ Object_keys (toRuleObject [charRule; zeroRule]) !! j = Some "text".
Proof.
  apply (proj2 (index_names_come_first [charRule; zeroRule]) zeroRule charRule).
  - apply list_elem_of_further, list_elem_of_here.
  - apply list_elem_of_here.
  - reflexivity.
  - reflexivity.
  - discriminate.
Defined.

(** ** Whitespace normalisation *)

(** X11.  The text [preprocess] returns holds no carriage return, no form feed
    and no tab. *)
Theorem preprocess_leaves_no_CR_FF_TAB (source : string) :
  Forall (fun c => c <> CR /\ c <> FF /\ c <> TAB) (list_ascii_of_string (preprocess source)).
Proof.
  apply List.Forall_forall. intros c. apply preprocess_chars.
Qed.

(** X12.  [preprocess] is idempotent, and it leaves a text without carriage
    returns, form feeds and tabs as it is. *)
Theorem preprocess_idempotent (source : string) :
  preprocess (preprocess source) = preprocess source
  /\ (~ In CR (list_ascii_of_string source) -> ~ In FF (list_ascii_of_string source) ->
      ~ In TAB (list_ascii_of_string source) -> preprocess source = source).
Proof.
  split; [|apply preprocess_clean].
  apply preprocess_clean; intros H; apply preprocess_chars in H; tauto.
Qed.

Lemma preprocess_idempotent_witness : preprocess "a b" = "a b".
Proof.
  apply (proj2 (preprocess_idempotent "a b")); simpl; intros H;
    repeat (destruct H as [H|H]; [discriminate H|]); exact H.
Defined.

(** X13.  [preprocess] is the three replacements of the source, each a
    regular expression run over the whole text: [/\r\n?/g] by a line feed,
    [/\f/g] by nothing and [/\t/g] by four spaces. *)
Theorem preprocess_by_replace (source : string) :
  preprocess source
  = replace TAB_R "    " (replace FORMFEED_R "" (replace CR_NEWLINE_R (String LF "") source)).
Proof.
  unfold preprocess, replace.
  replace (global TAB_R) with true by (rewrite TAB_R_value; reflexivity).
  replace (global FORMFEED_R) with true by (rewrite FORMFEED_R_value; reflexivity).
  replace (global CR_NEWLINE_R) with true by (rewrite CR_NEWLINE_R_value; reflexivity).
  rewrite replace_CR_NEWLINE_scan, replace_FORMFEED_scan, replace_TAB_scan. reflexivity.
Qed.

(** X14.  A parser gives the same outcome on a source and on the preprocessed
    source, in inline scope (or with [disableAutoBlockNewlines]) always, and in
    block scope when the source does not end in a carriage return (which the
    two appended line feeds would join). *)
Theorem parse_of_preprocessed ruleListInput defaultState fuel source state h :
  let latestState :=
    populateInitialState
      (Some (match state with
             | Some s => s
             | None => {[ "inline" := VBool false ]}
             end)) defaultState in
  truthy (get latestState "inline")
  || truthy (get latestState "disableAutoBlockNewlines") = true
  \/ endsWith CR source = false ->
  createParser ruleListInput defaultState fuel (preprocess source) state h
  = createParser ruleListInput defaultState fuel source state h.
Proof.
  intros latestState H. unfold createParser, outerParse. fold latestState.
  destruct (negb (truthy (get latestState "inline"))
            && negb (truthy (get latestState "disableAutoBlockNewlines"))) eqn:E.
  - destruct H as [H|H].
    + apply andb_true_iff in E as [E1 E2]. apply orb_true_iff in H as [H|H]; rewrite H in *; discriminate.
    + fold blankLine. rewrite (preprocess_app_blankLine source (endsWith_spec CR source H)).
      rewrite (preprocess_app_blankLine (preprocess source) (preprocess_no_final_CR source)).
      rewrite preprocess_again. reflexivity.
  - rewrite preprocess_again. reflexivity.
Qed.

Lemma parse_of_preprocessed_witness :
  createParser [charRule] ∅ 9 (preprocess (String TAB (String CR "a"))) None []
  = createParser [charRule] ∅ 9 (String TAB (String CR "a")) None [].
Proof.
  apply (parse_of_preprocessed [charRule] ∅ 9 (String TAB (String CR "a")) None []).
  right. reflexivity.
Defined.

(** ** The parse loop *)

(** X15.  When the last rule of the priority order recognizes the source (a
    catch-all rule), every name of the order is a non-empty name of a rule,
    and a rule registered under the name ["undefined"], if there is one, has
    no scorer, the iteration does not throw the "no matching rule" error: the
    walk ends holding the capture of a rule of the order, which the iteration
    goes on to check and apply.  (Past the end of the order the loop reads
    [rules[undefined]]: a rule of that name with a scorer would keep the walk
    going.) *)
Theorem last_rule_match_gives_winner rules ruleList fuel source result st tl rl cl :
  source <> "" ->
  (forall u, getProperty rules "undefined" = Some u -> quality u = None) ->
  Forall (fun t => t <> "" /\ is_Some (getProperty rules t)) ruleList ->
  last ruleList = Some tl -> getProperty rules tl = Some rl ->
  match' rl source (state st) = Some cl ->
  exists t r c,
    t ∈ ruleList /\ getProperty rules t = Some r /\ match' r source (state st) = Some c
    /\ nestedParseLoop rules ruleList (S fuel) source result st
       = if unanchored c then Throw UnanchoredCapture
         else applyRule (nestedParseLoop rules ruleList fuel) t r c source result st.
Proof.
  intros Hs Hu Hall Hlast Hrl Hcl. destruct source as [|a s]; [contradiction|].
  destruct (selectListed_with_catch_all rules ruleList (String a s) (state st) tl rl cl
              Hall Hlast Hrl Hcl)
    as (best & n & t & r & c & Hsel & Hw & Ht & Hr & Hc).
  exists t, r, c. split; [exact Ht|]. split; [exact Hr|]. split; [exact Hc|].
  assert (Hcap : is_Some (capture best)).
  { unfold winner in Hw. destruct (ruleType best) as [[|? ?]|], (rule best), (capture best);
      try discriminate; eauto. }
  rewrite nestedParseLoop_step.
  rewrite (selectRule_captured rules ruleList fuel (String a s) (state st) best n Hu
             (Forall_impl _ _ _ Hall (fun t H => proj2 H)) Hsel Hcap), Hw.
  reflexivity.
Qed.

Lemma last_rule_match_gives_winner_witness :
  exists t r c,
    t ∈ ["never"; "text"] /\ getProperty (toRuleObject [neverRule; charRule]) t = Some r
    /\ match' r "ab" ∅ = Some c
    /\ nestedParseLoop (toRuleObject [neverRule; charRule]) ["never"; "text"] 1 "ab" []
         (mkStore ∅ [])
       = if unanchored c then Throw UnanchoredCapture
         else applyRule (nestedParseLoop (toRuleObject [neverRule; charRule]) ["never"; "text"] 0)
                t r c "ab" [] (mkStore ∅ []).
Proof.
  refine (last_rule_match_gives_winner (toRuleObject [neverRule; charRule]) ["never"; "text"]
            0 "ab" [] (mkStore ∅ []) "text" charRule (mkCapture [Some "a"] None) _ _ _ _ _ _).
  - discriminate.
  - intros u Hu. discriminate Hu.
  - repeat constructor; try discriminate; eexists; reflexivity.
  - reflexivity.
  - reflexivity.
  - reflexivity.
Defined.

(** X16.  A rule registered under the empty name cannot win: when the walk
    ends holding its capture, the iteration throws the "no matching rule"
    error, since [!ruleType] holds for the empty string. *)
Theorem nameless_rule_never_wins rules ruleList fuel source result st best n :
  source <> "" ->
  selectRule rules ruleList fuel source (state st) = WalkEnds best n ->
  ruleType best = Some "" ->
  nestedParseLoop rules ruleList (S fuel) source result st
  = Throw (NoMatchingRule (last ruleList) source).
Proof.
  intros Hs Hsel Ht. destruct source as [|a s]; [contradiction|].
  rewrite nestedParseLoop_step, Hsel. unfold winner. rewrite Ht.
  destruct (rule best), (capture best); reflexivity.
Qed.

Lemma nameless_rule_never_wins_witness :
  nestedParseLoop (toRuleObject [namelessRule]) (Object_keys (toRuleObject [namelessRule]))
    1 "a" [] (mkStore ∅ [])
  = Throw (NoMatchingRule (Some "") "a").
Proof.
  assert (Hsel : selectRule (toRuleObject [namelessRule])
                   (Object_keys (toRuleObject [namelessRule])) 0 "a" ∅
                 = WalkEnds (mkBest (Some "") (Some namelessRule)
                               (Some (mkCapture [Some "a"] None)) 0%float) 1)
    by (vm_compute; reflexivity).
  refine (nameless_rule_never_wins (toRuleObject [namelessRule])
            (Object_keys (toRuleObject [namelessRule])) 0 "a" [] (mkStore ∅ []) _ _ _ Hsel _).
  - discriminate.
  - reflexivity.
Defined.

(** X17.  Every node of the sequence the parse loop returns is an object with
    a non-empty [type], the builder's own or else the name of the rule, for
    rules whose builders leave the type of already built nodes alone. *)
Theorem returned_nodes_have_a_type rules ruleList fuel source st res st' :
  (forall t r, getProperty rules t = Some r -> keepsTypesRule r) ->
  nestedParse rules ruleList fuel source st = Done res st' ->
  forall l, l ∈ res ->
    exists n, heap st' !! l = Some n /\ truthy (get n "type") = true.
Proof.
  intros Hrules H.
  destruct (nestedParseLoop_invariant rules ruleList Hrules fuel source [] st res st' H
              (typed_nil _) (noAdjacentText_nil _)) as (_ & HT & _).
  exact HT.
Qed.

(** The builder of ["text"] sets no type: the node gets the name of the
    rule. *)
Lemma returned_nodes_have_a_type_witness :
  exists res st',
    nestedParse (toRuleObject [charRule]) ["text"] 3 "ab" (mkStore ∅ []) = Done res st'
    /\ forall l, l ∈ res ->
         exists n, heap st' !! l = Some n /\ truthy (get n "type") = true.
Proof.
  assert (Hrun : exists res st',
             nestedParse (toRuleObject [charRule]) ["text"] 3 "ab" (mkStore ∅ []) = Done res st')
    by (eexists; eexists; vm_compute; reflexivity).
  destruct Hrun as (res & st' & Hrun). exists res, st'. split; [exact Hrun|].
  refine (returned_nodes_have_a_type (toRuleObject [charRule]) ["text"] 3 "ab"
            (mkStore ∅ []) res st' _ Hrun).
  intros t r Hget.
  apply (getProperty_singleton "text" charRule) in Hget as ->.
  apply contentOfCapture_keepsTypes.
Defined.



(** ** The helpers of the rules *)

(** X19.  The recognizers [inlineRegex(r)] and [blockRegex(r)] never both
    match: in inline scope the first is [anyScopeRegex(r)] and the second
    matches nothing, and in block scope it is the other way round. *)
Theorem scopes_are_disjoint (regex : RegExp) source state :
  (inlineRegex regex source state = None \/ blockRegex regex source state = None)
  /\ (truthy (get state "inline") = true ->
      inlineRegex regex source state = anyScopeRegex regex source state)
  /\ (truthy (get state "inline") = false ->
      blockRegex regex source state = anyScopeRegex regex source state).
Proof.
  unfold inlineRegex, blockRegex, anyScopeRegex.
  destruct (truthy (get state "inline")); repeat split; auto; discriminate.
Qed.

(** X20.  [unescapeUrl] drops the backslash in front of every character that
    is not a letter, digit or white space, reading from the left (so the
    escaped character itself is never taken as the start of an escape), and
    keeps every other character. *)
Theorem unescapeUrl_removes_escapes :
  unescapeUrl "" = ""
  /\ (forall a, unescapeUrl (String a "") = String a "")
  /\ (forall c s, isAlnumOrSpace c = false ->
        unescapeUrl (String "\" (String c s)) = String c (unescapeUrl s))
  /\ (forall a c s, a <> "\"%char \/ isAlnumOrSpace c = true ->
        unescapeUrl (String a (String c s)) = String a (unescapeUrl (String c s))).
Proof.
  split; [|split; [|split]].
  - rewrite unescapeUrl_from. apply unescapeFrom_nil.
  - intros a. rewrite unescapeUrl_from. apply unescapeFrom_last.
  - intros c s Hc. rewrite !unescapeUrl_from, unescapeFrom_escape by (rewrite Hc; reflexivity).
    f_equal. apply unescapeFrom_shift.
  - intros a c s H. rewrite !unescapeUrl_from, unescapeFrom_keep.
    + f_equal. apply unescapeFrom_shift.
    + destruct H as [H| ->]; [|apply andb_false_r].
      destruct (Ascii.eqb_spec a "\"); [contradiction | reflexivity].
Qed.

Lemma unescapeUrl_removes_escapes_witness :
  unescapeUrl (String "\" (String "(" "x")) = String "(" (unescapeUrl "x")
  /\ unescapeUrl (String "\" (String "a" "x")) = String "\" (unescapeUrl (String "a" "x")).
Proof.
  destruct unescapeUrl_removes_escapes as (_ & _ & H3 & H4).
  split; [apply H3; reflexivity | apply H4; right; reflexivity].
Defined.

(** ** The default rules *)

(** X21.  With the default rules, at every parse position with input left
    some default rule wins (["text"] recognizes every non-empty input), its
    capture starts at index 0 and its [capture[0]] is not empty: the
    iteration applies that rule and the cursor moves on. *)
Theorem default_rules_always_select fuel source result st :
  source <> "" ->
  exists r c m,
    r ∈ defaultRules /\ match' r source (state st) = Some c
    /\ index c = Some 0%float /\ group c 0 = Some m /\ m <> ""
    /\ nestedParseLoop (toRuleObject defaultRules) (Object_keys (toRuleObject defaultRules))
         (S fuel) source result st
       = applyRule (nestedParseLoop (toRuleObject defaultRules)
                      (Object_keys (toRuleObject defaultRules)) fuel)
           (name r) r c source result st.
Proof.
  intros Hs.
  destruct (defaultRules_select fuel source (state st) Hs)
    as (best & n & r & c & Hsel & Hw & Hin & Hc).
  assert (Hi : index c = Some 0%float).
  { exact (proj1 (Forall_forall _ _) defaultRules_anchored r Hin source (state st) c Hc). }
  destruct (proj1 (Forall_forall _ _) defaultRules_progress r Hin source (state st) c Hc)
    as (m & Hm & Hne).
  exists r, c, m. repeat (split; [assumption|]).
  destruct source as [|a s]; [contradiction|].
  rewrite nestedParseLoop_step, Hsel, Hw. unfold unanchored. rewrite Hi. reflexivity.
Qed.

Lemma default_rules_always_select_witness :
  exists r c m,
    r ∈ defaultRules /\ match' r "a*b*" inlineState = Some c
    /\ index c = Some 0%float /\ group c 0 = Some m /\ m <> ""
    /\ nestedParseLoop (toRuleObject defaultRules) (Object_keys (toRuleObject defaultRules))
         1 "a*b*" [] (mkStore inlineState [])
       = applyRule (nestedParseLoop (toRuleObject defaultRules)
                      (Object_keys (toRuleObject defaultRules)) 0)
           (name r) r c "a*b*" [] (mkStore inlineState []).
Proof.
  apply (default_rules_always_select 0 "a*b*" [] (mkStore inlineState [])). discriminate.
Defined.


(** X23.  With the default rules in inline scope (outside a list), a backslash
    followed by a character that is not a letter, digit or white space is
    taken by the rule ["escape"]: the iteration builds a text node that holds
    the character alone, collapses it into the output and goes on after the
    two characters. *)
Theorem escaped_character_is_text fuel (c : ascii) (s : string) result st :
  truthy (get (state st) "inline") = true -> truthy (get (state st) "_list") = false ->
  isAlnumOrSpace c = false ->
  nestedParseLoop (toRuleObject defaultRules) (Object_keys (toRuleObject defaultRules))
    (S fuel) (String "\" (String c s)) result st
  = (let* result' := collapse result (length (heap st)) in
     let* _ := setState "prevCapture"
                 (VCapture (mkCapture [Some (String "\" (String c "")); Some (String c "")]
                              (Some 0%float))) in
     nestedParseLoop (toRuleObject defaultRules) (Object_keys (toRuleObject defaultRules))
       fuel s result')
      (mkStore (state st)
         (heap st ++ [object [("type", VStr "text"); ("content", VStr (String c ""))]])).
Proof.
  intros Hi Hl Hc. rewrite nestedParseLoop_step.
  rewrite (defaultRules_walk fuel _ _ _ _ (escape_selected c s (state st) Hi Hl Hc)).
  cbn [winner rule capture ruleType].
  change (String.eqb "escape" "") with false. cbn iota.
  unfold unanchored. cbn [index]. change (truthy (VNum 0%float)) with false. cbn iota.
  unfold applyRule.
  unfold escapeRule at 1. cbn [parse]. unfold bind at 1. unfold alloc at 1.
  cbn [group groups lookup]. 
  unfold bind at 1. unfold defaultType, bind, getField. cbn [heap].
  rewrite lookup_app_r by lia. rewrite Nat.sub_diag. cbn [lookup list_lookup].
  reflexivity.
Qed.

Lemma escaped_character_is_text_witness :
  nestedParseLoop (toRuleObject defaultRules) (Object_keys (toRuleObject defaultRules))
    1 (String "\" "*a") [] (mkStore inlineState [])
  = (let* result' := collapse [] 0 in
     let* _ := setState "prevCapture"
                 (VCapture (mkCapture [Some (String "\" "*"); Some "*"] (Some 0%float))) in
     nestedParseLoop (toRuleObject defaultRules) (Object_keys (toRuleObject defaultRules))
       0 "a" result')
      (mkStore inlineState [object [("type", VStr "text"); ("content", VStr "*")]]).
Proof.
  apply (escaped_character_is_text 0 "*" "a" [] (mkStore inlineState [])); reflexivity.
Defined.

(** X24.  With the default rules in inline scope (outside lists and tables),
    a source whose first character starts no inline construct (it is none of
    backslash, [<], [h], [[], [!], [_], [*], [~], backtick and space) is taken
    by the rule ["text"]: all 27 rules in front of it are consulted and fail,
    and the iteration builds a text node with the non-empty prefix the rule
    captured and goes on after it. *)
Theorem plain_character_is_text fuel (c : ascii) (s : string) result st :
  truthy (get (state st) "inline") = true -> truthy (get (state st) "_list") = false ->
  truthy (get (state st) "inTable") = false -> startsInline c = false ->
  exists cap m,
    match' textRule (String c s) (state st) = Some cap
    /\ group cap 0 = Some m /\ m <> ""
    /\ String c s = m +:+ substring_from (String.length m) (String c s)
    /\ nestedParseLoop (toRuleObject defaultRules) (Object_keys (toRuleObject defaultRules))
         (S fuel) (String c s) result st
       = (let* result' := collapse result (length (heap st)) in
          let* _ := setState "prevCapture" (VCapture cap) in
          nestedParseLoop (toRuleObject defaultRules) (Object_keys (toRuleObject defaultRules))
            fuel (substring_from (String.length m) (String c s)) result')
           (mkStore (state st)
              (heap st ++ [<["type" := VStr "text"]> (object [("content", VStr m)])])).
Proof.
  intros Hi Hl Ht Hc.
  destruct (text_selected c s (state st) Hi Hl Ht Hc)
    as (cap & m & Hcap & Hidx & Hm & Hne & Hpre & Hsel).
  exists cap, m. split; [exact Hcap|]. split; [exact Hm|]. split; [exact Hne|].
  split; [exact Hpre|].
  rewrite nestedParseLoop_step, (defaultRules_walk fuel _ _ _ _ Hsel).
  cbn [winner rule capture ruleType].
  change (String.eqb "text" "") with false. cbn iota.
  unfold unanchored. rewrite Hidx. change (truthy (VNum 0%float)) with false. cbn iota.
  unfold applyRule.
  unfold textRule at 1. cbn [parse]. rewrite Hm. cbn [str].
  unfold bind at 1. unfold alloc at 1.
  unfold bind at 1. unfold defaultType, bind, getField, setField. cbn [heap state].
  rewrite lookup_app_r by lia. rewrite Nat.sub_diag. cbn [lookup list_lookup].
  change (truthy (get (object [("content", VStr m)]) "type")) with false. cbn iota.
  cbv beta. cbn [heap state].
  rewrite lookup_app_r by lia. rewrite Nat.sub_diag. cbn [lookup list_lookup].
  rewrite insert_app_r_alt by lia. rewrite Nat.sub_diag. reflexivity.
Qed.

Lemma plain_character_is_text_witness :
  exists cap m,
    match' textRule "ab*" inlineState = Some cap
    /\ group cap 0 = Some m /\ m <> ""
    /\ "ab*" = m +:+ substring_from (String.length m) "ab*"
    /\ nestedParseLoop (toRuleObject defaultRules) (Object_keys (toRuleObject defaultRules))
         1 "ab*" [] (mkStore inlineState [])
       = (let* result' := collapse [] 0 in
          let* _ := setState "prevCapture" (VCapture cap) in
          nestedParseLoop (toRuleObject defaultRules) (Object_keys (toRuleObject defaultRules))
            0 (substring_from (String.length m) "ab*") result')
           (mkStore inlineState [<["type" := VStr "text"]> (object [("content", VStr m)])]).
Proof.
  apply (plain_character_is_text 0 "a" "b*" [] (mkStore inlineState [])); reflexivity.
Defined.



(** X26.  The name under which references and definitions meet: each run of
    white space becomes one space, every other character its lower case, and
    so two names that differ in the case of their letters only are the same
    name.  Lower case is that of [toLowerCase] on the code units below 256:
    of the letters [A] to [Z] and of the accented capitals U+00C0 to U+00DE,
    as U+00C9 to U+00E9 (the sign U+00D7 and the letter U+00DF stay). *)
Theorem normalizeName_ignores_case_and_spacing :
  normalizeName "" = ""
  /\ (forall a s, is_space a = false ->
        normalizeName (String a s) = String (lowerChar a) (normalizeName s))
  /\ (forall a s, is_space a = true ->
        normalizeName (String a s) = String " " (normalizeName (trim_start s)))
  /\ (forall s, normalizeName (toLowerCase s) = normalizeName s)
  /\ (forall a, lowerChar (lowerChar a) = lowerChar a)
  /\ lowerChar "A" = "a"%char
  /\ lowerChar (ascii_of_N 201) = ascii_of_N 233
  /\ lowerChar (ascii_of_N 215) = ascii_of_N 215
  /\ lowerChar (ascii_of_N 223) = ascii_of_N 223.
Proof.
  split; [exact normalizeName_nil|]. split; [exact normalizeName_char|].
  split; [exact normalizeName_space|]. split; [exact normalizeName_lower|].
  split; [exact lowerChar_again|]. repeat split.
Qed.

Lemma normalizeName_ignores_case_and_spacing_witness :
  normalizeName (String "A" " b") = String "a" (normalizeName " b")
  /\ normalizeName "  b" = String " " (normalizeName "b").
Proof.
  destruct normalizeName_ignores_case_and_spacing as (_ & H2 & H3 & _).
  split; [apply H2 | apply (H3 " "%char " b")]; reflexivity.
Defined.

(** X27.  At equal length of the matched text (below 65536 characters) the
    quality of ["em"] is strictly above that of ["strong"], which is strictly
    above that of ["u"]: ["em"] wins ties and ["u"] loses them. *)
Theorem emphasis_ties_by_rule cEm cStrong cU mEm mStrong mU state :
  group cEm 0 = Some mEm -> group cStrong 0 = Some mStrong -> group cU 0 = Some mU ->
  String.length mStrong = String.length mEm -> String.length mU = String.length mEm ->
  (Z.of_nat (String.length mEm) < 65536)%Z ->
  PrimFloat.ltb (qualityOf uRule cU state) (qualityOf strongRule cStrong state) = true
  /\ PrimFloat.ltb (qualityOf strongRule cStrong state) (qualityOf emRule cEm state) = true.
Proof.
  intros H1 H2 H3 E2 E3 Hn. unfold qualityOf, emRule, strongRule, uRule. cbn [quality].
  unfold lengthPlus. rewrite H1, H2, H3, E2, E3.
  assert (Ha := allBelow_spec ascendingAt 65536 ascendingAt_table
                  (Z.of_nat (String.length mEm)) ltac:(split; [lia | exact Hn])).
  unfold ascendingAt in Ha. cbv zeta in Ha. apply andb_true_iff in Ha. exact Ha.
Qed.

Lemma emphasis_ties_by_rule_witness :
  PrimFloat.ltb (qualityOf uRule (mkCapture [Some "__a__"] (Some 0%float)) ∅)
                (qualityOf strongRule (mkCapture [Some "**a**"] (Some 0%float)) ∅) = true
  /\ PrimFloat.ltb (qualityOf strongRule (mkCapture [Some "**a**"] (Some 0%float)) ∅)
                   (qualityOf emRule (mkCapture [Some "*a b*"] (Some 0%float)) ∅) = true.
Proof.
  apply (emphasis_ties_by_rule (mkCapture [Some "*a b*"] (Some 0%float))
           (mkCapture [Some "**a**"] (Some 0%float)) (mkCapture [Some "__a__"] (Some 0%float))
           "*a b*" "**a**" "__a__" ∅); reflexivity.
Defined.

(** ** References and definitions in any order *)

(** X28.  Let references and definitions reach [parseRef] and the builder of
    the ["def"] rule in any order [es], starting with both tables unset, each
    reference with a node of its own, and every name one that
    [Object.prototype] has no property of.  Then every call returns, and in
    the final store the node of every reference whose name is defined
    somewhere in [es], before it or after it, has the target and the title of
    the last definition of that name. *)
Theorem forward_references_resolved (es : list RefEvent) (st : Store) :
  get (state st) "_refs" = VUndefined ->
  get (state st) "_defs" = VUndefined ->
  NoDup (refNodes es) ->
  (forall l, l ∈ refNodes es -> l < length (heap st)) ->
  (forall e, e ∈ es -> ordinaryName e) ->
  exists st',
    seeEvents es st = Done tt st'
    /\ forall capture refNode name d,
        SeeRef capture refNode ∈ es ->
        refName capture = Some name ->
        lastDef name es None = Some d ->
        resolved st' refNode d.
Proof.
  intros Hrefs Hdefs Hnd Hlt Hnamed.
  destruct (seeEvents_run es [] st) as (st' & Hrun & R & D & _ & _ & _ & _ & Hres).
  - exists ∅, ∅. split; [left; auto|]. split; [left; auto|].
    split; [reflexivity|]. split; [intros x; apply lookup_empty|].
    intros c l x d Hin. apply elem_of_nil in Hin. contradiction.
  - exact Hnd.
  - exact Hlt.
  - exact Hnamed.
  - exists st'. split; [exact Hrun | exact Hres].
Qed.

(** Two references to [x], one before and one after the definition of [x]:
    both nodes end with target [/url] and title [t]. *)
Lemma forward_references_resolved_witness :
  exists st',
    seeEvents [SeeRef referenceToX 0; SeeDef definitionOfX; SeeRef referenceToX 1]
              (mkStore ∅ [linkNode; linkNode]) = Done tt st'
    /\ resolved st' 0 (VStr "/url", VStr "t")
    /\ resolved st' 1 (VStr "/url", VStr "t").
Proof.
  destruct (forward_references_resolved
              [SeeRef referenceToX 0; SeeDef definitionOfX; SeeRef referenceToX 1]
              (mkStore ∅ [linkNode; linkNode]))
    as (st' & Hrun & Hres).
  - reflexivity.
  - reflexivity.
  - simpl. apply NoDup_cons. split; [|apply NoDup_singleton].
    intros H%list_elem_of_singleton. discriminate H.
  - intros l Hl. simpl in Hl. simpl.
    apply elem_of_cons in Hl as [-> | Hl]; [lia|].
    apply list_elem_of_singleton in Hl as ->. lia.
  - intros e He.
    repeat (apply elem_of_cons in He as [-> | He];
            [exists "x"; split; vm_compute; reflexivity|]).
    apply elem_of_nil in He. contradiction.
  - exists st'. split; [exact Hrun|].
    split.
    + apply (Hres referenceToX 0 "x"); [apply list_elem_of_here | |];
        vm_compute; reflexivity.
    + apply (Hres referenceToX 1 "x");
        [do 2 apply list_elem_of_further; apply list_elem_of_here | |];
        vm_compute; reflexivity.
Defined.

(** ** No rule matches *)

(** X29.  At a parse position with input left, when the priority order is not
    empty, every name of it is the name of a rule, every one of these rules
    fails to recognize the input, and no rule is registered under the name
    ["undefined"], the iteration throws the "no matching rule" error, which
    names the last rule of the order and the input, whatever nodes the loop
    had appended so far. *)
Theorem no_matching_rule_is_fatal rules ruleList fuel source result st :
  source <> "" -> ruleList <> [] ->
  getProperty rules "undefined" = None ->
  (forall t, t ∈ ruleList ->
             exists r, getProperty rules t = Some r /\ match' r source (state st) = None) ->
  nestedParseLoop rules ruleList (S fuel) source result st
  = Throw (NoMatchingRule (last ruleList) source).
Proof.
  intros Hs Hl Hu Hfail. destruct source as [|a s]; [contradiction|].
  rewrite nestedParseLoop_step.
  destruct (selectRule_listed rules ruleList fuel (String a s) (state st) Hu)
    as (b & n & Hsel & ->); [|exact Hl|].
  { apply Forall_forall. intros t Ht. destruct (Hfail t Ht) as (r & Hr & _). eauto. }
  unfold selectListed in Hsel.
  destruct ruleList as [|t rest] eqn:El; [contradiction|].
  destruct (Hfail t (list_elem_of_here _ _)) as (r & Hr & Hm). rewrite Hr in Hsel.
  assert (Hb : fst (listedLoop rules (String a s) (state st) t r rest 0 noBest) = noBest).
  { apply listedLoop_all_fail; [exact Hm|]. intros t' r' Hin Hr'.
    destruct (Hfail t' (list_elem_of_further _ _ _ Hin)) as (r'' & Hr'' & Hm'').
    congruence. }
  injection Hsel as Hsel. rewrite Hsel in Hb. simpl in Hb. subst b. reflexivity.
Qed.

Lemma no_matching_rule_is_fatal_witness :
  nestedParseLoop (toRuleObject [neverRule]) ["never"] 1 "x" [] (mkStore ∅ [])
  = Throw (NoMatchingRule (Some "never") "x").
Proof.
  refine (no_matching_rule_is_fatal (toRuleObject [neverRule]) ["never"] 0 "x" []
            (mkStore ∅ []) _ _ _ _).
  - discriminate.
  - discriminate.
  - reflexivity.
  - intros t Ht. apply list_elem_of_singleton in Ht as ->.
    exists neverRule. split; reflexivity.
Defined.
